(** * Interleaved randomized benchmarking (IRB): a shallow embedding

    This development embeds the randomized-benchmarking experiment of
    [supermarq/qcvv/irb.py] (and the older [cirq_superstaq/qcvv/irb.py]) and
    states the properties of its circuit builder and of its decay-model fit.
    The Hamiltonian and the energy functions of
    [supermarq/benchmarks/vqe_hwea_clifford.py] are embedded after it.

    Layout: the Python, cirq, numpy and scipy functions the experiment calls
    are modelled first, then the experiment itself, then the vocabulary of
    the statements, then the lemmas. *)

From Stdlib Require Import ZArith List Bool Reals Lra Lia String.
From Stdlib Require Import Ascii.
From stdpp Require Import base decidable option list finite gmap.

Set Default Proof Using "Type".
Local Open Scope Z_scope.

(** ** Python: exceptions, the result of a call, the random source *)

Module Py.

(** The exceptions that the modelled code can raise. *)
Inductive exn : Type :=
| IndexError
| TypeError
| ValueError (msg : string)
| NotImplementedError (msg : string).

(** A call either returns a value or raises. *)
Inductive result (A : Type) : Type :=
| Ok (a : A)
| Raise (e : exn).
Arguments Ok {A} a.
Arguments Raise {A} e.

Definition bind {A B} (r : result A) (k : A -> result B) : result B :=
  match r with
  | Ok a => k a
  | Raise e => Raise e
  end.

(** The process-wide random source of the [random] module: an unbounded
    stream of raw draws and a read position. *)
Record rng : Type := { draws : nat -> nat; pos : nat }.

(** [random._randbelow n]: a number below [n], and the advanced source. *)
Definition randbelow (n : nat) (s : rng) : nat * rng :=
  (draws s (pos s) mod n, {| draws := draws s; pos := S (pos s) |})%nat.

(** [random.choice seq] is [seq[_randbelow(len(seq))]]; on an empty
    sequence it raises [IndexError]. *)
Definition choice {A} (seq : list A) (s : rng) : result (A * rng) :=
  match seq with
  | [] => Raise IndexError
  | _ =>
      let (i, s') := randbelow (length seq) s in
      match nth_error seq i with
      | Some a => Ok (a, s')
      | None => Raise IndexError
      end
  end.

(** [range(n)] for a Python integer: empty when [n <= 0]. *)
Definition range_len (n : Z) : nat := Z.to_nat n.

End Py.

Export Py.

#[global] Instance result_ret : MRet result := fun A a => Ok a.
#[global] Instance result_bind : MBind result := fun A B k r => bind r k.

(** ** cirq: Paulis and single-qubit Clifford gates

    [cirq.ops.SingleQubitCliffordGate] identifies a gate, up to global phase,
    with the images of the Pauli operators X and Z under conjugation, each a
    signed Pauli. Two gates are equal when those images are. *)

Module Cirq.

(** [cirq.Pauli], with [_index] 0, 1, 2. *)
Inductive Pauli : Type := pX | pY | pZ.

Definition index (p : Pauli) : Z :=
  match p with pX => 0 | pY => 1 | pZ => 2 end.

Definition of_index (i : Z) : Pauli :=
  if i =? 0 then pX else if i =? 1 then pY else pZ.

(** [Pauli.third]: [_XYZ[(-self._index - second._index) % 3]]. *)
Definition third (a b : Pauli) : Pauli :=
  of_index ((- index a - index b) mod 3).

(** [Pauli.__lt__], the cyclic order X < Y < Z < X:
    [(other._index - self._index) % 3 == 1]. *)
Definition pauli_lt (a b : Pauli) : bool :=
  (index b - index a) mod 3 =? 1.

(** [PauliTransform(to, flip)]: a Pauli and whether its sign is flipped. *)
Record PauliTransform : Type := { to : Pauli; flip : bool }.

(** The images of X and Z. *)
Record xz_map : Type := { x_to : PauliTransform; z_to : PauliTransform }.

#[global] Instance Pauli_eq_dec : EqDecision Pauli.
Proof. solve_decision. Defined.
#[global] Instance PauliTransform_eq_dec : EqDecision PauliTransform.
Proof. solve_decision. Defined.
#[global] Instance xz_map_eq_dec : EqDecision xz_map.
Proof. solve_decision. Defined.

(** [from_xz_map] accepts a pair of images only when they are different
    Paulis (otherwise the map is not a rotation and cirq raises). *)
Definition valid (m : xz_map) : Prop := to (x_to m) <> to (z_to m).

#[global] Instance valid_dec m : Decision (valid m).
Proof. unfold valid. apply _. Defined.

(** The image of Y, as [from_double_map] completes the map: the third Pauli,
    with sign [flip1 ^ flip2 ^ ((from1 < from2) != (to1 < to2))]. *)
Definition y_to (m : xz_map) : PauliTransform :=
  {| to := third (to (x_to m)) (to (z_to m));
     flip := xorb (xorb (flip (x_to m)) (flip (z_to m)))
                  (negb (eqb (pauli_lt pX pZ)
                             (pauli_lt (to (x_to m)) (to (z_to m))))) |}.

(** [SingleQubitCliffordGate.transform]. *)
Definition transform_xz (m : xz_map) (p : Pauli) : PauliTransform :=
  match p with
  | pX => x_to m
  | pY => y_to m
  | pZ => z_to m
  end.

(** The map of [self.merged_with(second)]: first [self], then [second]. *)
Definition merged_xz (self second : xz_map) : xz_map :=
  let xi := transform_xz self pX in
  let xf := transform_xz second (to xi) in
  let zi := transform_xz self pZ in
  let zf := transform_xz second (to zi) in
  {| x_to := {| to := to xf; flip := xorb (flip xi) (flip xf) |};
     z_to := {| to := to zf; flip := xorb (flip zi) (flip zf) |} |}.

(** The inverse rotation map: [p] is sent back to the Pauli it is the image
    of, with the same sign flip. *)
Definition preimage_xz (m : xz_map) (p : Pauli) : PauliTransform :=
  match filter (fun q => to (transform_xz m q) = p) [pX; pY; pZ] with
  | q :: _ => {| to := q; flip := flip (transform_xz m q) |}
  | [] => {| to := p; flip := false |}
  end.

Definition inverse_xz (m : xz_map) : xz_map :=
  {| x_to := preimage_xz m pX; z_to := preimage_xz m pZ |}.

(** A [SingleQubitCliffordGate]: a valid map. There are 24 of them. *)
Definition SingleQubitCliffordGate : Type := dsig valid.

Definition xz_of (g : SingleQubitCliffordGate) : xz_map := proj1_sig g.

(** The gate type is finite with decidable equality, so a statement about
    all gates can be decided by enumeration. *)
#[global] Program Instance Pauli_finite : Finite Pauli := {| enum := [pX; pY; pZ] |}.
Next Obligation. apply (bool_decide_unpack _). reflexivity. Qed.
Next Obligation. intros []; apply (bool_decide_unpack _); reflexivity. Qed.

#[global] Instance PauliTransform_finite : Finite PauliTransform.
Proof.
  refine (surjective_finite (fun pf : Pauli * bool => {| to := pf.1; flip := pf.2 |})).
  intros [p f]. exists (p, f). reflexivity.
Defined.

#[global] Instance xz_map_finite : Finite xz_map.
Proof.
  refine (surjective_finite (fun xz : PauliTransform * PauliTransform =>
                               {| x_to := xz.1; z_to := xz.2 |})).
  intros [x z]. exists (x, z). reflexivity.
Defined.

#[global] Instance SingleQubitCliffordGate_eq_dec : EqDecision SingleQubitCliffordGate.
Proof. unfold SingleQubitCliffordGate. apply _. Defined.

#[global] Instance SingleQubitCliffordGate_finite : Finite SingleQubitCliffordGate.
Proof. unfold SingleQubitCliffordGate, dsig. apply _. Defined.

(** [SingleQubitCliffordGate.from_xz_map]. *)
Definition from_xz_map (x z : PauliTransform) : result SingleQubitCliffordGate :=
  match decide (valid {| x_to := x; z_to := z |}) with
  | left ok => Ok (dexist {| x_to := x; z_to := z |} ok)
  | right _ => Raise (ValueError "not a valid rotation map")
  end.

Definition PT (p : Pauli) (f : bool) : PauliTransform := {| to := p; flip := f |}.

(** A gate from a pair of images that is valid. *)
Definition mk_gate (x z : PauliTransform) (ok : valid {| x_to := x; z_to := z |})
  : SingleQubitCliffordGate := dexist {| x_to := x; z_to := z |} ok.

(** The named gates [SingleQubitCliffordGate.I], [.H], ..., as cirq
    declares them with [from_xz_map]. *)
Module Gate.
Definition I : SingleQubitCliffordGate :=
  mk_gate (PT pX false) (PT pZ false) ltac:(discriminate).
Definition H : SingleQubitCliffordGate :=
  mk_gate (PT pZ false) (PT pX false) ltac:(discriminate).
Definition X : SingleQubitCliffordGate :=
  mk_gate (PT pX false) (PT pZ true) ltac:(discriminate).
Definition Y : SingleQubitCliffordGate :=
  mk_gate (PT pX true) (PT pZ true) ltac:(discriminate).
Definition Z : SingleQubitCliffordGate :=
  mk_gate (PT pX true) (PT pZ false) ltac:(discriminate).
Definition Z_sqrt : SingleQubitCliffordGate :=
  mk_gate (PT pY false) (PT pZ false) ltac:(discriminate).
End Gate.

(** Wrap a map that is known to be valid; an invalid one would make cirq
    raise, which [merged_with] and the inverse never do (lemmas
    [merged_with_xz] and [inverse_gate_xz]). *)
Definition of_xz (m : xz_map) (fallback : SingleQubitCliffordGate)
  : SingleQubitCliffordGate :=
  match decide (valid m) with
  | left ok => dexist m ok
  | right _ => fallback
  end.

(** [self.merged_with(second)]: the gate equivalent to [self] followed by
    [second]. *)
Definition merged_with (self second : SingleQubitCliffordGate)
  : SingleQubitCliffordGate :=
  of_xz (merged_xz (xz_of self) (xz_of second)) self.

(** [gate ** -1], which is what [cirq.inverse(gate)] returns. *)
Definition inverse_gate (g : SingleQubitCliffordGate) : SingleQubitCliffordGate :=
  of_xz (inverse_xz (xz_of g)) g.

(** An operation of a single-qubit circuit: a Clifford gate on the qubit, or
    the closing measurement. [op.gate] of a measurement is not a Clifford
    gate and has no inverse. *)
Inductive Operation : Type :=
| GateOp (g : SingleQubitCliffordGate)
| MeasureOp.

Definition gate (op : Operation) : option SingleQubitCliffordGate :=
  match op with
  | GateOp g => Some g
  | MeasureOp => None
  end.

(** A [cirq.Circuit] on one qubit, in time order. The experiment is
    restricted to one qubit, so under cirq's default insertion strategy every
    moment holds exactly one operation and [len(circuit)] is their number. *)
Definition Circuit : Type := list Operation.

Definition all_operations (c : Circuit) : list Operation := c.

(** [cirq.inverse] on a list: the inverses of the elements in reversed
    order, and [TypeError] when an element has no inverse. On the empty list
    it returns the empty tuple. *)
Fixpoint inverse_each (gates : list (option SingleQubitCliffordGate))
  : result (list SingleQubitCliffordGate) :=
  match gates with
  | [] => Ok []
  | None :: _ => Raise TypeError
  | Some g :: rest =>
      match inverse_each rest with
      | Ok l => Ok (inverse_gate g :: l)
      | Raise e => Raise e
      end
  end.

Definition inverse (gates : list (option SingleQubitCliffordGate))
  : result (list SingleQubitCliffordGate) :=
  match inverse_each gates with
  | Ok l => Ok (rev l)
  | Raise e => Raise e
  end.

(** [circuit + op] on values: a copy of the circuit with [op] in a new last
    moment. *)
Definition circuit_add (c : Circuit) (op : Operation) : Circuit := c ++ [op].

End Cirq.

(** ** numpy: floating-point values

    Floats are idealised: the finite values are the real numbers (no
    rounding, overflow or signed zero), next to both infinities and NaN.
    The special values follow IEEE 754 as numpy applies it: invalid
    operations give NaN and division by zero gives an infinity, with a
    warning and without raising. *)

Module NumPy.

Local Open Scope R_scope.

Inductive float : Type :=
| Fin (r : R)
| PInf
| NInf
| NaN.

Definition isnan (x : float) : bool :=
  match x with NaN => true | _ => false end.

Definition inf (positive : bool) : float := if positive then PInf else NInf.

Definition fopp (x : float) : float :=
  match x with
  | Fin r => Fin (- r)
  | PInf => NInf
  | NInf => PInf
  | NaN => NaN
  end.

Definition fadd (x y : float) : float :=
  match x, y with
  | NaN, _ | _, NaN => NaN
  | Fin a, Fin b => Fin (a + b)
  | PInf, NInf | NInf, PInf => NaN
  | PInf, _ | _, PInf => PInf
  | NInf, _ | _, NInf => NInf
  end.

Definition fsub (x y : float) : float := fadd x (fopp y).

(** The sign of a finite value times an infinity; [0 * inf] is NaN. *)
Definition scale_inf (a : R) (positive : bool) : float :=
  if Req_EM_T a 0 then NaN
  else if Rlt_dec 0 a then inf positive else inf (negb positive).

Definition fmul (x y : float) : float :=
  match x, y with
  | NaN, _ | _, NaN => NaN
  | Fin a, Fin b => Fin (a * b)
  | Fin a, PInf | PInf, Fin a => scale_inf a true
  | Fin a, NInf | NInf, Fin a => scale_inf a false
  | PInf, PInf | NInf, NInf => PInf
  | PInf, NInf | NInf, PInf => NInf
  end.

Definition fdiv (x y : float) : float :=
  match x, y with
  | NaN, _ | _, NaN => NaN
  | Fin a, Fin b =>
      if Req_EM_T b 0 then
        (if Req_EM_T a 0 then NaN else if Rlt_dec 0 a then PInf else NInf)
      else Fin (a / b)
  | Fin _, (PInf | NInf) => Fin 0
  | PInf, Fin b => if Rlt_dec b 0 then NInf else PInf
  | NInf, Fin b => if Rlt_dec b 0 then PInf else NInf
  | (PInf | NInf), (PInf | NInf) => NaN
  end.

(** [np.sqrt] *)
Definition fsqrt (x : float) : float :=
  match x with
  | Fin a => if Rlt_dec a 0 then NaN else Fin (sqrt a)
  | PInf => PInf
  | NInf => NaN
  | NaN => NaN
  end.

(** [np.exp] *)
Definition fexp (x : float) : float :=
  match x with
  | Fin a => Fin (exp a)
  | PInf => PInf
  | NInf => Fin 0
  | NaN => NaN
  end.

(** [np.log]: NaN below zero, minus infinity at zero. *)
Definition log (x : float) : float :=
  match x with
  | Fin a =>
      if Rlt_dec a 0 then NaN
      else if Req_EM_T a 0 then NInf
      else Fin (ln a)
  | PInf => PInf
  | NInf => NaN
  | NaN => NaN
  end.

(** [x == y] on floats; NaN equals nothing. *)
Definition feqb (x y : float) : bool :=
  match x, y with
  | Fin a, Fin b => if Req_EM_T a b then true else false
  | PInf, PInf | NInf, NInf => true
  | _, _ => false
  end.

(** [x < y] on floats; false when either side is NaN. *)
Definition flt (x y : float) : Prop :=
  match x, y with
  | NaN, _ | _, NaN => False
  | Fin a, Fin b => a < b
  | NInf, (Fin _ | PInf) => True
  | Fin _, PInf => True
  | _, _ => False
  end.

Definition fltb (x y : float) : bool :=
  match x, y with
  | NaN, _ | _, NaN => false
  | Fin a, Fin b => if Rlt_dec a b then true else false
  | NInf, (Fin _ | PInf) => true
  | Fin _, PInf => true
  | _, _ => false
  end.

(** [x <= y] on floats. *)
Definition fle (x y : float) : Prop := flt x y \/ feqb x y = true.

Definition of_int (z : Z) : float := Fin (IZR z).

(** [2 ** -n] for a Python integer [n]. *)
Definition pow2neg (n : Z) : float := Fin (powerRZ 2 (- n)).

Definition fsum (l : list float) : float := fold_left fadd l (Fin 0).

(** [np.mean] *)
Definition mean (l : list float) : float :=
  fdiv (fsum l) (Fin (INR (length l))).

End NumPy.

(** ** scipy: [scipy.stats.linregress]

    Only the fields the experiment reads are kept: the slope and its
    standard error. The two arrays come from one table and have one
    length. *)

Module SciPy.
Import NumPy.

Record LinregressResult : Type := { slope : float; stderr : float }.

Definition msg_empty : string := "Inputs must not be empty.".
Definition msg_identical : string :=
  "Cannot calculate a linear regression if all x values are identical".

(** [np.amax(x) == np.amin(x)] on integer abscissas. *)
Definition all_identical (x : list Z) : bool :=
  match x with
  | [] => true
  | x0 :: rest => forallb (Z.eqb x0) rest
  end.

(** The mean of the products of the deviations from the means, an entry of
    [np.cov(x, y, bias=1)]. *)
Definition cov (u v : list float) : float :=
  let du := map (fun a => fsub a (mean u)) u in
  let dv := map (fun a => fsub a (mean v)) v in
  mean (zip_with fmul du dv).

(** The correlation coefficient, clamped to [-1, 1]. *)
Definition rvalue (ssxm ssxym ssym : float) : float :=
  if feqb ssxm (Fin 0) || feqb ssym (Fin 0) then Fin 0
  else
    let r := fdiv ssxym (fsqrt (fmul ssxm ssym)) in
    if fltb (Fin 1) r then Fin 1
    else if fltb r (Fin (-1)) then Fin (-1)
    else r.

Definition linregress (x : list Z) (y : list float) : result LinregressResult :=
  if (length x =? 0)%nat || (length y =? 0)%nat then
    Raise (ValueError msg_empty)
  else if all_identical x && (1 <? length x)%nat then
    Raise (ValueError msg_identical)
  else
    let n := length x in
    let xf := map of_int x in
    let ssxm := cov xf xf in
    let ssxym := cov xf y in
    let ssym := cov y y in
    let r := rvalue ssxm ssxym ssym in
    let slope := fdiv ssxym ssxm in
    if (n =? 2)%nat then
      Ok {| slope := slope; stderr := Fin 0 |}
    else
      let df := Fin (INR n - 2) in
      Ok {| slope := slope;
            stderr := fsqrt (fdiv (fdiv (fmul (fsub (Fin 1) (fmul r r)) ssym)
                                        ssxm) df) |}.

End SciPy.

(** ** The store of circuit objects

    A [cirq.Circuit] is a mutable object. Where sharing matters, circuits
    live in a store under their identity; [+=] updates an object in place and
    [copy] and [+] make a new one. *)

Module Store.
Import Cirq.

(** The identity of an object. *)
Abbreviation ref := nat (only parsing).

Definition new_object (c : Circuit) (h : gmap nat Circuit) : ref * gmap nat Circuit :=
  let r := fresh (dom h) in (r, <[r := c]> h).

(** A reference to an object that is not in the store cannot be built by a
    Python program; reading one is reported as a [TypeError]. *)
Definition contents (r : ref) (h : gmap nat Circuit) : result Circuit :=
  match h !! r with
  | Some c => Ok c
  | None => Raise TypeError
  end.

(** [Circuit.copy()] *)
Definition copy (r : ref) (h : gmap nat Circuit) : result (ref * gmap nat Circuit) :=
  c ← contents r h; mret (new_object c h).

(** [Circuit.__iadd__]: [self.append(other)], then [self]. *)
Definition __iadd__ (r : ref) (op : Operation) (h : gmap nat Circuit)
  : result (ref * gmap nat Circuit) :=
  c ← contents r h; mret (r, <[r := circuit_add c op]> h).

(** [Circuit.__add__]: [self.copy().__iadd__(other)]. *)
Definition __add__ (r : ref) (op : Operation) (h : gmap nat Circuit)
  : result (ref * gmap nat Circuit) :=
  '(r', h') ← copy r h; __iadd__ r' op h'.

(** The constructor [cirq.Circuit], given the operations. *)
Definition Circuit_of (ops : list Operation) (h : gmap nat Circuit)
  : ref * gmap nat Circuit := new_object ops h.

End Store.

(** ** supermarq.qcvv.base_experiment

    What the experiment takes from its base class: the samples with their
    [data] dictionary, the table of results, and [_interleave_op]. The
    records are as [irb.py] builds and reads them. *)

Module BaseExperiment.
Import Cirq NumPy.

(** The [data] dictionary of a sample, with the three keys the builder
    writes. *)
Record SampleData : Type :=
  { num_cycles : Z; circuit_depth : Z; experiment : string }.

Record Sample : Type := { raw_circuit : Circuit; data : SampleData }.

(** Modelled from the spec: [_interleave_op] of the base class is missing
    from the sources; the spec has the builder "insert the interleaving gate
    after every element of the base sequence" (the call passes
    [include_final=True]). *)
Fixpoint _interleave_op (circuit : Circuit) (operation : Operation) : Circuit :=
  match circuit with
  | [] => []
  | op :: rest => op :: operation :: _interleave_op rest operation
  end.

(** A row of the table [raw_data]: the sample's data and the measured
    probabilities of the bitstrings "0" and "1" (NaN where a sample has no
    entry for the bitstring). *)
Record Row : Type :=
  { clifford_depth : Z;
    row_circuit_depth : Z;
    row_experiment : string;
    P0 : float;
    P1 : float }.

End BaseExperiment.

(** ** supermarq.qcvv.irb *)

Module Supermarq.
Import Cirq NumPy SciPy BaseExperiment.

Module RBResults.
Record t : Type :=
  { target : string;
    total_circuits : nat;
    rb_decay_coefficient : float;
    rb_decay_coefficient_std : float;
    average_gate_error : float;
    average_gate_error_std : float }.
End RBResults.

Module IRBResults.
Record t : Type :=
  { target : string;
    total_circuits : nat;
    rb_decay_coefficient : float;
    rb_decay_coefficient_std : float;
    irb_decay_coefficient : float;
    irb_decay_coefficient_std : float;
    average_interleaved_gate_error : float;
    average_interleaved_gate_error_std : float }.
End IRBResults.

Inductive Results : Type :=
| RB (r : RBResults.t)
| IRBr (r : IRBResults.t).

(** The experiment object. *)
Record IRB : Type :=
  { interleaved_gate : option SingleQubitCliffordGate;
    num_qubits : Z;
    targets : list string;
    samples : list Sample;
    raw_data : list Row }.

Definition __init__ (interleaved_gate : option SingleQubitCliffordGate)
    (num_qubits : Z) : result IRB :=
  if negb (num_qubits =? 1) then
    Raise (NotImplementedError
             "IRB experiment is currently only implemented for single qubit use")
  else
    Ok {| interleaved_gate := interleaved_gate;
          num_qubits := 1;
          targets := [];
          samples := [];
          raw_data := [] |}.

Definition _reduce_clifford_seq (gate_seq : list SingleQubitCliffordGate)
  : result SingleQubitCliffordGate :=
  match gate_seq with
  | [] => Raise IndexError
  | cur :: rest => Ok (fold_left merged_with rest cur)
  end.

(** The list [set_A] of [_random_single_qubit_clifford]. *)
Definition set_A : result (list SingleQubitCliffordGate) :=
  let Id := Gate.I in
  let H := Gate.H in
  let S := Gate.Z_sqrt in
  hs ← _reduce_clifford_seq [H; S];
  sh ← _reduce_clifford_seq [S; H];
  hsh ← _reduce_clifford_seq [H; S; H];
  mret [Id; S; H; hs; sh; hsh].

Definition set_B : list SingleQubitCliffordGate :=
  [Gate.I; Gate.X; Gate.Y; Gate.Z].

Definition _random_single_qubit_clifford (s : rng)
  : result (SingleQubitCliffordGate * rng) :=
  A ← set_A;
  '(a, s1) ← choice A s;
  '(b, s2) ← choice set_B s1;
  g ← _reduce_clifford_seq [a; b];
  mret (g, s2).

Definition _invert_clifford_circuit (circuit : Circuit) : result Circuit :=
  let clifford_gates := map gate (all_operations circuit) in
  inv_list ← inverse clifford_gates;
  inv_element ← _reduce_clifford_seq inv_list;
  mret (circuit_add circuit (GateOp inv_element)).

(** The same method on circuit objects: [circuit + inv_element(...)] makes a
    new object. *)
Definition _invert_clifford_circuit_obj (circuit : Store.ref)
    (h : gmap nat Circuit) : result (Store.ref * gmap nat Circuit) :=
  c ← Store.contents circuit h;
  let clifford_gates := map gate (all_operations c) in
  inv_list ← inverse clifford_gates;
  inv_element ← _reduce_clifford_seq inv_list;
  Store.__add__ circuit (GateOp inv_element) h.

(** [[self._random_single_qubit_clifford()(...) for _ in range(depth)]] *)
Fixpoint random_operations (n : nat) (s : rng) : result (list Operation * rng) :=
  match n with
  | O => Ok ([], s)
  | S n' =>
      '(g, s1) ← _random_single_qubit_clifford s;
      '(ops, s2) ← random_operations n' s1;
      mret (GateOp g :: ops, s2)
  end.

(** The body of the builder's loop once the base circuit is drawn: the RB
    sample and, with an interleaving gate, the IRB sample. *)
Definition samples_of (self : IRB) (depth : Z) (base_circuit : Circuit)
  : result (list Sample) :=
  rb_circuit ← _invert_clifford_circuit base_circuit;
  let rb_sample :=
    {| raw_circuit := circuit_add rb_circuit MeasureOp;
       data := {| num_cycles := depth;
                  circuit_depth := Z.of_nat (length rb_circuit);
                  experiment := "RB" |} |} in
  match interleaved_gate self with
  | None => mret [rb_sample]
  | Some g =>
      irb_circuit ← _invert_clifford_circuit (_interleave_op base_circuit (GateOp g));
      mret [rb_sample;
            {| raw_circuit := circuit_add irb_circuit MeasureOp;
               data := {| num_cycles := depth;
                          circuit_depth := Z.of_nat (length irb_circuit);
                          experiment := "IRB" |} |}]
  end.

(** [product(range(num_circuits), cycle_depths)] *)
Definition product (num_circuits : Z) (cycle_depths : list Z) : list (nat * Z) :=
  list_prod (seq 0 (range_len num_circuits)) cycle_depths.

Fixpoint build_loop (self : IRB) (todo : list (nat * Z)) (samples : list Sample)
    (s : rng) : result (list Sample * rng) :=
  match todo with
  | [] => Ok (samples, s)
  | (_, depth) :: rest =>
      '(base_circuit, s1) ← random_operations (range_len depth) s;
      new ← samples_of self depth base_circuit;
      build_loop self rest (samples ++ new) s1
  end.

Definition _build_circuits (self : IRB) (num_circuits : Z) (cycle_depths : list Z)
    (s : rng) : result (list Sample * rng) :=
  build_loop self (product num_circuits cycle_depths) [] s.

(** The table after the two derived columns are added. *)
Record ARow : Type :=
  { row : Row; survival_prob : float; log_survival_prob : float }.

Definition add_columns (r : Row) : ARow :=
  let survival := fsub (fmul (Fin 2) (P0 r)) (Fin 1) in
  {| row := r; survival_prob := survival; log_survival_prob := log survival |}.

(** [dropna(axis=0)]: a row goes when any of its columns is NaN. *)
Definition has_nan (a : ARow) : bool :=
  isnan (P0 (row a)) || isnan (P1 (row a))
  || isnan (survival_prob a) || isnan (log_survival_prob a).

Definition dropna (rows : list ARow) : list ARow :=
  List.filter (fun a => negb (has_nan a)) rows.

(** [raw_data] as [analyze_results] leaves it before fitting. *)
Definition prepared (self : IRB) : list ARow :=
  dropna (map add_columns (raw_data self)).

(** [self.raw_data.query("experiment == '...'")] *)
Definition query (name : string) (rows : list ARow) : list ARow :=
  List.filter (fun a => String.eqb (row_experiment (row a)) name) rows.

(** The rows given to the regression of one variant. *)
Definition fitted_rows (self : IRB) (name : string) : list ARow :=
  query name (prepared self).

Definition fit (self : IRB) (name : string) : result LinregressResult :=
  linregress (map (fun a => clifford_depth (row a)) (fitted_rows self name))
             (map (fun a => log (survival_prob a)) (fitted_rows self name)).

Definition join_targets (self : IRB) : string := String.concat "& " (targets self).

(** [analyze_results(plot_results=False)]: the value returned. Plotting is
    not modelled. *)
Definition analyze_results (self : IRB) : result Results :=
  rb_model ← fit self "RB";
  let rb_decay_coefficient := fexp (slope rb_model) in
  let rb_decay_coefficient_std := fmul (stderr rb_model) rb_decay_coefficient in
  let one_minus := fsub (Fin 1) (pow2neg (num_qubits self)) in
  match interleaved_gate self with
  | None =>
      mret (RB
        {| RBResults.target := join_targets self;
           RBResults.total_circuits := length (samples self);
           RBResults.rb_decay_coefficient := rb_decay_coefficient;
           RBResults.rb_decay_coefficient_std := rb_decay_coefficient_std;
           RBResults.average_gate_error :=
             fmul one_minus (fsub (Fin 1) rb_decay_coefficient);
           RBResults.average_gate_error_std :=
             fmul one_minus rb_decay_coefficient_std |})
  | Some _ =>
      irb_model ← fit self "IRB";
      let irb_decay_coefficient := fexp (slope irb_model) in
      let irb_decay_coefficient_std := fmul (stderr irb_model) irb_decay_coefficient in
      let interleaved_gate_error :=
        fmul (fsub (Fin 1) (fdiv irb_decay_coefficient rb_decay_coefficient))
             one_minus in
      let sq x := fmul x x in
      let interleaved_gate_error_std :=
        fsqrt (fadd
          (sq (fdiv irb_decay_coefficient_std (fmul (Fin 2) rb_decay_coefficient)))
          (sq (fdiv (fmul irb_decay_coefficient rb_decay_coefficient_std)
                    (fmul (Fin 2) (sq rb_decay_coefficient))))) in
      mret (IRBr
        {| IRBResults.target := join_targets self;
           IRBResults.total_circuits := length (samples self);
           IRBResults.rb_decay_coefficient := rb_decay_coefficient;
           IRBResults.rb_decay_coefficient_std := rb_decay_coefficient_std;
           IRBResults.irb_decay_coefficient := irb_decay_coefficient;
           IRBResults.irb_decay_coefficient_std := irb_decay_coefficient_std;
           IRBResults.average_interleaved_gate_error := interleaved_gate_error;
           IRBResults.average_interleaved_gate_error_std :=
             interleaved_gate_error_std |})
  end.

End Supermarq.

(** ** cirq_superstaq.qcvv.irb: the older experiment *)

Module CirqSuperstaq.
Import Cirq.

Definition _reduce_clifford_seq (gate_seq : list SingleQubitCliffordGate)
  : result SingleQubitCliffordGate :=
  match gate_seq with
  | [] => Raise IndexError
  | cur :: rest => Ok (fold_left merged_with rest cur)
  end.

(** A gate applied to the qubits of the experiment. *)
Definition on_qubits (g : option SingleQubitCliffordGate) : Operation :=
  match g with
  | Some g => GateOp g
  | None => MeasureOp
  end.

(** Here the gates are collected in a fresh list, the inverse is appended
    to it, and a new circuit object is built from the list. *)
Definition _invert_clifford_circuit (circuit : Store.ref)
    (h : gmap nat Circuit) : result (Store.ref * gmap nat Circuit) :=
  c ← Store.contents circuit h;
  let clifford_gates := map gate (all_operations c) in
  inv_list ← inverse clifford_gates;
  inv_element ← _reduce_clifford_seq inv_list;
  let clifford_gates := clifford_gates ++ [Some inv_element] in
  mret (Store.Circuit_of (map on_qubits clifford_gates) h).

End CirqSuperstaq.

(** ** cirq_superstaq.qcvv.irb: the builder and the analysis *)

Module CirqSuperstaqIRB.
Import Cirq NumPy SciPy BaseExperiment.

Module IRBResults.
Record t : Type :=
  { rb_layer_fidelity : float;
    rb_layer_fidelity_std : float;
    irb_layer_fidelity : float;
    irb_layer_fidelity_std : float;
    average_interleaved_gate_error : float;
    average_interleaved_gate_error_std : float }.
End IRBResults.

(** A sample of this experiment holds the circuit without a measurement. *)
Record Sample : Type := { circuit : Circuit; data : SampleData }.

Record IRB : Type :=
  { interleaved_gate : SingleQubitCliffordGate;
    num_qubits : Z;
    samples : list Sample;
    raw_data : list Row }.

Definition __init__ (interleaved_gate : SingleQubitCliffordGate)
    (num_qubits : Z) : result IRB :=
  if negb (num_qubits =? 1) then
    Raise (NotImplementedError
             "IRB experiment is currently only implemented for single qubit use")
  else
    Ok {| interleaved_gate := interleaved_gate;
          num_qubits := 1;
          samples := [];
          raw_data := [] |}.

Definition _random_single_qubit_clifford (s : rng)
  : result (SingleQubitCliffordGate * rng) :=
  let Id := Gate.I in
  let H := Gate.H in
  let S := Gate.Z_sqrt in
  hs ← CirqSuperstaq._reduce_clifford_seq [H; S];
  sh ← CirqSuperstaq._reduce_clifford_seq [S; H];
  hsh ← CirqSuperstaq._reduce_clifford_seq [H; S; H];
  let set_A := [Id; S; H; hs; sh; hsh] in
  let set_B := [Id; Gate.X; Gate.Y; Gate.Z] in
  '(a, s1) ← choice set_A s;
  '(b, s2) ← choice set_B s1;
  g ← CirqSuperstaq._reduce_clifford_seq [a; b];
  mret (g, s2).

(** [_invert_clifford_circuit] on circuit values: the circuit rebuilt from
    the list of gates with the inverse appended. *)
Definition _invert_clifford_circuit (circuit : Circuit) : result Circuit :=
  let clifford_gates := map gate (all_operations circuit) in
  inv_list ← inverse clifford_gates;
  inv_element ← CirqSuperstaq._reduce_clifford_seq inv_list;
  let clifford_gates := clifford_gates ++ [Some inv_element] in
  mret (map CirqSuperstaq.on_qubits clifford_gates).

Fixpoint random_operations (n : nat) (s : rng) : result (list Operation * rng) :=
  match n with
  | O => Ok ([], s)
  | S n' =>
      '(g, s1) ← _random_single_qubit_clifford s;
      '(ops, s2) ← random_operations n' s1;
      mret (GateOp g :: ops, s2)
  end.

Section Interleaving.

(** [_interleave_gate(circuit, gate, include_final=True)] of the base class,
    which is not at hand: any function. *)
Variable _interleave_gate : Circuit -> SingleQubitCliffordGate -> result Circuit.

(** The body of the loop of [build_circuits] once the base circuit is drawn. *)
Definition samples_of (self : IRB) (depth : Z) (base_circuit : Circuit)
  : result (list Sample) :=
  rb_circuit ← _invert_clifford_circuit base_circuit;
  interleaved ← _interleave_gate base_circuit (interleaved_gate self);
  irb_circuit ← _invert_clifford_circuit interleaved;
  mret [{| circuit := rb_circuit;
           data := {| num_cycles := depth;
                      circuit_depth := Z.of_nat (length rb_circuit);
                      experiment := "RB" |} |};
        {| circuit := irb_circuit;
           data := {| num_cycles := depth;
                      circuit_depth := Z.of_nat (length irb_circuit);
                      experiment := "IRB" |} |}].

Fixpoint build_loop (self : IRB) (todo : list (nat * Z)) (samples : list Sample)
    (s : rng) : result (list Sample * rng) :=
  match todo with
  | [] => Ok (samples, s)
  | (_, depth) :: rest =>
      '(base_circuit, s1) ← random_operations (range_len depth) s;
      new ← samples_of self depth base_circuit;
      build_loop self rest (samples ++ new) s1
  end.

Definition build_circuits (self : IRB) (num_circuits : Z) (layers : list Z)
    (s : rng) : result (list Sample * rng) :=
  build_loop self (Supermarq.product num_circuits layers) [] s.

End Interleaving.

(** [raw_data] with the columns [fidelity] and [log_fidelity]; no row is
    dropped here. *)
Definition with_fidelity (self : IRB) : list Supermarq.ARow :=
  map Supermarq.add_columns (raw_data self).

Definition fit (self : IRB) (name : string) : result LinregressResult :=
  let rows := Supermarq.query name (with_fidelity self) in
  linregress (map (fun a => clifford_depth (Supermarq.row a)) rows)
             (map (fun a => log (Supermarq.survival_prob a)) rows).

(** [analyse_results(plot_results=False)]: the value returned. *)
Definition analyse_results (self : IRB) : result IRBResults.t :=
  rb_model ← fit self "RB";
  irb_model ← fit self "IRB";
  let rb_layer_fidelity := fexp (slope rb_model) in
  let rb_layer_fidelity_std := fmul (stderr rb_model) rb_layer_fidelity in
  let irb_layer_fidelity := fexp (slope irb_model) in
  let irb_layer_fidelity_std := fmul (stderr irb_model) irb_layer_fidelity in
  let interleaved_gate_error :=
    fdiv (fsub (Fin 1) (fdiv irb_layer_fidelity rb_layer_fidelity)) (Fin 2) in
  let sq x := fmul x x in
  let interleaved_gate_error_std :=
    fmul interleaved_gate_error
         (fsqrt (fadd (sq (fdiv rb_layer_fidelity_std rb_layer_fidelity))
                      (sq (fdiv irb_layer_fidelity_std irb_layer_fidelity)))) in
  mret {| IRBResults.rb_layer_fidelity := rb_layer_fidelity;
          IRBResults.rb_layer_fidelity_std := rb_layer_fidelity_std;
          IRBResults.irb_layer_fidelity := irb_layer_fidelity;
          IRBResults.irb_layer_fidelity_std := irb_layer_fidelity_std;
          IRBResults.average_interleaved_gate_error := interleaved_gate_error;
          IRBResults.average_interleaved_gate_error_std :=
            interleaved_gate_error_std |}.

End CirqSuperstaqIRB.

(** ** supermarq.benchmarks.vqe_hwea_clifford: the Hamiltonian and the energy *)

Module VQE_HWEA_Clifford.
Import Py NumPy.

(** [range(stop)] and [range(start, stop)] *)
Definition range (stop : Z) : list Z := map Z.of_nat (seq 0 (range_len stop)).

Definition range_from (start stop : Z) : list Z :=
  map (fun k => start + Z.of_nat k) (seq 0 (range_len (stop - start))).

(** [s[i]] on a string: a negative index counts from the end, and an index
    out of range raises [IndexError]. *)
Definition getitem (s : string) (i : Z) : result string :=
  let n := Z.of_nat (String.length s) in
  let j := if i <? 0 then i + n else i in
  if (0 <=? j) && (j <? n) then
    match String.get (Z.to_nat j) s with
    | Some c => Ok (String c EmptyString)
    | None => Raise IndexError
    end
  else Raise IndexError.

(** [s[lo:hi]]: both bounds are clamped to the string. *)
Definition slice (s : string) (lo hi : Z) : string :=
  let n := Z.of_nat (String.length s) in
  let clamp i := if i <? 0 then Z.max (i + n) 0 else Z.min i n in
  String.substring (Z.to_nat (clamp lo)) (Z.to_nat (clamp hi - clamp lo)) s.

(** A dict from bitstrings to probabilities, in insertion order; the keys of
    a dict are distinct. *)
Definition Dict : Type := list (string * float).

Definition keys (d : Dict) : list string := map fst d.

Definition get (d : Dict) (key : string) (default : float) : float :=
  match List.find (fun kv => String.eqb (fst kv) key) d with
  | Some kv => snd kv
  | None => default
  end.

(** A term of the Hamiltonian: the Pauli type, the qubit index or pair of
    indices, the weight. *)
Definition Term : Type := string * (Z + Z * Z) * Z.

Definition _gen_tfim_hamiltonian (num_qubits : Z) : list Term :=
  let hamiltonian := [] in
  let hamiltonian :=
    fold_left (fun h i => h ++ [("X"%string, inl i, 1)]) (range num_qubits) hamiltonian in
  let hamiltonian :=
    fold_left (fun h i => h ++ [("ZZ"%string, inr (i, i + 1), 1)])
              (range (num_qubits - 1)) hamiltonian in
  hamiltonian ++ [("ZZ"%string, inr (num_qubits - 1, 0), 1)].

Definition _parity_ones (bitstr : string) : Z :=
  let one_count :=
    fold_left (fun one_count i => if Ascii.eqb i "1" then one_count + 1 else one_count)
              (list_ascii_of_string bitstr) 0 in
  one_count mod 2.

Definition _calc (bit_list : list string) (bitstr : string) (probs : Dict) : float :=
  fold_left
    (fun energy item =>
       if _parity_ones item =? 0 then fadd energy (get probs bitstr (Fin 0))
       else fsub energy (get probs bitstr (Fin 0)))
    bit_list (Fin 0).

(** A list comprehension whose element may raise. *)
Fixpoint comprehension {A B : Type} (f : A -> result B) (l : list A)
  : result (list B) :=
  match l with
  | [] => Ok []
  | a :: rest =>
      b ← f a;
      bs ← comprehension f rest;
      mret (b :: bs)
  end.

(** A loop that updates one variable and may raise. *)
Fixpoint for_each {A S : Type} (body : S -> A -> result S) (l : list A) (s : S)
  : result S :=
  match l with
  | [] => Ok s
  | a :: rest =>
      s' ← body s a;
      for_each body rest s'
  end.

(** The body of the loop over the keys of [probs_x]. *)
Definition x_term (probs_x : Dict) (avg_energy : float) (bitstr : string)
  : result float :=
  bit_list_x ← comprehension (getitem bitstr) (range (Z.of_nat (String.length bitstr)));
  mret (fadd avg_energy (_calc bit_list_x bitstr probs_x)).

(** The body of the loop over the keys of [probs_z]. *)
Definition z_term (probs_z : Dict) (avg_energy : float) (bitstr : string)
  : result float :=
  let bit_list_z :=
    map (fun i => slice bitstr (i - 1) (i + 1))
        (range_from 1 (Z.of_nat (String.length bitstr))) in
  first ← getitem bitstr 0;
  last ← getitem bitstr (- (1));
  let bit_list_z := bit_list_z ++ [String.append first last] in
  mret (fadd avg_energy (_calc bit_list_z bitstr probs_z)).

Definition _get_expectation_value_from_probs (probs_z probs_x : Dict) : result float :=
  let avg_energy := Fin 0 in
  avg_energy ← for_each (x_term probs_x) (keys probs_x) avg_energy;
  avg_energy ← for_each (z_term probs_z) (keys probs_z) avg_energy;
  mret avg_energy.

End VQE_HWEA_Clifford.

(** * The vocabulary of the statements

    What the statements below speak of: products of gate sequences, the
    outcomes of the random draws, the shape of samples and of the store,
    the rows that reach the regression, and the examples they are tried
    on. *)

Section Vocabulary.
Import Cirq BaseExperiment Supermarq.

(** The group product of a sequence of gates applied in order; the empty
    product is the identity. *)
Definition product_of (l : list SingleQubitCliffordGate) : SingleQubitCliffordGate :=
  fold_left merged_with l Gate.I.

(** The left-to-right fold of a non-empty sequence, as the specification
    words it: start from the first element and merge each following element
    into the result, in order. No gate is the fold of the empty sequence. *)
Inductive left_to_right
  : list SingleQubitCliffordGate -> SingleQubitCliffordGate -> Prop :=
| ltr_first g : left_to_right [g] g
| ltr_next l g h : left_to_right l h -> left_to_right (l ++ [g]) (merged_with h g).

(** The six elements of [set_A], in order: I, S, H, HS, SH, HSH. *)
Definition coset_representatives : list SingleQubitCliffordGate :=
  let H := Gate.H in
  let S := Gate.Z_sqrt in
  [Gate.I; S; H; merged_with H S; merged_with S H; merged_with (merged_with H S) H].

(** The gate composed of element [i] of [set_A] and element [j] of [set_B]. *)
Definition composition (ij : nat * nat) : option SingleQubitCliffordGate :=
  a ← coset_representatives !! ij.1; b ← set_B !! ij.2; Some (merged_with a b).

(** All (coset, Pauli) index pairs: the equally likely outcomes of the two
    independent uniform choices. *)
Definition index_pairs : list (nat * nat) := list_prod (seq 0 6) (seq 0 4).

(** The number of index pairs that compose to [g]. *)
Definition ways (g : SingleQubitCliffordGate) : nat :=
  length (List.filter (fun ij => bool_decide (composition ij = Some g)) index_pairs).

(** The probability of [g]: its share of the equally likely index pairs. *)
Definition probability (g : SingleQubitCliffordGate) : R :=
  (INR (ways g) / INR (length index_pairs))%R.

(** The source moved on by [k] draws. *)
Definition advance (k : nat) (s : rng) : rng :=
  {| draws := draws s; pos := (k + pos s)%nat |}.

(** A source whose next two draws are [i] and [j]. *)
Definition source_of (i j : nat) : rng :=
  {| draws := fun k => match k with O => i | _ => j end; pos := 0 |}.

(** A circuit of Clifford gates only. *)
Definition clifford_circuit (gates : list SingleQubitCliffordGate) : Circuit :=
  map GateOp gates.

(** The base sequence with the interleaving gate after each element. *)
Definition interleaved (base : list SingleQubitCliffordGate)
    (c : SingleQubitCliffordGate) : list SingleQubitCliffordGate :=
  flat_map (fun g => [g; c]) base.

(** An experiment that interleaves Z, with nothing sampled yet. *)
Definition irb_Z : IRB :=
  {| interleaved_gate := Some Gate.Z; num_qubits := 1;
     targets := []; samples := []; raw_data := [] |}.

(** The same without an interleaving gate. *)
Definition rb_only : IRB :=
  {| interleaved_gate := None; num_qubits := 1;
     targets := []; samples := []; raw_data := [] |}.

(** The depth and the variant label of a sample. *)
Definition tag (x : Sample) : Z * string :=
  (num_cycles (data x), experiment (data x)).

(** The variants built at one depth: RB, then IRB when a gate is
    interleaved. *)
Definition variants (self : IRB) (depth : Z) : list (Z * string) :=
  (depth, "RB"%string)
  :: match interleaved_gate self with
     | Some _ => [(depth, "IRB"%string)]
     | None => []
     end.

(** What the builder records about a circuit: it ends with the measurement,
    and before it has as many operations as [circuit_depth] says, that is
    [num_cycles + 1] for RB and [2 * num_cycles + 1] for IRB. *)
Definition well_formed (x : Sample) : Prop :=
  last (raw_circuit x) = Some MeasureOp
  /\ Z.of_nat (length (raw_circuit x)) = circuit_depth (data x) + 1
  /\ circuit_depth (data x)
     = (if String.eqb (experiment (data x)) "RB" then 1 else 2) * num_cycles (data x) + 1.

(** The outcome of a call that leaves the circuit object [circuit], of
    contents [c], as it was and returns a new object holding [c] followed by
    [op]: the returned reference was not in the store before, and every
    other object keeps its contents. *)
Definition returns_extended_copy (h : gmap nat Circuit) (circuit : Store.ref)
    (c : Circuit) (op : Operation)
    (out : result (Store.ref * gmap nat Circuit)) : Prop :=
  exists r' h',
    out = Ok (r', h')
    /\ r' <> circuit
    /\ h !! r' = None
    /\ h' !! r' = Some (c ++ [op])
    /\ h' !! circuit = Some c
    /\ forall k, k <> r' -> h' !! k = h !! k.

(** A store with one circuit object, at identity 0, holding H then S. *)
Definition one_circuit : gmap nat Circuit :=
  {[ 0%nat := clifford_circuit [Gate.H; Gate.Z_sqrt] ]}.

End Vocabulary.

Section NumericVocabulary.
Import NumPy SciPy BaseExperiment Supermarq.
Local Open Scope R_scope.

(** A value that is zero or NaN: what the deviations of a single
    observation from its own mean come to. *)
Definition zero_or_nan (x : float) : Prop :=
  x = NaN \/ exists z, x = Fin z /\ z = 0.

(** The sum, the mean and the covariance of real observations. *)
Definition rsum (l : list R) : R := fold_right Rplus 0 l.

Definition rmean (l : list R) : R := rsum l / INR (length l).

Definition rcov (u v : list R) : R :=
  rmean (zip_with Rmult (map (fun a => a - rmean u) u) (map (fun b => b - rmean v) v)).

(** The logarithm of the survival probability of a row, as a real number
    (0 where it is not one). *)
Definition ln_survival (a : ARow) : R :=
  match survival_prob a with
  | Fin p => ln p
  | _ => 0
  end.

(** A row whose survival probability is a positive number. *)
Definition positive_survival (a : ARow) : Prop :=
  exists p, survival_prob a = Fin p /\ 0 < p.

(** The survival probability of a row: [2 * P(0) - 1]. *)
Definition survival (r : Row) : float := fsub (fmul (Fin 2) (P0 r)) (Fin 1).

(** The number of rows left for the regression of a variant. *)
Definition usable (self : IRB) (name : string) : nat :=
  length (fitted_rows self name).

(** A row of the RB variant at depth [d] with the given probabilities. *)
Definition rb_row (d : Z) (p0 p1 : R) : Row :=
  {| clifford_depth := d; row_circuit_depth := d + 1;
     row_experiment := "RB"; P0 := Fin p0; P1 := Fin p1 |}.

(** A row of the IRB variant. *)
Definition irb_row (d : Z) (p0 p1 : R) : Row :=
  {| clifford_depth := d; row_circuit_depth := 2 * d + 1;
     row_experiment := "IRB"; P0 := Fin p0; P1 := Fin p1 |}.

(** An experiment without interleaving whose table holds the given rows. *)
Definition rb_table (rows : list Row) : IRB :=
  {| interleaved_gate := None; num_qubits := 1;
     targets := ["ss_unconstrained_simulator"%string]; samples := [];
     raw_data := rows |}.

(** The same with Z interleaved. *)
Definition irb_table (rows : list Row) : IRB :=
  {| interleaved_gate := Some Cirq.Gate.Z; num_qubits := 1;
     targets := ["ss_unconstrained_simulator"%string]; samples := [];
     raw_data := rows |}.

(** The variants that [analyze_results] fits: RB always, IRB when a gate is
    interleaved. *)
Definition required (self : IRB) (name : string) : Prop :=
  name = "RB"%string \/ (name = "IRB"%string /\ interleaved_gate self <> None).

(** The decay coefficient that the results report for a variant. *)
Definition decay_coefficient (res : Results) (name : string) : option float :=
  match res with
  | RB r =>
      if String.eqb name "RB" then Some (RBResults.rb_decay_coefficient r) else None
  | IRBr r =>
      if String.eqb name "RB" then Some (IRBResults.rb_decay_coefficient r)
      else if String.eqb name "IRB" then Some (IRBResults.irb_decay_coefficient r)
      else None
  end.

(** A variant that can be fitted: two or more usable rows, of positive
    survival probability and not all at one depth. *)
Definition well_conditioned (self : IRB) (name : string) : Prop :=
  (2 <= usable self name)%nat
  /\ all_identical (map (fun a => clifford_depth (row a)) (fitted_rows self name)) = false
  /\ Forall positive_survival (fitted_rows self name).

(** A table with three RB rows and three IRB rows, at the depths 1, 2, 3. *)
Definition six_rows : list Row :=
  [rb_row 1 1 0; irb_row 1 (7 / 8) (1 / 8);
   rb_row 2 (7 / 8) (1 / 8); irb_row 2 (3 / 4) (1 / 4);
   rb_row 3 (3 / 4) (1 / 4); irb_row 3 (5 / 8) (3 / 8)].

(** The RB rows of that table. *)
Definition three_rows : list Row :=
  [rb_row 1 1 0; rb_row 2 (7 / 8) (1 / 8); rb_row 3 (3 / 4) (1 / 4)].

(** A row measured above one half, with a probability recorded for "1". *)
Definition above_half (r : Row) : Prop :=
  exists p, P0 r = Fin p /\ 1 / 2 < p /\ isnan (P1 r) = false.

End NumericVocabulary.

Section BuilderVocabulary.
Import Cirq BaseExperiment Supermarq.

(** A sample whose circuit is closed: Clifford gates that multiply to the
    identity, as many as [circuit_depth] records, then the measurement. *)
Definition closed_sample (x : Sample) : Prop :=
  exists gates,
    raw_circuit x = clifford_circuit gates ++ [MeasureOp]
    /\ product_of gates = Gate.I
    /\ Z.of_nat (length gates) = circuit_depth (data x).

(** The number of Clifford gates drawn for a list of (trial, depth) pairs. *)
Definition gates_drawn (todo : list (nat * Z)) : nat :=
  fold_right (fun td n => (range_len td.2 + n)%nat) 0%nat todo.

(** The index pair that composes to a gate: the first of [index_pairs]. *)
Definition index_pair_of (g : SingleQubitCliffordGate) : nat * nat :=
  match List.filter (fun ij => bool_decide (composition ij = Some g)) index_pairs with
  | ij :: _ => ij
  | [] => (0%nat, 0%nat)
  end.

(** The draws that make the generator return the given gates in order. *)
Definition draws_for (gates : list SingleQubitCliffordGate) : list nat :=
  flat_map (fun g => [(index_pair_of g).1; (index_pair_of g).2]) gates.

(** A source that starts with the given draws. *)
Definition source_from (l : list nat) : rng :=
  {| draws := fun k => nth k l 0%nat; pos := 0 |}.

End BuilderVocabulary.

Section AnalysisVocabulary.
Import NumPy SciPy BaseExperiment Supermarq.
Local Open Scope R_scope.

(** A finite value: neither an infinity nor NaN. *)
Definition finite (x : float) : Prop :=
  match x with Fin _ => True | _ => False end.

(** [r] absorbs [e] when [e - r] is NaN: the case of an infinity and a sum
    or mean it went into. *)
Definition absorbs (r e : float) : Prop := fsub e r = NaN.

(** The gate error that the results report. *)
Definition gate_error (res : Results) : float :=
  match res with
  | RB r => RBResults.average_gate_error r
  | IRBr r => IRBResults.average_interleaved_gate_error r
  end.

End AnalysisVocabulary.

Section ComparisonVocabulary.
Import NumPy SciPy BaseExperiment Supermarq.
Local Open Scope R_scope.

(** The layer fidelity that the cirq-superstaq experiment reports for a
    variant. *)
Definition layer_fidelity (res : CirqSuperstaqIRB.IRBResults.t) (name : string) : option float :=
  if String.eqb name "RB" then Some (CirqSuperstaqIRB.IRBResults.rb_layer_fidelity res)
  else if String.eqb name "IRB" then Some (CirqSuperstaqIRB.IRBResults.irb_layer_fidelity res)
  else None.

(** The cirq-superstaq experiment on the table of [self], interleaving [c]. *)
Definition as_cirq_superstaq (self : IRB) (c : Cirq.SingleQubitCliffordGate) : CirqSuperstaqIRB.IRB :=
  {| CirqSuperstaqIRB.interleaved_gate := c;
     CirqSuperstaqIRB.num_qubits := num_qubits self;
     CirqSuperstaqIRB.samples := [];
     CirqSuperstaqIRB.raw_data := raw_data self |}.

(** A constructed experiment after a run: the base class has filled in the
    targets, the samples and the table. *)
Definition after_run (self : IRB) (targets : list string) (samples : list Sample)
    (rows : list Row) : IRB :=
  {| interleaved_gate := interleaved_gate self;
     num_qubits := num_qubits self;
     targets := targets;
     samples := samples;
     raw_data := rows |}.

(** A table with a row measured at exactly one half. *)
Definition half_rows : list Row := [rb_row 1 1 0; rb_row 2 (1 / 2) (1 / 2)].

(** A table with a row measured below one half. *)
Definition low_rows : list Row :=
  [rb_row 1 1 0; irb_row 1 1 0; rb_row 2 (1 / 4) (3 / 4); irb_row 2 (3 / 4) (1 / 4)].

End ComparisonVocabulary.

Section CirqSuperstaqVocabulary.
Import Cirq BaseExperiment Supermarq.

(** The sample of the cirq-superstaq experiment that corresponds to a sample
    of the supermarq one: the same circuit without the closing measurement. *)
Definition unmeasured (x : Sample) : CirqSuperstaqIRB.Sample :=
  {| CirqSuperstaqIRB.circuit := removelast (raw_circuit x);
     CirqSuperstaqIRB.data := data x |}.

(** The depth and the variant label of a sample of the cirq-superstaq
    experiment. *)
Definition css_tag (x : CirqSuperstaqIRB.Sample) : Z * string :=
  (num_cycles (CirqSuperstaqIRB.data x), experiment (CirqSuperstaqIRB.data x)).

(** [_interleave_gate] as the [_interleave_op] of the supermarq experiment. *)
Definition interleave_as_op (circuit : Circuit) (g : SingleQubitCliffordGate)
  : result Circuit :=
  Ok (_interleave_op circuit (GateOp g)).

End CirqSuperstaqVocabulary.

Section AgainVocabulary.
Import NumPy SciPy BaseExperiment Supermarq.

(** The experiment as a call of [analyze_results] leaves it: the table has
    lost the rows that [dropna] removed, in place. *)
Definition after_analysis (self : IRB) : IRB :=
  {| interleaved_gate := interleaved_gate self;
     num_qubits := num_qubits self;
     targets := targets self;
     samples := samples self;
     raw_data := map row (prepared self) |}.

End AgainVocabulary.

Section EnergyVocabulary.
Import NumPy VQE_HWEA_Clifford.
Local Open Scope R_scope.

(** The number of items of even and of odd parity in a list of bitstrings. *)
Definition evens (bit_list : list string) : nat :=
  length (List.filter (fun item => _parity_ones item =? 0)%Z bit_list).

Definition odds (bit_list : list string) : nat :=
  length (List.filter (fun item => negb (_parity_ones item =? 0)%Z) bit_list).

(** A probability distribution over the bitstrings of [n] characters, as a
    dict: distinct keys of that length, finite probabilities that are not
    negative and sum to 1. *)
Definition distribution (n : nat) (probs : Dict) : Prop :=
  NoDup (keys probs)
  /\ Forall (fun key => String.length key = n) (keys probs)
  /\ exists ps, map snd probs = map Fin ps /\ Forall (fun p => 0 <= p) ps /\ rsum ps = 1.

(** The dict that gives two bitstrings one half each. *)
Definition two_outcomes (a b : string) : Dict := [(a, Fin (1 / 2)); (b, Fin (1 / 2))].

End EnergyVocabulary.

Section IsingVocabulary.
Import NumPy VQE_HWEA_Clifford.
Local Open Scope R_scope.

(** Whether the character at a position of a bitstring is "1". *)
Definition bit (s : string) (i : nat) : bool :=
  match String.get i s with
  | Some c => Ascii.eqb c "1"
  | None => false
  end.

(** The eigenvalue of a Pauli term on an outcome: -1 when odd, +1 when
    even. *)
Definition eigenvalue (odd : bool) : R := if odd then -1 else 1.

(** The value of [sum_i X_i] on an outcome of the X-basis circuit. *)
Definition x_energy (s : string) : R :=
  rsum (map (fun i => eigenvalue (bit s i)) (seq 0 (String.length s))).

(** The value of [sum_i Z_i Z_(i+1)] on an outcome of the Z-basis circuit,
    the last qubit being coupled to the first. *)
Definition zz_energy (s : string) : R :=
  rsum (map (fun i => eigenvalue (xorb (bit s i) (bit s ((i + 1) mod String.length s))))
            (seq 0 (String.length s))).

(** A finite probability as a real number. *)
Definition probability_of (x : float) : R :=
  match x with Fin p => p | _ => 0 end.

(** The mean of a function of the outcome under a dict of probabilities. *)
Definition expected (f : string -> R) (probs : Dict) : R :=
  rsum (map (fun kv => f (fst kv) * probability_of (snd kv)) probs).

(** A dict of finite probabilities: distinct keys, finite values. *)
Definition finite_dict (probs : Dict) : Prop :=
  NoDup (keys probs) /\ Forall (fun x => finite x) (map snd probs).

End IsingVocabulary.

(** * Properties *)

(** ** The Clifford group *)

Section CliffordGroup.
Import Cirq.

(** A closed statement about all gates, decided by enumeration. *)
Local Ltac by_enumeration := apply (bool_decide_unpack _); vm_compute; exact Logic.I.

Lemma gate_count : card SingleQubitCliffordGate = 24%nat.
Proof. vm_compute. reflexivity. Qed.

(** [merged_with] never leaves the valid maps: its result is the merged map. *)
Lemma merged_with_xz (a b : SingleQubitCliffordGate) :
  xz_of (merged_with a b) = merged_xz (xz_of a) (xz_of b).
Proof. revert a b. by_enumeration. Qed.

Lemma inverse_gate_xz (g : SingleQubitCliffordGate) :
  xz_of (inverse_gate g) = inverse_xz (xz_of g).
Proof. revert g. by_enumeration. Qed.

Lemma merged_with_assoc (a b c : SingleQubitCliffordGate) :
  merged_with (merged_with a b) c = merged_with a (merged_with b c).
Proof. revert a b c. by_enumeration. Qed.

Lemma merged_with_I_l (g : SingleQubitCliffordGate) : merged_with Gate.I g = g.
Proof. revert g. by_enumeration. Qed.

Lemma merged_with_I_r (g : SingleQubitCliffordGate) : merged_with g Gate.I = g.
Proof. revert g. by_enumeration. Qed.

Lemma merged_with_inverse_r (g : SingleQubitCliffordGate) :
  merged_with g (inverse_gate g) = Gate.I.
Proof. revert g. by_enumeration. Qed.

Lemma merged_with_inverse_l (g : SingleQubitCliffordGate) :
  merged_with (inverse_gate g) g = Gate.I.
Proof. revert g. by_enumeration. Qed.

(** The inverse is the only gate that closes a gate to the identity. *)
Lemma inverse_gate_unique (g h : SingleQubitCliffordGate) :
  merged_with g h = Gate.I -> h = inverse_gate g.
Proof.
  intros E.
  rewrite <- (merged_with_I_l h), <- (merged_with_inverse_l g).
  rewrite merged_with_assoc, E. apply merged_with_I_r.
Qed.

Lemma inverse_gate_merged (a b : SingleQubitCliffordGate) :
  inverse_gate (merged_with a b) = merged_with (inverse_gate b) (inverse_gate a).
Proof.
  symmetry. apply inverse_gate_unique.
  rewrite merged_with_assoc, <- (merged_with_assoc b).
  rewrite merged_with_inverse_r, merged_with_I_l. apply merged_with_inverse_r.
Qed.

End CliffordGroup.

(** ** Sequences of gates *)

Section Sequences.
Import Cirq.

Lemma fold_left_merged (l : list SingleQubitCliffordGate) (g : SingleQubitCliffordGate) :
  fold_left merged_with l g = merged_with g (product_of l).
Proof.
  unfold product_of. revert g.
  induction l as [|x l IH]; intros g; simpl.
  - symmetry. apply merged_with_I_r.
  - rewrite (IH (merged_with g x)), (IH (merged_with Gate.I x)).
    rewrite merged_with_I_l. apply merged_with_assoc.
Qed.

Lemma product_of_cons g l : product_of (g :: l) = merged_with g (product_of l).
Proof.
  unfold product_of at 1. simpl. rewrite merged_with_I_l. apply fold_left_merged.
Qed.

Lemma product_of_app l1 l2 :
  product_of (l1 ++ l2) = merged_with (product_of l1) (product_of l2).
Proof.
  unfold product_of at 1. rewrite fold_left_app. apply fold_left_merged.
Qed.

Lemma product_of_singleton g : product_of [g] = g.
Proof. unfold product_of. simpl. apply merged_with_I_l. Qed.

(** The inverses in reversed order multiply to the inverse of the product. *)
Lemma product_of_inverses l :
  product_of (rev (map inverse_gate l)) = inverse_gate (product_of l).
Proof.
  induction l as [|g l IH]; simpl.
  - apply (bool_decide_unpack _). vm_compute. exact Logic.I.
  - rewrite product_of_app, IH, product_of_singleton, product_of_cons.
    symmetry. apply inverse_gate_merged.
Qed.

Lemma left_to_right_fold g rest :
  left_to_right (g :: rest) (fold_left merged_with rest g).
Proof.
  induction rest as [|x rest IH] using rev_ind; simpl.
  - constructor.
  - rewrite fold_left_app. simpl.
    change (g :: rest ++ [x]) with ((g :: rest) ++ [x]).
    now constructor.
Qed.

Lemma left_to_right_inv l h :
  left_to_right l h ->
  exists g rest, l = g :: rest /\ h = fold_left merged_with rest g.
Proof.
  induction 1 as [g | l g h _ (g0 & rest & -> & ->)].
  - exists g, []. split; reflexivity.
  - exists g0, (rest ++ [g]). split; [reflexivity|].
    rewrite fold_left_app. reflexivity.
Qed.

Lemma left_to_right_product l h : left_to_right l h -> h = product_of l.
Proof.
  intros (g & rest & -> & ->)%left_to_right_inv.
  rewrite product_of_cons. apply fold_left_merged.
Qed.

Lemma reduce_agree l :
  CirqSuperstaq._reduce_clifford_seq l = Supermarq._reduce_clifford_seq l.
Proof. reflexivity. Qed.

Lemma reduce_cons g rest :
  Supermarq._reduce_clifford_seq (g :: rest) = Ok (product_of (g :: rest)).
Proof.
  simpl. f_equal. rewrite product_of_cons. apply fold_left_merged.
Qed.

Lemma reduce_Ok_inv l h :
  Supermarq._reduce_clifford_seq l = Ok h -> left_to_right l h.
Proof.
  destruct l as [|g rest]; simpl; intros E; [discriminate|].
  injection E as <-. apply left_to_right_fold.
Qed.

(** C9. Sequence reduction returns, for a non-empty list of Clifford gates,
    the left-to-right fold of the list under composition (the first element
    merged with each following element in order), and only that; on the
    empty list it raises [IndexError]. Both experiments define it alike. *)
Theorem reduce_clifford_seq_folds :
  (forall g rest,
      exists h,
        Supermarq._reduce_clifford_seq (g :: rest) = Ok h
        /\ CirqSuperstaq._reduce_clifford_seq (g :: rest) = Ok h
        /\ left_to_right (g :: rest) h
        /\ h = product_of (g :: rest))
  /\ (forall l h,
        Supermarq._reduce_clifford_seq l = Ok h <-> left_to_right l h)
  /\ (forall l h,
        CirqSuperstaq._reduce_clifford_seq l = Ok h <-> left_to_right l h)
  /\ Supermarq._reduce_clifford_seq [] = Raise IndexError
  /\ CirqSuperstaq._reduce_clifford_seq [] = Raise IndexError.
Proof.
  assert (both : forall l h,
             Supermarq._reduce_clifford_seq l = Ok h <-> left_to_right l h).
  { intros l h. split; [apply reduce_Ok_inv|].
    intros (g & rest & -> & ->)%left_to_right_inv. reflexivity. }
  split; [|split; [exact both|split; [|split; reflexivity]]].
  - intros g rest. exists (fold_left merged_with rest g).
    split; [reflexivity|]. split; [reflexivity|].
    split; [apply left_to_right_fold|].
    apply left_to_right_product, left_to_right_fold.
  - intros l h. rewrite reduce_agree. apply both.
Qed.

End Sequences.

(** ** The random Clifford generator *)

Section RandomClifford.
Import Cirq Supermarq.

Local Ltac by_enumeration := apply (bool_decide_unpack _); vm_compute; exact Logic.I.

Lemma result_bind_Ok {A B} (a : A) (k : A -> result B) : (Ok a ≫= k) = k a.
Proof. reflexivity. Qed.

Lemma result_bind_Raise {A B} (e : exn) (k : A -> result B) :
  (Raise e ≫= k) = Raise e.
Proof. reflexivity. Qed.

Lemma set_A_value : set_A = Ok coset_representatives.
Proof. reflexivity. Qed.

Lemma choice_nth {A} (l : list A) (x : A) (s : rng) :
  l <> [] ->
  choice l s = Ok (nth (draws s (pos s) mod length l) l x, advance 1 s).
Proof.
  intros Hl. unfold choice, randbelow.
  destruct l as [|a l']; [contradiction|].
  set (l := a :: l') in *.
  assert (Hlt : (draws s (pos s) mod length l < length l)%nat).
  { apply Nat.mod_upper_bound. discriminate. }
  destruct (nth_error l (draws s (pos s) mod length l)) as [y|] eqn:E.
  - rewrite (nth_error_nth _ _ x E). reflexivity.
  - apply nth_error_None in E. lia.
Qed.

(** What one call draws: element [d0 mod 6] of [set_A], then element
    [d1 mod 4] of [set_B], merged in that order. *)
Lemma random_clifford_draws (s : rng) :
  let i := (draws s (pos s) mod 6)%nat in
  let j := (draws s (S (pos s)) mod 4)%nat in
  exists g,
    composition (i, j) = Some g
    /\ _random_single_qubit_clifford s = Ok (g, advance 2 s).
Proof.
  intros i j.
  assert (Hi : (i < 6)%nat) by (apply Nat.mod_upper_bound; discriminate).
  assert (Hj : (j < 4)%nat) by (apply Nat.mod_upper_bound; discriminate).
  unfold _random_single_qubit_clifford.
  rewrite set_A_value, result_bind_Ok.
  rewrite (choice_nth coset_representatives Gate.I) by discriminate.
  rewrite result_bind_Ok. cbv beta iota.
  rewrite (choice_nth set_B Gate.I) by discriminate.
  rewrite result_bind_Ok. cbv beta iota.
  change (length coset_representatives) with 6%nat.
  change (length set_B) with 4%nat.
  change (draws (advance 1 s) (pos (advance 1 s))) with (draws s (S (pos s))).
  fold i j.
  exists (merged_with (nth i coset_representatives Gate.I) (nth j set_B Gate.I)).
  split; [|reflexivity].
  unfold composition. simpl.
  destruct i as [|[|[|[|[|[|?]]]]]]; try lia;
    destruct j as [|[|[|[|?]]]]; try lia; reflexivity.
Qed.

Lemma random_clifford_total (s : rng) :
  exists g, _random_single_qubit_clifford s = Ok (g, advance 2 s).
Proof.
  destruct (random_clifford_draws s) as (g & _ & E). eauto.
Qed.

(** C4. The random Clifford generator merges one element of the six-element
    list [set_A] = I, S, H, HS, SH, HSH, chosen by the first draw, with one
    element of the four-element list [set_B] = I, X, Y, Z, chosen by the
    second draw. The 24 compositions are pairwise distinct and are all the
    24 single-qubit Clifford gates: every gate comes from exactly one index
    pair, so under two independent uniform choices every gate has
    probability 1/24. *)
Theorem random_clifford_uniform :
  set_A = Ok coset_representatives
  /\ length coset_representatives = 6%nat
  /\ set_B = [Gate.I; Gate.X; Gate.Y; Gate.Z]
  /\ (forall s : rng,
        exists g,
          composition ((draws s (pos s) mod 6)%nat, (draws s (S (pos s)) mod 4)%nat)
            = Some g
          /\ _random_single_qubit_clifford s = Ok (g, advance 2 s))
  /\ (forall i j, (i < 6)%nat -> (j < 4)%nat ->
        exists g, composition (i, j) = Some g
                  /\ _random_single_qubit_clifford (source_of i j)
                     = Ok (g, advance 2 (source_of i j)))
  /\ NoDup (omap composition index_pairs)
  /\ length (omap composition index_pairs) = 24%nat
  /\ card SingleQubitCliffordGate = 24%nat
  /\ (forall g : SingleQubitCliffordGate, ways g = 1%nat)
  /\ (forall g : SingleQubitCliffordGate,
        probability g = (1 / INR (card SingleQubitCliffordGate))%R).
Proof.
  split; [reflexivity|]. split; [reflexivity|]. split; [reflexivity|].
  split; [exact random_clifford_draws|].
  split.
  { intros i j Hi Hj.
    destruct (random_clifford_draws (source_of i j)) as (g & Hc & E).
    exists g. split; [|exact E].
    cbn [source_of draws pos] in Hc.
    rewrite (Nat.mod_small i), (Nat.mod_small j) in Hc by lia.
    exact Hc. }
  split; [by_enumeration|].
  split; [vm_compute; reflexivity|].
  split; [exact gate_count|].
  assert (one : forall g : SingleQubitCliffordGate, ways g = 1%nat) by by_enumeration.
  split; [exact one|].
  intros g. unfold probability. rewrite one, gate_count.
  change (length index_pairs) with 24%nat. reflexivity.
Qed.

(** The theorem at the draws 3 and 2: HS merged with Y. *)
Lemma random_clifford_uniform_witness :
  exists g,
    composition (3%nat, 2%nat) = Some g
    /\ _random_single_qubit_clifford (source_of 3 2)
       = Ok (g, advance 2 (source_of 3 2)).
Proof.
  destruct random_clifford_uniform as (_ & _ & _ & _ & at_pair & _).
  apply (at_pair 3%nat 2%nat); lia.
Defined.

End RandomClifford.

(** ** Closing a circuit with its inverse *)

Section Inversion.
Import Cirq BaseExperiment Supermarq.

Lemma gates_of_clifford_circuit gates :
  map gate (clifford_circuit gates) = map Some gates.
Proof. unfold clifford_circuit. rewrite map_map. reflexivity. Qed.

Lemma inverse_each_gates gates :
  inverse_each (map Some gates) = Ok (map inverse_gate gates).
Proof.
  induction gates as [|g gates IH]; [reflexivity|].
  cbn [map inverse_each]. rewrite IH. reflexivity.
Qed.

Lemma inverse_gates gates :
  inverse (map gate (clifford_circuit gates)) = Ok (rev (map inverse_gate gates)).
Proof.
  unfold inverse. rewrite gates_of_clifford_circuit, inverse_each_gates. reflexivity.
Qed.

Lemma reduce_nonempty l :
  l <> [] -> _reduce_clifford_seq l = Ok (product_of l).
Proof. destruct l; [contradiction|]. intros _. apply reduce_cons. Qed.

Lemma invert_nonempty g gs :
  _invert_clifford_circuit (clifford_circuit (g :: gs))
  = Ok (clifford_circuit ((g :: gs) ++ [inverse_gate (product_of (g :: gs))])).
Proof.
  unfold _invert_clifford_circuit, all_operations.
  rewrite inverse_gates, result_bind_Ok.
  rewrite reduce_nonempty.
  - rewrite result_bind_Ok, product_of_inverses.
    unfold circuit_add, clifford_circuit. rewrite map_app. reflexivity.
  - simpl. intros E. apply app_eq_nil in E as [_ E]. discriminate.
Qed.

Lemma closing_product l : product_of (l ++ [inverse_gate (product_of l)]) = Gate.I.
Proof.
  rewrite product_of_app, product_of_singleton. apply merged_with_inverse_r.
Qed.

Lemma interleave_op_gates base c :
  _interleave_op (clifford_circuit base) (GateOp c) = clifford_circuit (interleaved base c).
Proof.
  induction base as [|g base IH]; [reflexivity|].
  change (clifford_circuit (g :: base)) with (GateOp g :: clifford_circuit base).
  cbn [_interleave_op]. rewrite IH. reflexivity.
Qed.

Lemma interleaved_length base c : length (interleaved base c) = (2 * length base)%nat.
Proof. induction base as [|g base IH]; simpl; [reflexivity|]. rewrite IH. lia. Qed.

Lemma interleaved_lookup base c k g :
  base !! k = Some g ->
  interleaved base c !! (2 * k)%nat = Some g
  /\ interleaved base c !! (2 * k + 1)%nat = Some c.
Proof.
  revert k. induction base as [|x base IH]; intros k E; [discriminate|].
  destruct k as [|k]; simpl in *.
  - injection E as ->. split; reflexivity.
  - replace (k + S (k + 0))%nat with (S (2 * k)) by lia. simpl.
    replace (k + (k + 0))%nat with (2 * k)%nat in * by lia.
    apply IH, E.
Qed.

Lemma samples_of_nonempty (self : IRB) (depth : Z) g gs :
  let base := g :: gs in
  let rb := base ++ [inverse_gate (product_of base)] in
  samples_of self depth (clifford_circuit base)
  = Ok ({| raw_circuit := clifford_circuit rb ++ [MeasureOp];
           data := {| num_cycles := depth;
                      circuit_depth := Z.of_nat (length base) + 1;
                      experiment := "RB" |} |}
        :: match interleaved_gate self with
           | None => []
           | Some c =>
               let irb := interleaved base c
                          ++ [inverse_gate (product_of (interleaved base c))] in
               [{| raw_circuit := clifford_circuit irb ++ [MeasureOp];
                   data := {| num_cycles := depth;
                              circuit_depth := 2 * Z.of_nat (length base) + 1;
                              experiment := "IRB" |} |}]
           end).
Proof.
  cbv zeta. unfold samples_of.
  rewrite invert_nonempty, result_bind_Ok.
  set (base := g :: gs).
  set (rb := base ++ [inverse_gate (product_of base)]).
  assert (Hrb : Z.of_nat (length (clifford_circuit rb)) = Z.of_nat (length base) + 1).
  { unfold clifford_circuit, rb. rewrite length_map, length_app. simpl. lia. }
  rewrite Hrb.
  destruct (interleaved_gate self) as [c|]; [|reflexivity].
  rewrite interleave_op_gates.
  change (interleaved base c) with (g :: c :: interleaved gs c).
  rewrite invert_nonempty, result_bind_Ok.
  change (g :: c :: interleaved gs c) with (interleaved base c).
  set (irb := interleaved base c ++ [inverse_gate (product_of (interleaved base c))]).
  assert (Hirb : Z.of_nat (length (clifford_circuit irb)) = 2 * Z.of_nat (length base) + 1).
  { unfold clifford_circuit, irb.
    rewrite length_map, length_app, interleaved_length. simpl length. lia. }
  rewrite Hirb. reflexivity.
Qed.

(** C7, for base sequences of length at least one. The plain-variant circuit
    built from a base sequence of L >= 1 Clifford gates holds exactly L + 1
    Clifford operations before the measurement; the last is the group
    inverse of the product of the first L (the only gate that closes them),
    and the product of all L + 1 is the identity. *)
Theorem plain_variant_circuit (self : IRB) (depth : Z)
    (g : SingleQubitCliffordGate) (gs : list SingleQubitCliffordGate) :
  let base := g :: gs in
  let closing := inverse_gate (product_of base) in
  _invert_clifford_circuit (clifford_circuit base)
    = Ok (clifford_circuit (base ++ [closing]))
  /\ length (base ++ [closing]) = S (length base)
  /\ product_of (base ++ [closing]) = Gate.I
  /\ _reduce_clifford_seq (base ++ [closing]) = Ok Gate.I
  /\ (forall h, product_of (base ++ [h]) = Gate.I -> h = closing)
  /\ exists rest,
       samples_of self depth (clifford_circuit base)
       = Ok ({| raw_circuit := clifford_circuit (base ++ [closing]) ++ [MeasureOp];
                data := {| num_cycles := depth;
                           circuit_depth := Z.of_nat (length base) + 1;
                           experiment := "RB" |} |} :: rest).
Proof.
  intros base closing.
  split; [apply invert_nonempty|].
  split; [rewrite length_app; simpl; lia|].
  split; [apply closing_product|].
  split.
  { rewrite reduce_nonempty by (intros E; destruct base; discriminate).
    f_equal. apply closing_product. }
  split.
  { intros h E. rewrite product_of_app, product_of_singleton in E.
    apply inverse_gate_unique, E. }
  eexists. apply (samples_of_nonempty self depth g gs).
Qed.

(** The claim at length zero: there is no plain-variant circuit, since
    the reduction of the empty list of inverses raises. *)
Lemma plain_variant_empty_base :
  _invert_clifford_circuit (clifford_circuit []) = Raise IndexError
  /\ ~ (exists rb, _invert_clifford_circuit (clifford_circuit []) = Ok rb
                   /\ length rb = (0 + 1)%nat).
Proof.
  split; [reflexivity|]. intros (rb & E & _). discriminate.
Qed.

(** C8, for base sequences of length at least one. With an interleaving gate
    [c] the interleaved-variant circuit built from L >= 1 base gates holds
    exactly 2L + 1 Clifford operations before the measurement: base element
    [k] at position [2k], a copy of [c] after it at position [2k + 1], and
    the closing inverse of the product of these 2L operations. *)
Theorem interleaved_variant_circuit (self : IRB) (depth : Z)
    (c g : SingleQubitCliffordGate) (gs : list SingleQubitCliffordGate) :
  interleaved_gate self = Some c ->
  let base := g :: gs in
  let body := interleaved base c in
  let closing := inverse_gate (product_of body) in
  _interleave_op (clifford_circuit base) (GateOp c) = clifford_circuit body
  /\ length body = (2 * length base)%nat
  /\ (forall k x, base !! k = Some x ->
        body !! (2 * k)%nat = Some x /\ body !! (2 * k + 1)%nat = Some c)
  /\ _invert_clifford_circuit (clifford_circuit body)
     = Ok (clifford_circuit (body ++ [closing]))
  /\ length (body ++ [closing]) = (2 * length base + 1)%nat
  /\ product_of (body ++ [closing]) = Gate.I
  /\ exists rb,
       samples_of self depth (clifford_circuit base)
       = Ok [rb;
             {| raw_circuit := clifford_circuit (body ++ [closing]) ++ [MeasureOp];
                data := {| num_cycles := depth;
                           circuit_depth := 2 * Z.of_nat (length base) + 1;
                           experiment := "IRB" |} |}].
Proof.
  intros Hc. cbv zeta.
  split; [apply interleave_op_gates|].
  split; [apply interleaved_length|].
  split; [intros k x; apply interleaved_lookup|].
  split; [apply (invert_nonempty g (c :: interleaved gs c))|].
  split; [rewrite length_app, interleaved_length; simpl; lia|].
  split; [apply closing_product|].
  eexists. rewrite (samples_of_nonempty self depth g gs), Hc. reflexivity.
Qed.

(** The theorem at the base sequence H, S with Z interleaved: the body is
    H, Z, S, Z. *)
Lemma interleaved_variant_circuit_witness :
  interleaved [Gate.H; Gate.Z_sqrt] Gate.Z = [Gate.H; Gate.Z; Gate.Z_sqrt; Gate.Z]
  /\ length (interleaved [Gate.H; Gate.Z_sqrt] Gate.Z
             ++ [inverse_gate (product_of (interleaved [Gate.H; Gate.Z_sqrt] Gate.Z))])
     = 5%nat.
Proof.
  split; [reflexivity|].
  pose proof (interleaved_variant_circuit irb_Z 2 Gate.Z Gate.H [Gate.Z_sqrt] eq_refl)
    as (_ & _ & _ & _ & Hlen & _).
  exact Hlen.
Defined.

(** The claim at length zero: the interleaved body is empty as well and
    no circuit is built. *)
Lemma interleaved_variant_empty_base :
  _interleave_op (clifford_circuit []) (GateOp Gate.Z) = []
  /\ samples_of irb_Z 0 (clifford_circuit []) = Raise IndexError
  /\ ~ (exists irb,
          _invert_clifford_circuit (_interleave_op (clifford_circuit []) (GateOp Gate.Z))
          = Ok irb /\ length irb = (2 * 0 + 1)%nat).
Proof.
  split; [reflexivity|]. split; [reflexivity|].
  intros (irb & E & _). discriminate.
Qed.

End Inversion.

(** ** The circuit builder *)

Section Builder.
Import Cirq BaseExperiment Supermarq.

Lemma advance_advance j k s : advance j (advance k s) = advance (j + k) s.
Proof. unfold advance. simpl. f_equal. lia. Qed.

Lemma random_operations_total (n : nat) (s : rng) :
  exists gs,
    length gs = n
    /\ random_operations n s = Ok (clifford_circuit gs, advance (2 * n) s).
Proof.
  revert s. induction n as [|n IH]; intros s.
  - exists []. split; [reflexivity|]. destruct s. reflexivity.
  - destruct (random_clifford_total s) as (g & Eg).
    destruct (IH (advance 2 s)) as (gs & Hlen & Egs).
    exists (g :: gs). split; [simpl; lia|].
    cbn [random_operations]. rewrite Eg, result_bind_Ok. cbv beta iota.
    rewrite Egs, result_bind_Ok. cbv beta iota.
    rewrite advance_advance.
    replace (2 * n + 2)%nat with (2 * S n)%nat by lia. reflexivity.
Qed.

Lemma samples_of_tags self depth base l :
  samples_of self depth base = Ok l -> map tag l = variants self depth.
Proof.
  unfold samples_of, variants.
  destruct (_invert_clifford_circuit base) as [rb|e]; [|discriminate].
  rewrite result_bind_Ok.
  destruct (interleaved_gate self) as [c|].
  - destruct (_invert_clifford_circuit _) as [irb|e]; [|discriminate].
    rewrite result_bind_Ok. intros [= <-]. reflexivity.
  - intros [= <-]. reflexivity.
Qed.

Lemma build_loop_tags self todo : forall acc s l s',
  build_loop self todo acc s = Ok (l, s') ->
  map tag l = map tag acc ++ flat_map (fun td => variants self td.2) todo.
Proof.
  induction todo as [|[t depth] todo IH]; intros acc s l s' E.
  - injection E as <- <-. simpl. rewrite app_nil_r. reflexivity.
  - cbn [build_loop] in E.
    destruct (random_operations (range_len depth) s) as [[base s1]|e];
      [|discriminate].
    rewrite result_bind_Ok in E. cbv beta iota in E.
    destruct (samples_of self depth base) as [new|e] eqn:En; [|discriminate].
    rewrite result_bind_Ok in E.
    apply IH in E. rewrite E, map_app, (samples_of_tags _ _ _ _ En).
    cbn [flat_map snd]. rewrite <- app_assoc. reflexivity.
Qed.

Lemma Ok_inj {A} (a b : A) : Ok a = Ok b -> a = b.
Proof. congruence. Qed.

Lemma measured_well_formed (l : list SingleQubitCliffordGate) (d k : Z) (name : string) :
  Z.of_nat (length l) = k ->
  k = (if String.eqb name "RB" then 1 else 2) * d + 1 ->
  well_formed {| raw_circuit := clifford_circuit l ++ [MeasureOp];
                 data := {| num_cycles := d; circuit_depth := k; experiment := name |} |}.
Proof.
  intros Hl Hk. unfold well_formed.
  cbn [raw_circuit data circuit_depth experiment num_cycles].
  split; [apply last_snoc|]. split; [|exact Hk].
  unfold clifford_circuit. rewrite length_app, length_map. simpl length. lia.
Qed.

Lemma samples_of_well_formed self depth gs l :
  Z.of_nat (length gs) = depth ->
  samples_of self depth (clifford_circuit gs) = Ok l -> Forall well_formed l.
Proof.
  intros Hlen E. destruct gs as [|g gs]; [discriminate|].
  pose proof (samples_of_nonempty self depth g gs) as En. cbv zeta in En.
  rewrite En in E. apply Ok_inj in E. subst l.
  constructor.
  - apply measured_well_formed.
    + rewrite length_app. simpl length. lia.
    + simpl String.eqb. lia.
  - destruct (interleaved_gate self) as [c|]; constructor; [|constructor].
    apply measured_well_formed.
    + rewrite length_app, interleaved_length. simpl length. lia.
    + simpl String.eqb. lia.
Qed.

Lemma build_loop_positive self todo : forall acc s,
  Forall (fun td : nat * Z => 0 < td.2) todo ->
  Forall well_formed acc ->
  exists l s', build_loop self todo acc s = Ok (l, s') /\ Forall well_formed l.
Proof.
  induction todo as [|[t depth] todo IH]; intros acc s Hpos Hacc.
  - exists acc, s. split; [reflexivity|exact Hacc].
  - apply Forall_cons in Hpos as [Hd Hpos]. simpl in Hd.
    destruct (random_operations_total (range_len depth) s) as (gs & Hlen & Egs).
    assert (Hgs : Z.of_nat (length gs) = depth).
    { rewrite Hlen. unfold range_len. lia. }
    destruct gs as [|g gs]; [simpl in Hgs; lia|].
    pose proof (samples_of_nonempty self depth g gs) as En. cbv zeta in En.
    cbn [build_loop]. rewrite Egs, result_bind_Ok. cbv beta iota.
    rewrite En, result_bind_Ok.
    apply IH; [exact Hpos|].
    apply Forall_app. split; [exact Hacc|].
    apply (samples_of_well_formed self depth (g :: gs)); [exact Hgs|exact En].
Qed.

Lemma flat_map_variants_length self (todo : list (nat * Z)) :
  length (flat_map (fun td => variants self td.2) todo)
  = (length todo * length (variants self 0))%nat.
Proof.
  induction todo as [|td todo IH]; [reflexivity|].
  cbn [flat_map]. rewrite length_app, IH.
  unfold variants. destruct (interleaved_gate self); simpl; lia.
Qed.

Lemma product_length n depths :
  length (product n depths) = (range_len n * length depths)%nat.
Proof. unfold product. rewrite length_prod, length_seq. reflexivity. Qed.

Lemma product_positive n depths :
  Forall (fun d => 0 < d) depths ->
  Forall (fun td : nat * Z => 0 < td.2) (product n depths).
Proof.
  intros Hpos. apply List.Forall_forall. intros [t d] Hin.
  apply in_prod_iff in Hin as [_ Hd].
  rewrite List.Forall_forall in Hpos. apply Hpos, Hd.
Qed.

(** C3, for strictly positive depths. For every [num_circuits] and every
    list of strictly positive depths the builder succeeds, whatever the
    random source gives. It returns, for each (trial, depth) pair in order,
    the RB sample of that depth, followed by the IRB sample when a gate is
    interleaved; every sample ends with the measurement and records its
    size. *)
Theorem build_circuits_positive_depths (self : IRB) (num_circuits : Z)
    (cycle_depths : list Z) (s : rng) :
  Forall (fun d => 0 < d) cycle_depths ->
  exists samples s',
    _build_circuits self num_circuits cycle_depths s = Ok (samples, s')
    /\ map tag samples
       = flat_map (fun td => variants self td.2) (product num_circuits cycle_depths)
    /\ length samples
       = (range_len num_circuits * length cycle_depths * length (variants self 0))%nat
    /\ Forall well_formed samples.
Proof.
  intros Hpos. unfold _build_circuits.
  destruct (build_loop_positive self (product num_circuits cycle_depths) [] s)
    as (l & s' & E & Hwf).
  { apply product_positive, Hpos. }
  { constructor. }
  exists l, s'. split; [exact E|].
  pose proof (build_loop_tags _ _ _ _ _ _ E) as Htags. simpl in Htags.
  split; [exact Htags|]. split; [|exact Hwf].
  rewrite <- (length_map tag), Htags, flat_map_variants_length, product_length.
  reflexivity.
Qed.

(** The theorem for two trials at the depths 1 and 3 with Z interleaved:
    eight samples. *)
Lemma build_circuits_positive_depths_witness :
  exists samples s',
    _build_circuits irb_Z 2 [1; 3] (source_of 3 2) = Ok (samples, s')
    /\ map tag samples
       = [(1, "RB"); (1, "IRB"); (3, "RB"); (3, "IRB");
          (1, "RB"); (1, "IRB"); (3, "RB"); (3, "IRB")]%string
    /\ length samples = 8%nat
    /\ Forall well_formed samples.
Proof.
  apply (build_circuits_positive_depths irb_Z 2 [1; 3] (source_of 3 2)).
  repeat constructor.
Defined.

(** The claim at one trial of depth 0: the base circuit is empty and the
    builder raises from the reduction of the empty list of inverses. *)
Lemma build_circuits_depth_zero :
  1 <= 1
  /\ Forall (fun d => 0 <= d) [0]
  /\ _build_circuits rb_only 1 [0] (source_of 0 0) = Raise IndexError
  /\ _build_circuits irb_Z 1 [0] (source_of 0 0) = Raise IndexError.
Proof.
  split; [lia|]. split; [repeat constructor; lia|]. split; reflexivity.
Qed.

End Builder.

(** ** Inversion on circuit objects *)

Section InversionFrame.
Import Cirq BaseExperiment.

Lemma fresh_unused (h : gmap nat Circuit) : h !! fresh (dom h) = None.
Proof. apply not_elem_of_dom, is_fresh. Qed.

Lemma contents_Some (h : gmap nat Circuit) r c :
  h !! r = Some c -> Store.contents r h = Ok c.
Proof. unfold Store.contents. intros ->. reflexivity. Qed.

Lemma add_returns_extended_copy (h : gmap nat Circuit) r c op :
  h !! r = Some c ->
  returns_extended_copy h r c op (Store.__add__ r op h).
Proof.
  intros Hr. pose proof (fresh_unused h) as Hfresh.
  set (r' := fresh (dom h)) in *.
  assert (Hne : r' <> r).
  { intros E. rewrite E, Hr in Hfresh. discriminate. }
  exists r', (<[r' := c ++ [op]]> (<[r' := c]> h)).
  split; [|split; [exact Hne|split; [exact Hfresh|split; [|split]]]].
  - unfold Store.__add__, Store.copy.
    rewrite (contents_Some h r c Hr), result_bind_Ok.
    unfold Store.new_object. fold r'. cbn [mret result_ret].
    rewrite result_bind_Ok. cbv beta iota.
    unfold Store.__iadd__.
    rewrite (contents_Some (<[r' := c]> h) r' c) by apply lookup_insert_eq.
    reflexivity.
  - apply lookup_insert_eq.
  - rewrite !lookup_insert_ne by exact Hne. exact Hr.
  - intros k Hk. rewrite !lookup_insert_ne by congruence. reflexivity.
Qed.

Lemma on_qubits_gates l :
  map CirqSuperstaq.on_qubits (map Some l) = clifford_circuit l.
Proof. unfold clifford_circuit. rewrite map_map. reflexivity. Qed.

(** C10. Inverting a non-empty Clifford circuit does not change it. Given a
    circuit object holding the gates [g :: gs], [_invert_clifford_circuit]
    of either experiment returns a new object that holds the same
    operations followed by exactly one more, the inverse of their product;
    the input object and every other object of the store keep their
    contents. *)
Theorem invert_leaves_input (h : gmap nat Circuit) (circuit : Store.ref)
    (g : SingleQubitCliffordGate) (gs : list SingleQubitCliffordGate) :
  h !! circuit = Some (clifford_circuit (g :: gs)) ->
  let c := clifford_circuit (g :: gs) in
  let closing := GateOp (inverse_gate (product_of (g :: gs))) in
  returns_extended_copy h circuit c closing
    (Supermarq._invert_clifford_circuit_obj circuit h)
  /\ returns_extended_copy h circuit c closing
       (CirqSuperstaq._invert_clifford_circuit circuit h)
  /\ Supermarq._invert_clifford_circuit c = Ok (c ++ [closing]).
Proof.
  intros Hc. cbv zeta.
  assert (Hinv : Supermarq._reduce_clifford_seq (rev (map inverse_gate (g :: gs)))
                 = Ok (inverse_gate (product_of (g :: gs)))).
  { rewrite reduce_nonempty.
    - rewrite product_of_inverses. reflexivity.
    - simpl. intros E. apply app_eq_nil in E as [_ E]. discriminate. }
  split; [|split].
  - unfold Supermarq._invert_clifford_circuit_obj, all_operations.
    rewrite (contents_Some _ _ _ Hc), result_bind_Ok.
    rewrite inverse_gates, result_bind_Ok, Hinv, result_bind_Ok.
    apply add_returns_extended_copy, Hc.
  - unfold CirqSuperstaq._invert_clifford_circuit, all_operations.
    rewrite (contents_Some _ _ _ Hc), result_bind_Ok.
    rewrite inverse_gates, result_bind_Ok, reduce_agree, Hinv, result_bind_Ok.
    pose proof (fresh_unused h) as Hfresh.
    exists (fresh (dom h)), (<[fresh (dom h) := clifford_circuit (g :: gs)
                                ++ [GateOp (inverse_gate (product_of (g :: gs)))]]> h).
    split.
    { unfold Store.Circuit_of, Store.new_object. cbn [mret result_ret].
      rewrite gates_of_clifford_circuit.
      change [Some (inverse_gate (product_of (g :: gs)))]
        with (map Some [inverse_gate (product_of (g :: gs))]).
      rewrite <- map_app, on_qubits_gates.
      unfold clifford_circuit. rewrite map_app. reflexivity. }
    assert (Hne : fresh (dom h) <> circuit).
    { intros E. rewrite E, Hc in Hfresh. discriminate. }
    split; [exact Hne|]. split; [exact Hfresh|].
    split; [apply lookup_insert_eq|].
    split; [rewrite lookup_insert_ne by exact Hne; exact Hc|].
    intros k Hk. rewrite lookup_insert_ne by congruence. reflexivity.
  - rewrite (invert_nonempty g gs). unfold clifford_circuit.
    rewrite map_app. reflexivity.
Qed.

(** The theorem on that store. *)
Lemma invert_leaves_input_witness :
  returns_extended_copy one_circuit 0%nat
    (clifford_circuit [Gate.H; Gate.Z_sqrt])
    (GateOp (inverse_gate (product_of [Gate.H; Gate.Z_sqrt])))
    (Supermarq._invert_clifford_circuit_obj 0%nat one_circuit)
  /\ returns_extended_copy one_circuit 0%nat
       (clifford_circuit [Gate.H; Gate.Z_sqrt])
       (GateOp (inverse_gate (product_of [Gate.H; Gate.Z_sqrt])))
       (CirqSuperstaq._invert_clifford_circuit 0%nat one_circuit).
Proof.
  destruct (invert_leaves_input one_circuit 0%nat Gate.H [Gate.Z_sqrt])
    as (Hnew & Hold & _).
  - apply lookup_singleton_eq.
  - split; [exact Hnew|exact Hold].
Defined.

End InversionFrame.

(** ** Floating-point values *)

Section Floats.
Import NumPy.
Local Open Scope R_scope.

Lemma Fin_eq (a b : R) : a = b -> Fin a = Fin b.
Proof. intros ->. reflexivity. Qed.

Lemma fdiv_Fin (a b : R) : b <> 0 -> fdiv (Fin a) (Fin b) = Fin (a / b).
Proof.
  intros Hb. unfold fdiv. destruct (Req_EM_T b 0); [contradiction|reflexivity].
Qed.

Lemma fdiv_zero_zero (a b : R) : a = 0 -> b = 0 -> fdiv (Fin a) (Fin b) = NaN.
Proof.
  intros -> ->. unfold fdiv.
  destruct (Req_EM_T 0 0) as [_|ne]; [reflexivity|contradiction].
Qed.

Lemma fsqrt_Fin (a : R) : 0 <= a -> fsqrt (Fin a) = Fin (sqrt a).
Proof.
  intros Ha. unfold fsqrt. destruct (Rlt_dec a 0); [lra|reflexivity].
Qed.

Lemma log_Fin (a : R) : 0 < a -> log (Fin a) = Fin (ln a).
Proof.
  intros Ha. unfold log.
  destruct (Rlt_dec a 0); [lra|]. destruct (Req_EM_T a 0); [lra|reflexivity].
Qed.

Lemma log_zero (a : R) : a = 0 -> log (Fin a) = NInf.
Proof.
  intros ->. unfold log.
  destruct (Rlt_dec 0 0); [lra|]. destruct (Req_EM_T 0 0); [reflexivity|lra].
Qed.

(** The logarithm of a value below zero is NaN. *)
Lemma log_negative (x : float) : flt x (Fin 0) -> log x = NaN.
Proof.
  destruct x as [a| | |]; simpl; try contradiction; [|reflexivity].
  intros Ha. destruct (Rlt_dec a 0); [reflexivity|lra].
Qed.

Lemma mean_singleton (a : R) : mean [Fin a] = Fin a.
Proof.
  unfold mean, fsum. cbn [fold_left fadd length]. change (INR 1) with 1.
  rewrite fdiv_Fin by lra. apply Fin_eq. field.
Qed.

(** NaN goes through every operation. *)
Lemma fdiv_NaN_r (x : float) : fdiv x NaN = NaN.
Proof. destruct x; reflexivity. Qed.

Lemma fdiv_NaN_l (y : float) : fdiv NaN y = NaN.
Proof. destruct y; reflexivity. Qed.

Lemma fmul_NaN_l (y : float) : fmul NaN y = NaN.
Proof. destruct y; reflexivity. Qed.

Lemma fmul_NaN_r (x : float) : fmul x NaN = NaN.
Proof. destruct x; reflexivity. Qed.

Lemma fadd_NaN_r (x : float) : fadd x NaN = NaN.
Proof. destruct x; reflexivity. Qed.

Lemma fadd_NaN_l (y : float) : fadd NaN y = NaN.
Proof. destruct y; reflexivity. Qed.

End Floats.

(** ** The regression on degenerate inputs *)

Section Regression.
Import NumPy SciPy.
Local Open Scope R_scope.

Lemma deviation_single (w : float) : zero_or_nan (fsub w (mean [w])).
Proof.
  destruct w as [a| | |].
  - right. rewrite mean_singleton. exists (a + - a). split; [reflexivity|lra].
  - left. unfold mean, fsum. cbn [fold_left fadd length]. change (INR 1) with 1.
    unfold fdiv. destruct (Rlt_dec 1 0); [lra|reflexivity].
  - left. unfold mean, fsum. cbn [fold_left fadd length]. change (INR 1) with 1.
    unfold fdiv. destruct (Rlt_dec 1 0); [lra|reflexivity].
  - left. reflexivity.
Qed.

Lemma zero_or_nan_mul (x y : float) :
  zero_or_nan x -> zero_or_nan y -> zero_or_nan (fmul x y).
Proof.
  intros [->|(a & -> & Ha)] [->|(b & -> & Hb)].
  - left. reflexivity.
  - left. reflexivity.
  - left. reflexivity.
  - right. exists (a * b). split; [reflexivity|]. subst. lra.
Qed.

Lemma zero_or_nan_mean (x : float) : zero_or_nan x -> zero_or_nan (mean [x]).
Proof.
  intros [->|(a & -> & Ha)].
  - left. reflexivity.
  - right. exists a. split; [apply mean_singleton|exact Ha].
Qed.

Lemma zero_or_nan_div (x y : float) :
  zero_or_nan x -> zero_or_nan y -> fdiv x y = NaN.
Proof.
  intros [->|(a & -> & Ha)] [->|(b & -> & Hb)]; try reflexivity.
  apply fdiv_zero_zero; assumption.
Qed.

Lemma cov_single (u v : float) : zero_or_nan (cov [u] [v]).
Proof.
  unfold cov. cbn [map zip_with].
  apply zero_or_nan_mean, zero_or_nan_mul; apply deviation_single.
Qed.

Lemma cov_single_Fin (a : R) : exists z, cov [Fin a] [Fin a] = Fin z /\ z = 0.
Proof.
  unfold cov. cbn [map zip_with]. rewrite mean_singleton.
  cbn [fsub fopp fadd fmul]. rewrite mean_singleton.
  eexists. split; [reflexivity|]. lra.
Qed.

(** With no observation the regression raises. *)
Lemma linregress_empty : linregress [] [] = Raise (ValueError msg_empty).
Proof. reflexivity. Qed.

(** With one observation it returns, and both the slope and its standard
    error are NaN: the variance of the abscissas is zero. *)
Lemma linregress_single (x : Z) (y : float) :
  linregress [x] [y] = Ok {| slope := NaN; stderr := NaN |}.
Proof.
  unfold linregress. cbn [length Nat.eqb Nat.ltb Nat.leb orb andb all_identical forallb map].
  destruct (cov_single_Fin (IZR x)) as (z & Exx & Hz).
  unfold of_int. rewrite Exx.
  pose proof (cov_single (Fin (IZR x)) y) as Hxy.
  pose proof (cov_single y y) as Hyy.
  assert (Hzz : zero_or_nan (Fin z)) by (right; eauto).
  rewrite (zero_or_nan_div _ _ Hxy Hzz).
  assert (Er : rvalue (Fin z) (cov [Fin (IZR x)] [y]) (cov [y] [y]) = Fin 0).
  { unfold rvalue, feqb at 1. destruct (Req_EM_T z 0); [reflexivity|contradiction]. }
  rewrite Er.
  assert (Hnum : zero_or_nan (fmul (fsub (Fin 1) (fmul (Fin 0) (Fin 0))) (cov [y] [y]))).
  { destruct Hyy as [->|(b & -> & Hb)].
    - left. reflexivity.
    - right. eexists. split; [reflexivity|]. subst. lra. }
  rewrite (zero_or_nan_div _ _ Hnum Hzz). reflexivity.
Qed.

(** The regression raises nothing but its two [ValueError]s. *)
Lemma linregress_raises (x : list Z) (y : list float) (e : exn) :
  linregress x y = Raise e ->
  e = ValueError msg_empty \/ e = ValueError msg_identical.
Proof.
  unfold linregress.
  destruct ((length x =? 0)%nat || (length y =? 0)%nat); [intros [= <-]; auto|].
  destruct (all_identical x && (1 <? length x)%nat); [intros [= <-]; auto|].
  destruct (length x =? 2)%nat; discriminate.
Qed.

End Regression.

(** ** The regression on finite data *)

Section FiniteRegression.
Import NumPy SciPy.
Local Open Scope R_scope.

Lemma fold_fadd_Fin (l : list R) (acc : R) :
  fold_left fadd (map Fin l) (Fin acc) = Fin (acc + rsum l).
Proof.
  revert acc. induction l as [|a l IH]; intros acc; cbn [map fold_left].
  - apply Fin_eq. unfold rsum. simpl. lra.
  - cbn [fadd]. rewrite IH. apply Fin_eq. unfold rsum. simpl. lra.
Qed.

Lemma mean_Fin (l : list R) : l <> [] -> mean (map Fin l) = Fin (rmean l).
Proof.
  intros Hl. unfold mean, fsum. rewrite fold_fadd_Fin, length_map.
  rewrite fdiv_Fin.
  - apply Fin_eq. unfold rmean. f_equal. lra.
  - apply not_0_INR. destruct l; [contradiction|discriminate].
Qed.

Lemma zip_with_fmul_Fin (u v : list R) :
  zip_with fmul (map Fin u) (map Fin v) = map Fin (zip_with Rmult u v).
Proof.
  revert v. induction u as [|a u IH]; intros [|b v]; cbn [map zip_with]; try reflexivity.
  rewrite IH. reflexivity.
Qed.

Lemma deviations_Fin (u : list R) (m : R) :
  map (fun a => fsub a (Fin m)) (map Fin u) = map Fin (map (fun a => a - m) u).
Proof. rewrite !map_map. reflexivity. Qed.

Lemma cov_Fin (u v : list R) :
  u <> [] -> v <> [] -> cov (map Fin u) (map Fin v) = Fin (rcov u v).
Proof.
  intros Hu Hv. unfold cov. rewrite !mean_Fin by assumption.
  rewrite !deviations_Fin, zip_with_fmul_Fin, mean_Fin; [reflexivity|].
  destruct u, v; try contradiction. discriminate.
Qed.

Lemma zip_with_square (d : list R) :
  zip_with Rmult d d = map (fun t => t * t) d.
Proof. induction d as [|a d IH]; cbn [zip_with map]; [|rewrite IH]; reflexivity. Qed.

Lemma rsum_squares_nonneg (d : list R) : 0 <= rsum (map (fun t => t * t) d).
Proof.
  induction d as [|a d IH]; unfold rsum in *; simpl; [lra|]. nra.
Qed.

Lemma rsum_squares_zero (d : list R) :
  rsum (map (fun t => t * t) d) = 0 -> Forall (fun t => t = 0) d.
Proof.
  induction d as [|a d IH]; intros H; constructor.
  - pose proof (rsum_squares_nonneg d). unfold rsum in *. simpl in H. nra.
  - apply IH. pose proof (rsum_squares_nonneg d). unfold rsum in *. simpl in H. nra.
Qed.

Lemma rcov_self_nonneg (u : list R) : 0 <= rcov u u.
Proof.
  unfold rcov, rmean at 1. rewrite zip_with_square.
  pose proof (rsum_squares_nonneg (map (fun a => a - rmean u) u)) as Hs.
  pose proof (pos_INR (length (map (fun t => t * t) (map (fun a => a - rmean u) u)))) as Hn.
  destruct (Req_dec (INR (length (map (fun t : R => t * t) (map (fun a : R => a - rmean u) u)))) 0) as [E|E].
  - rewrite E. unfold Rdiv. rewrite Rinv_0. lra.
  - apply Rmult_le_pos; [exact Hs|]. apply Rlt_le, Rinv_0_lt_compat. lra.
Qed.

Lemma all_identical_true (x0 : Z) (rest : list Z) :
  Forall (fun z => z = x0) rest -> all_identical (x0 :: rest) = true.
Proof.
  intros H. cbn [all_identical]. apply forallb_forall. intros z Hz.
  rewrite List.Forall_forall in H. rewrite (H z Hz). apply Z.eqb_refl.
Qed.

Lemma rcov_self_pos (x : list Z) :
  all_identical x = false -> 0 < rcov (map IZR x) (map IZR x).
Proof.
  intros Hid. pose proof (rcov_self_nonneg (map IZR x)) as Hge.
  destruct (Req_dec (rcov (map IZR x) (map IZR x)) 0) as [E|E]; [|lra].
  exfalso. destruct x as [|x0 rest]; [discriminate|].
  rewrite all_identical_true in Hid; [discriminate|].
  unfold rcov, rmean at 1 in E. rewrite zip_with_square in E.
  set (m := rmean (map IZR (x0 :: rest))) in *.
  rewrite !length_map in E.
  assert (Hn : INR (length (x0 :: rest)) <> 0) by (apply not_0_INR; discriminate).
  assert (Hs : rsum (map (fun t => t * t) (map (fun a => a - m) (map IZR (x0 :: rest)))) = 0).
  { apply (Rmult_eq_reg_r (/ INR (length (x0 :: rest)))).
    - rewrite Rmult_0_l. exact E.
    - apply Rinv_neq_0_compat, Hn. }
  apply rsum_squares_zero in Hs.
  rewrite !List.Forall_map in Hs. apply Forall_cons in Hs as [H0 Hrest].
  eapply Forall_impl; [exact Hrest|]. intros z Hz. cbv beta in *.
  apply eq_IZR. lra.
Qed.

(** The correlation coefficient of finite data is finite and within
    [-1, 1]. *)
Lemma rvalue_Fin (sxx sxy syy : R) :
  0 < sxx -> 0 <= syy ->
  exists rho, rvalue (Fin sxx) (Fin sxy) (Fin syy) = Fin rho /\ -1 <= rho <= 1.
Proof.
  intros Hxx Hyy. unfold rvalue, feqb.
  destruct (Req_EM_T sxx 0) as [E|_]; [lra|].
  destruct (Req_EM_T syy 0) as [E|Hne]; cbn [orb].
  - exists 0. split; [reflexivity|lra].
  - cbn [fmul]. rewrite fsqrt_Fin by nra.
    assert (Hs : 0 < sqrt (sxx * syy)) by (apply sqrt_lt_R0; nra).
    rewrite fdiv_Fin by lra. unfold fltb.
    destruct (Rlt_dec 1 (sxy / sqrt (sxx * syy))).
    + exists 1. split; [reflexivity|lra].
    + destruct (Rlt_dec (sxy / sqrt (sxx * syy)) (-1)).
      * exists (-1). split; [reflexivity|lra].
      * eexists. split; [reflexivity|lra].
Qed.

(** On two or more finite observations at abscissas that are not all the
    same, the regression returns a finite slope and a finite, non-negative
    standard error. *)
Lemma linregress_finite (x : list Z) (y : list R) :
  length y = length x -> (2 <= length x)%nat -> all_identical x = false ->
  exists s e,
    linregress x (map Fin y) = Ok {| slope := Fin s; stderr := Fin e |} /\ 0 <= e.
Proof.
  intros Hlen Hn Hid. unfold linregress.
  rewrite length_map, Hlen.
  destruct (length x) as [|[|n]] eqn:En; try lia.
  cbn [Nat.eqb orb]. rewrite Hid. cbn [andb].
  assert (Hx : map IZR x <> []) by (destruct x; discriminate).
  assert (Hy : y <> []) by (destruct y; discriminate).
  replace (map of_int x) with (map Fin (map IZR x)) by (rewrite map_map; reflexivity).
  rewrite !cov_Fin by assumption.
  pose proof (rcov_self_pos x Hid) as Hxx.
  pose proof (rcov_self_nonneg y) as Hyy.
  rewrite fdiv_Fin by lra.
  destruct n as [|n]; cbn [Nat.eqb].
  - exists (rcov (map IZR x) y / rcov (map IZR x) (map IZR x)), 0.
    split; [reflexivity|lra].
  - destruct (rvalue_Fin _ (rcov (map IZR x) y) _ Hxx Hyy) as (rho & -> & Hrho).
    assert (Hdf : 0 < INR (S (S (S n))) - 2).
    { rewrite !S_INR. pose proof (pos_INR n). lra. }
    cbn [fmul fsub fopp fadd]. rewrite !fdiv_Fin by lra.
    assert (Harg : 0 <= (1 + - (rho * rho)) * rcov y y
                        / rcov (map IZR x) (map IZR x) / (INR (S (S (S n))) - 2)).
    { apply Rmult_le_pos; [apply Rmult_le_pos|].
      - apply Rmult_le_pos; [nra|exact Hyy].
      - apply Rlt_le, Rinv_0_lt_compat, Hxx.
      - apply Rlt_le, Rinv_0_lt_compat, Hdf. }
    rewrite fsqrt_Fin by exact Harg.
    eexists _, _. split; [reflexivity|]. apply sqrt_pos.
Qed.

End FiniteRegression.

(** ** The rows that are fitted *)

Section FittedRows.
Import NumPy SciPy BaseExperiment Supermarq.
Local Open Scope R_scope.

Lemma fitted_rows_In (self : IRB) (name : string) (a : ARow) :
  In a (fitted_rows self name) <->
  exists r, In r (raw_data self) /\ a = add_columns r
            /\ has_nan a = false /\ row_experiment r = name.
Proof.
  unfold fitted_rows, query, prepared, dropna.
  rewrite !filter_In, in_map_iff. split.
  - intros [[(r & <- & Hin) Hnan] Hname].
    exists r. split; [exact Hin|]. split; [reflexivity|].
    split; [now apply negb_true_iff|]. now apply String.eqb_eq.
  - intros (r & Hin & -> & Hnan & Hname).
    split; [split|].
    + exists r. split; [reflexivity|exact Hin].
    + now apply negb_true_iff.
    + now apply String.eqb_eq.
Qed.

Lemma has_nan_false (a : ARow) :
  has_nan a = false ->
  isnan (P0 (row a)) = false /\ isnan (P1 (row a)) = false
  /\ isnan (survival_prob a) = false /\ isnan (log_survival_prob a) = false.
Proof.
  unfold has_nan. intros H.
  apply orb_false_iff in H as [H H4]. apply orb_false_iff in H as [H H3].
  apply orb_false_iff in H as [H1 H2]. auto.
Qed.

(** A row measured above one half, with a probability recorded for "1", is
    kept. *)
Lemma has_nan_above_half (r : Row) (p : R) :
  P0 r = Fin p -> 1 / 2 < p -> isnan (P1 r) = false ->
  has_nan (add_columns r) = false.
Proof.
  intros Hp Hhalf H1. unfold has_nan, add_columns.
  cbn [row survival_prob log_survival_prob]. rewrite Hp, H1.
  cbn [fmul fsub fopp fadd isnan orb].
  rewrite log_Fin by lra. reflexivity.
Qed.

(** A variant with two or more usable rows, of positive survival
    probability and not all at one depth, is fitted with finite values. *)
Lemma fit_finite (self : IRB) (name : string) :
  (2 <= usable self name)%nat ->
  all_identical (map (fun a => clifford_depth (row a)) (fitted_rows self name)) = false ->
  Forall positive_survival (fitted_rows self name) ->
  exists s e,
    fit self name = Ok {| slope := Fin s; stderr := Fin e |} /\ 0 <= e.
Proof.
  unfold usable, fit. intros Hn Hid Hpos.
  assert (Hy : map (fun a => log (survival_prob a)) (fitted_rows self name)
               = map Fin (map ln_survival (fitted_rows self name))).
  { rewrite map_map. apply map_ext_in. intros a Ha.
    rewrite List.Forall_forall in Hpos. destruct (Hpos a Ha) as (p & Hp & Hlt).
    unfold ln_survival. rewrite Hp. apply log_Fin, Hlt. }
  rewrite Hy. apply linregress_finite.
  - rewrite !length_map. reflexivity.
  - rewrite length_map. exact Hn.
  - exact Hid.
Qed.

(** C2, for rows below zero. In every data set, a row whose survival
    probability [2 * P(0) - 1] is less than 0 is not among the rows given
    to the regression of the RB or of the IRB variant (or of any label):
    every fitted row comes from the table, has the label, has a survival
    probability that is not below 0, and its logarithm, the ordinate of the
    fit, is not NaN. *)
Theorem negative_survival_rows_dropped (self : IRB) (name : string) :
  (forall a, In a (fitted_rows self name) ->
     exists r, In r (raw_data self)
               /\ row_experiment r = name
               /\ a = add_columns r
               /\ survival_prob a = survival r
               /\ ~ flt (survival_prob a) (Fin 0)
               /\ isnan (log (survival_prob a)) = false)
  /\ (forall r, In r (raw_data self) -> flt (survival r) (Fin 0) ->
        ~ In (add_columns r) (fitted_rows self name))
  /\ Forall (fun y => isnan y = false)
            (map (fun a => log (survival_prob a)) (fitted_rows self name)).
Proof.
  assert (kept : forall a, In a (fitted_rows self name) ->
            exists r, In r (raw_data self)
               /\ row_experiment r = name
               /\ a = add_columns r
               /\ survival_prob a = survival r
               /\ ~ flt (survival_prob a) (Fin 0)
               /\ isnan (log (survival_prob a)) = false).
  { intros a (r & Hin & -> & Hnan & Hname)%fitted_rows_In.
    apply has_nan_false in Hnan as (_ & _ & _ & Hlog).
    exists r. repeat split; try assumption.
    intros Hneg. apply log_negative in Hneg.
    cbn [add_columns log_survival_prob survival_prob] in *.
    rewrite Hneg in Hlog. discriminate. }
  split; [exact kept|]. split.
  - intros r Hin Hneg Hfit.
    destruct (kept _ Hfit) as (r' & _ & _ & _ & _ & Hnot & _).
    apply Hnot. exact Hneg.
  - apply List.Forall_forall. intros y (a & <- & Ha)%in_map_iff.
    destruct (kept _ Ha) as (r & _ & _ & _ & _ & _ & Hlog). exact Hlog.
Qed.

(** The theorem on a table of two rows: the row measured at 1/4, of survival
    probability -1/2, is not fitted. *)
Lemma negative_survival_rows_dropped_witness :
  ~ In (add_columns (rb_row 8 (1 / 4) (3 / 4)))
       (fitted_rows (rb_table [rb_row 1 1 0; rb_row 8 (1 / 4) (3 / 4)]) "RB").
Proof.
  destruct (negative_survival_rows_dropped
              (rb_table [rb_row 1 1 0; rb_row 8 (1 / 4) (3 / 4)]) "RB")
    as (_ & dropped & _).
  apply dropped.
  - right. left. reflexivity.
  - simpl. lra.
Defined.

(** The claim at a row measured at exactly one half: its survival
    probability is 0, the logarithm is minus infinity and not NaN, and the
    row is given to the regression. *)
Lemma zero_survival_row_fitted :
  In (add_columns (rb_row 8 (1 / 2) (1 / 2)))
     (fitted_rows (rb_table [rb_row 8 (1 / 2) (1 / 2)]) "RB")
  /\ fle (survival_prob (add_columns (rb_row 8 (1 / 2) (1 / 2)))) (Fin 0)
  /\ log (survival_prob (add_columns (rb_row 8 (1 / 2) (1 / 2)))) = NInf.
Proof.
  assert (Hlog : log (survival (rb_row 8 (1 / 2) (1 / 2))) = NInf).
  { unfold survival. cbn [rb_row P0 fmul fsub fopp fadd]. apply log_zero. lra. }
  split; [|split].
  - apply fitted_rows_In. exists (rb_row 8 (1 / 2) (1 / 2)).
    split; [left; reflexivity|]. split; [reflexivity|]. split; [|reflexivity].
    unfold has_nan, add_columns. cbn [row survival_prob log_survival_prob].
    fold (survival (rb_row 8 (1 / 2) (1 / 2))). rewrite Hlog. reflexivity.
  - right. unfold add_columns. cbn [survival_prob rb_row P0 fmul fsub fopp fadd feqb].
    destruct (Req_EM_T _ _); [reflexivity|lra].
  - exact Hlog.
Qed.

End FittedRows.

(** ** The analysis with too few rows *)

Section FewRows.
Import NumPy SciPy BaseExperiment Supermarq.
Local Open Scope R_scope.

Lemma fit_no_rows (self : IRB) (name : string) :
  usable self name = 0%nat -> fit self name = Raise (ValueError msg_empty).
Proof.
  unfold usable, fit. intros H. apply length_zero_iff_nil in H. rewrite H.
  reflexivity.
Qed.

Lemma fit_one_row (self : IRB) (name : string) :
  usable self name = 1%nat -> fit self name = Ok {| slope := NaN; stderr := NaN |}.
Proof.
  unfold usable, fit. intros H.
  destruct (fitted_rows self name) as [|a [|b l]]; try discriminate.
  cbn [map]. apply linregress_single.
Qed.

Lemma fit_raises (self : IRB) (name : string) (e : exn) :
  fit self name = Raise e ->
  e = ValueError msg_empty \/ e = ValueError msg_identical.
Proof. unfold fit. apply linregress_raises. Qed.

Local Ltac nan_through :=
  repeat first [rewrite fmul_NaN_r | rewrite fmul_NaN_l | rewrite fdiv_NaN_r
               | rewrite fdiv_NaN_l | rewrite fadd_NaN_r | rewrite fadd_NaN_l
               | progress cbn [fsub fopp fsqrt]].

(** [analyze_results] fits RB first: an error of that regression reaches
    the caller. *)
Lemma analyze_results_rb_raises (self : IRB) (e : exn) :
  fit self "RB" = Raise e -> analyze_results self = Raise e.
Proof. intros E. unfold analyze_results. rewrite E. reflexivity. Qed.

(** With a gate interleaved and an RB regression that returned, an error of
    the IRB regression reaches the caller. *)
Lemma analyze_results_irb_raises (self : IRB) (c : Cirq.SingleQubitCliffordGate)
    (rb_model : LinregressResult) (e : exn) :
  interleaved_gate self = Some c -> fit self "RB" = Ok rb_model ->
  fit self "IRB" = Raise e -> analyze_results self = Raise e.
Proof.
  intros Hgate Erb Eirb. unfold analyze_results.
  rewrite Erb, result_bind_Ok, Hgate, Eirb. reflexivity.
Qed.

(** Without interleaving and with one usable RB row, the analysis returns
    and every estimate is NaN. *)
Lemma analyze_results_one_row (self : IRB) :
  interleaved_gate self = None -> usable self "RB" = 1%nat ->
  analyze_results self
  = Ok (RB {| RBResults.target := join_targets self;
              RBResults.total_circuits := length (samples self);
              RBResults.rb_decay_coefficient := NaN;
              RBResults.rb_decay_coefficient_std := NaN;
              RBResults.average_gate_error := NaN;
              RBResults.average_gate_error_std := NaN |}).
Proof.
  intros Hgate Hone. unfold analyze_results.
  rewrite (fit_one_row self "RB" Hone), result_bind_Ok, Hgate.
  cbn [slope stderr fexp fmul fsub fopp fadd pow2neg]. reflexivity.
Qed.

(** With a gate interleaved, one usable RB row and an IRB regression that
    returned. *)
Lemma analyze_results_one_rb_row (self : IRB) (c : Cirq.SingleQubitCliffordGate)
    (irb_model : LinregressResult) :
  interleaved_gate self = Some c -> usable self "RB" = 1%nat ->
  fit self "IRB" = Ok irb_model ->
  analyze_results self
  = Ok (IRBr {| IRBResults.target := join_targets self;
                IRBResults.total_circuits := length (samples self);
                IRBResults.rb_decay_coefficient := NaN;
                IRBResults.rb_decay_coefficient_std := NaN;
                IRBResults.irb_decay_coefficient := fexp (slope irb_model);
                IRBResults.irb_decay_coefficient_std :=
                  fmul (stderr irb_model) (fexp (slope irb_model));
                IRBResults.average_interleaved_gate_error := NaN;
                IRBResults.average_interleaved_gate_error_std := NaN |}).
Proof.
  intros Hgate Hone Eirb. unfold analyze_results.
  rewrite (fit_one_row self "RB" Hone), result_bind_Ok, Hgate, Eirb, result_bind_Ok.
  cbn [slope stderr fexp]. nan_through. reflexivity.
Qed.

(** With a gate interleaved, one usable IRB row and an RB regression that
    returned. *)
Lemma analyze_results_one_irb_row (self : IRB) (c : Cirq.SingleQubitCliffordGate)
    (rb_model : LinregressResult) :
  interleaved_gate self = Some c -> usable self "IRB" = 1%nat ->
  fit self "RB" = Ok rb_model ->
  analyze_results self
  = Ok (IRBr {| IRBResults.target := join_targets self;
                IRBResults.total_circuits := length (samples self);
                IRBResults.rb_decay_coefficient := fexp (slope rb_model);
                IRBResults.rb_decay_coefficient_std :=
                  fmul (stderr rb_model) (fexp (slope rb_model));
                IRBResults.irb_decay_coefficient := NaN;
                IRBResults.irb_decay_coefficient_std := NaN;
                IRBResults.average_interleaved_gate_error := NaN;
                IRBResults.average_interleaved_gate_error_std := NaN |}).
Proof.
  intros Hgate Hone Erb. unfold analyze_results.
  rewrite Erb, result_bind_Ok, Hgate, (fit_one_row self "IRB" Hone), result_bind_Ok.
  cbn [slope stderr fexp]. nan_through. reflexivity.
Qed.

(** C1, as the code has it. [analyze_results] has no check of its own on
    the number of usable rows. When fewer than 2 usable rows remain for a
    required variant (RB always, IRB when a gate is interleaved), it calls
    the regressions all the same, RB first, and an error of the RB
    regression reaches the caller. With no usable RB row this error is
    [ValueError "Inputs must not be empty."]; with no usable IRB row and an
    RB regression that returned, the call raises the same error. With one
    usable row the regression of that variant returns NaN for the slope and
    its standard error, and the call returns: without a gate, results whose
    four estimates are NaN; with a gate, unless the regression of the other
    variant raised (then that error reaches the caller), results in which
    the decay coefficient of the variant, its standard deviation, the gate
    error and its standard deviation are NaN. In every case the call either
    raises the error of one of its regressions or returns NaN estimates. *)
Theorem analyze_results_few_rows (self : IRB) (name : string) :
  required self name -> (usable self name < 2)%nat ->
  ((exists e, analyze_results self = Raise e
              /\ (fit self "RB" = Raise e \/ fit self "IRB" = Raise e))
   \/ (exists res, analyze_results self = Ok res
                   /\ decay_coefficient res name = Some NaN
                   /\ gate_error res = NaN))
  /\ (forall e, fit self "RB" = Raise e -> analyze_results self = Raise e)
  /\ (usable self name = 0%nat ->
        fit self name = Raise (ValueError msg_empty)
        /\ (name = "RB"%string ->
            analyze_results self = Raise (ValueError msg_empty))
        /\ (name = "IRB"%string ->
            forall rb_model,
              fit self "RB" = Ok rb_model ->
              analyze_results self = Raise (ValueError msg_empty)))
  /\ (usable self name = 1%nat ->
        fit self name = Ok {| slope := NaN; stderr := NaN |}
        /\ (name = "RB"%string -> interleaved_gate self = None ->
            analyze_results self
            = Ok (RB {| RBResults.target := join_targets self;
                        RBResults.total_circuits := length (samples self);
                        RBResults.rb_decay_coefficient := NaN;
                        RBResults.rb_decay_coefficient_std := NaN;
                        RBResults.average_gate_error := NaN;
                        RBResults.average_gate_error_std := NaN |}))
        /\ (name = "RB"%string -> interleaved_gate self <> None ->
            (forall e, fit self "IRB" = Raise e -> analyze_results self = Raise e)
            /\ (forall irb_model,
                  fit self "IRB" = Ok irb_model ->
                  analyze_results self
                  = Ok (IRBr
                      {| IRBResults.target := join_targets self;
                         IRBResults.total_circuits := length (samples self);
                         IRBResults.rb_decay_coefficient := NaN;
                         IRBResults.rb_decay_coefficient_std := NaN;
                         IRBResults.irb_decay_coefficient := fexp (slope irb_model);
                         IRBResults.irb_decay_coefficient_std :=
                           fmul (stderr irb_model) (fexp (slope irb_model));
                         IRBResults.average_interleaved_gate_error := NaN;
                         IRBResults.average_interleaved_gate_error_std := NaN |})))
        /\ (name = "IRB"%string ->
            forall rb_model,
              fit self "RB" = Ok rb_model ->
              analyze_results self
              = Ok (IRBr
                  {| IRBResults.target := join_targets self;
                     IRBResults.total_circuits := length (samples self);
                     IRBResults.rb_decay_coefficient := fexp (slope rb_model);
                     IRBResults.rb_decay_coefficient_std :=
                       fmul (stderr rb_model) (fexp (slope rb_model));
                     IRBResults.irb_decay_coefficient := NaN;
                     IRBResults.irb_decay_coefficient_std := NaN;
                     IRBResults.average_interleaved_gate_error := NaN;
                     IRBResults.average_interleaved_gate_error_std := NaN |}))).
Proof.
  intros Hreq Hfew.
  assert (first : forall e, fit self "RB" = Raise e -> analyze_results self = Raise e)
    by apply analyze_results_rb_raises.
  assert (none : usable self name = 0%nat ->
                 fit self name = Raise (ValueError msg_empty)
                 /\ (name = "RB"%string ->
                     analyze_results self = Raise (ValueError msg_empty))
                 /\ (name = "IRB"%string ->
                     forall rb_model,
                       fit self "RB" = Ok rb_model ->
                       analyze_results self = Raise (ValueError msg_empty))).
  { intros Hzero. split; [apply fit_no_rows, Hzero|]. split.
    - intros ->. apply first, fit_no_rows, Hzero.
    - intros -> rb_model Erb.
      destruct Hreq as [Hname|[_ Hgate]]; [discriminate|].
      destruct (interleaved_gate self) as [c|] eqn:Ec; [|contradiction].
      apply (analyze_results_irb_raises self c rb_model _ Ec Erb).
      apply fit_no_rows, Hzero. }
  assert (plain : name = "RB"%string -> usable self name = 1%nat ->
                  interleaved_gate self = None ->
                  analyze_results self
                  = Ok (RB {| RBResults.target := join_targets self;
                              RBResults.total_circuits := length (samples self);
                              RBResults.rb_decay_coefficient := NaN;
                              RBResults.rb_decay_coefficient_std := NaN;
                              RBResults.average_gate_error := NaN;
                              RBResults.average_gate_error_std := NaN |})).
  { intros -> Hone Hnone. apply analyze_results_one_row; assumption. }
  split; [|split; [exact first|split; [exact none|]]].
  - destruct (fit self "RB") as [rb_model|e] eqn:Erb.
    2:{ left. exists e. split; [apply first; reflexivity|left; reflexivity]. }
    assert (Hcases : usable self name = 0%nat \/ usable self name = 1%nat) by lia.
    destruct Hreq as [->|[-> Hgate]].
    + destruct Hcases as [Hzero|Hone].
      { rewrite (fit_no_rows self "RB" Hzero) in Erb. discriminate. }
      destruct (interleaved_gate self) as [c|] eqn:Ec.
      * destruct (fit self "IRB") as [irb_model|e] eqn:Eirb.
        -- right. eexists. split.
           ++ apply (analyze_results_one_rb_row self c irb_model Ec Hone Eirb).
           ++ split; reflexivity.
        -- left. exists e. split; [|right; reflexivity].
           apply (analyze_results_irb_raises self c rb_model e Ec Erb Eirb).
      * right. eexists. split; [apply (plain eq_refl Hone eq_refl)|].
        split; reflexivity.
    + destruct (interleaved_gate self) as [c|] eqn:Ec; [|contradiction].
      destruct Hcases as [Hzero|Hone].
      * left. exists (ValueError msg_empty). split.
        -- apply (analyze_results_irb_raises self c rb_model _ Ec Erb).
           apply fit_no_rows, Hzero.
        -- right. apply fit_no_rows, Hzero.
      * right. eexists. split.
        -- apply (analyze_results_one_irb_row self c rb_model Ec Hone Erb).
        -- split; reflexivity.
  - intros Hone. split; [apply fit_one_row, Hone|]. split; [|split].
    + intros Hname Hnone. apply plain; assumption.
    + intros -> Hsome.
      destruct (interleaved_gate self) as [c|] eqn:Ec; [|contradiction].
      split.
      * intros e Eirb.
        apply (analyze_results_irb_raises self c _ e Ec (fit_one_row self "RB" Hone) Eirb).
      * intros irb_model Eirb.
        apply (analyze_results_one_rb_row self c irb_model Ec Hone Eirb).
    + intros -> rb_model Erb.
      destruct Hreq as [Hname|[_ Hgate]]; [discriminate|].
      destruct (interleaved_gate self) as [c|] eqn:Ec; [|contradiction].
      apply (analyze_results_one_irb_row self c rb_model Ec Hone Erb).
Qed.

Lemma one_row_usable : usable (rb_table [rb_row 4 1 0]) "RB" = 1%nat.
Proof.
  unfold usable, fitted_rows, prepared, dropna, query.
  cbn [rb_table raw_data map List.filter].
  rewrite (has_nan_above_half (rb_row 4 1 0) 1) by (try reflexivity; lra).
  reflexivity.
Qed.

(** The theorem on a table with a single RB row and no interleaving: the
    call returns, and every estimate is NaN. *)
Lemma analyze_results_few_rows_witness :
  analyze_results (rb_table [rb_row 4 1 0])
  = Ok (RB {| RBResults.target := join_targets (rb_table [rb_row 4 1 0]);
              RBResults.total_circuits := length (samples (rb_table [rb_row 4 1 0]));
              RBResults.rb_decay_coefficient := NaN;
              RBResults.rb_decay_coefficient_std := NaN;
              RBResults.average_gate_error := NaN;
              RBResults.average_gate_error_std := NaN |}).
Proof.
  destruct (analyze_results_few_rows (rb_table [rb_row 4 1 0]) "RB")
    as (_ & _ & _ & one).
  - left. reflexivity.
  - rewrite one_row_usable. lia.
  - destruct (one one_row_usable) as (_ & plain & _).
    exact (plain eq_refl eq_refl).
Defined.

(** The claim on a table with a single usable RB row and no interleaving:
    fewer than 2 usable rows remain, and [analyze_results] does not fail;
    it returns results in which every estimate is NaN. *)
Lemma single_row_returns_nan :
  required (rb_table [rb_row 4 1 0]) "RB"
  /\ (usable (rb_table [rb_row 4 1 0]) "RB" < 2)%nat
  /\ (exists res,
        analyze_results (rb_table [rb_row 4 1 0]) = Ok (RB res)
        /\ RBResults.rb_decay_coefficient res = NaN
        /\ RBResults.rb_decay_coefficient_std res = NaN
        /\ RBResults.average_gate_error res = NaN
        /\ RBResults.average_gate_error_std res = NaN)
  /\ ~ (exists e, analyze_results (rb_table [rb_row 4 1 0]) = Raise e).
Proof.
  pose proof (analyze_results_one_row (rb_table [rb_row 4 1 0]) eq_refl one_row_usable)
    as E.
  split; [left; reflexivity|]. split; [rewrite one_row_usable; lia|].
  split.
  - eexists. split; [exact E|]. repeat split.
  - intros (e & He). rewrite E in He. discriminate.
Qed.

End FewRows.

(** ** The estimates *)

Section Estimates.
Import NumPy SciPy BaseExperiment Supermarq.
Local Open Scope R_scope.

(** In a table measured above one half throughout, no row is dropped. *)
Lemma fitted_rows_above_half (self : IRB) (name : string) :
  Forall above_half (raw_data self) ->
  fitted_rows self name
  = map add_columns
        (List.filter (fun r => String.eqb (row_experiment r) name) (raw_data self)).
Proof.
  unfold fitted_rows, prepared, dropna, query.
  induction (raw_data self) as [|r rows IH]; intros Hall; [reflexivity|].
  apply Forall_cons in Hall as [(p & Hp & Hhalf & H1) Hall].
  cbn [map List.filter].
  rewrite (has_nan_above_half r p Hp Hhalf H1). cbn [negb List.filter].
  change (row_experiment (row (add_columns r))) with (row_experiment r).
  destruct (String.eqb (row_experiment r) name); cbn [map]; rewrite (IH Hall);
    reflexivity.
Qed.

Lemma positive_survival_above_half (r : Row) :
  above_half r -> positive_survival (add_columns r).
Proof.
  intros (p & Hp & Hhalf & _). unfold positive_survival, add_columns.
  cbn [survival_prob]. rewrite Hp. cbn [fmul fsub fopp fadd].
  eexists. split; [reflexivity|lra].
Qed.

Lemma six_rows_above_half : Forall above_half six_rows.
Proof.
  repeat constructor; eexists; (split; [reflexivity|]); split;
    try reflexivity; lra.
Qed.

Lemma six_rows_well_conditioned (name : string) :
  name = "RB"%string \/ name = "IRB"%string ->
  well_conditioned (irb_table six_rows) name.
Proof.
  intros Hname. unfold well_conditioned, usable.
  rewrite (fitted_rows_above_half (irb_table six_rows) name six_rows_above_half).
  pose proof six_rows_above_half as Hall.
  repeat (apply Forall_cons in Hall as [? Hall]).
  destruct Hname as [-> | ->];
    (split; [simpl; lia|]); (split; [reflexivity|]);
    repeat constructor; apply positive_survival_above_half; assumption.
Qed.

Lemma well_conditioned_fit (self : IRB) (name : string) :
  well_conditioned self name ->
  exists s e, fit self name = Ok {| slope := Fin s; stderr := Fin e |} /\ 0 <= e.
Proof. intros (Hn & Hid & Hpos). apply fit_finite; assumption. Qed.

(** Without interleaving, from a finite fit. *)
Lemma analyze_results_plain (self : IRB) (s e : R) :
  interleaved_gate self = None ->
  fit self "RB" = Ok {| slope := Fin s; stderr := Fin e |} ->
  analyze_results self
  = Ok (RB {| RBResults.target := join_targets self;
              RBResults.total_circuits := length (samples self);
              RBResults.rb_decay_coefficient := Fin (exp s);
              RBResults.rb_decay_coefficient_std := Fin (e * exp s);
              RBResults.average_gate_error :=
                Fin ((1 - powerRZ 2 (- num_qubits self)) * (1 - exp s));
              RBResults.average_gate_error_std :=
                Fin ((1 - powerRZ 2 (- num_qubits self)) * (e * exp s)) |}).
Proof.
  intros Hgate Hfit. unfold analyze_results.
  rewrite Hfit, result_bind_Ok, Hgate. reflexivity.
Qed.

(** C5. With an interleaving gate and both regressions giving finite
    values: each decay coefficient is the exponential of the fitted slope
    and its standard deviation is the slope's standard error times the decay
    coefficient; the interleaved-gate error is
    [(1 - r_irb / r_rb) * (1 - 2 ^ (- n))] and its standard deviation is
    [sqrt ((s_irb / (2 r_rb)) ^ 2 + (r_irb s_rb / (2 r_rb ^ 2)) ^ 2)], for
    the decay coefficients [r] and their standard deviations [s]. Both
    regressions give finite values whenever each variant has two or more
    usable rows, of positive survival probability and not all at one
    depth. *)
Theorem interleaved_gate_error_estimate (self : IRB)
    (c : Cirq.SingleQubitCliffordGate) :
  interleaved_gate self = Some c ->
  (forall slope_rb stderr_rb slope_irb stderr_irb : R,
      fit self "RB" = Ok {| slope := Fin slope_rb; stderr := Fin stderr_rb |} ->
      fit self "IRB" = Ok {| slope := Fin slope_irb; stderr := Fin stderr_irb |} ->
      let r_rb := exp slope_rb in
      let s_rb := stderr_rb * r_rb in
      let r_irb := exp slope_irb in
      let s_irb := stderr_irb * r_irb in
      analyze_results self
      = Ok (IRBr
          {| IRBResults.target := join_targets self;
             IRBResults.total_circuits := length (samples self);
             IRBResults.rb_decay_coefficient := Fin r_rb;
             IRBResults.rb_decay_coefficient_std := Fin s_rb;
             IRBResults.irb_decay_coefficient := Fin r_irb;
             IRBResults.irb_decay_coefficient_std := Fin s_irb;
             IRBResults.average_interleaved_gate_error :=
               Fin ((1 - r_irb / r_rb) * (1 - powerRZ 2 (- num_qubits self)));
             IRBResults.average_interleaved_gate_error_std :=
               Fin (sqrt ((s_irb / (2 * r_rb)) ^ 2
                          + (r_irb * s_rb / (2 * r_rb ^ 2)) ^ 2)) |}))
  /\ (well_conditioned self "RB" -> well_conditioned self "IRB" ->
        exists slope_rb stderr_rb slope_irb stderr_irb : R,
          fit self "RB" = Ok {| slope := Fin slope_rb; stderr := Fin stderr_rb |}
          /\ fit self "IRB" = Ok {| slope := Fin slope_irb; stderr := Fin stderr_irb |}
          /\ 0 <= stderr_rb /\ 0 <= stderr_irb).
Proof.
  intros Hgate. split.
  - intros slope_rb stderr_rb slope_irb stderr_irb Hrb Hirb r_rb s_rb r_irb s_irb.
    assert (Hpos : 0 < r_rb) by apply exp_pos.
    unfold analyze_results.
    rewrite Hrb, result_bind_Ok, Hgate, Hirb, result_bind_Ok.
    cbn [slope stderr fexp fmul pow2neg fsub fopp fadd].
    fold r_rb r_irb. fold s_rb s_irb.
    rewrite !fdiv_Fin by nra.
    cbn [fmul fsub fopp fadd].
    rewrite fsqrt_Fin by nra.
    cbn [mret result_ret]. do 3 f_equal.
    apply Fin_eq. f_equal. field. lra.
  - intros Hrb Hirb.
    destruct (well_conditioned_fit self "RB" Hrb) as (s1 & e1 & E1 & He1).
    destruct (well_conditioned_fit self "IRB" Hirb) as (s2 & e2 & E2 & He2).
    exists s1, e1, s2, e2. auto.
Qed.

(** The theorem on the table [six_rows] with Z interleaved. *)
Lemma interleaved_gate_error_estimate_witness :
  exists slope_rb stderr_rb slope_irb stderr_irb : R,
    analyze_results (irb_table six_rows)
    = Ok (IRBr
        {| IRBResults.target := "ss_unconstrained_simulator";
           IRBResults.total_circuits := 0;
           IRBResults.rb_decay_coefficient := Fin (exp slope_rb);
           IRBResults.rb_decay_coefficient_std := Fin (stderr_rb * exp slope_rb);
           IRBResults.irb_decay_coefficient := Fin (exp slope_irb);
           IRBResults.irb_decay_coefficient_std := Fin (stderr_irb * exp slope_irb);
           IRBResults.average_interleaved_gate_error :=
             Fin ((1 - exp slope_irb / exp slope_rb) * (1 - powerRZ 2 (- (1))));
           IRBResults.average_interleaved_gate_error_std :=
             Fin (sqrt ((stderr_irb * exp slope_irb / (2 * exp slope_rb)) ^ 2
                        + (exp slope_irb * (stderr_rb * exp slope_rb)
                           / (2 * exp slope_rb ^ 2)) ^ 2)) |}).
Proof.
  destruct (interleaved_gate_error_estimate (irb_table six_rows) Cirq.Gate.Z eq_refl)
    as (formula & fitted).
  destruct fitted as (s1 & e1 & s2 & e2 & E1 & E2 & _).
  - apply six_rows_well_conditioned. left. reflexivity.
  - apply six_rows_well_conditioned. right. reflexivity.
  - exists s1, e1, s2, e2. apply (formula s1 e1 s2 e2 E1 E2).
Defined.

End Estimates.

(** ** The experiment without interleaving *)

Section PlainExperiment.
Import NumPy SciPy BaseExperiment Supermarq.
Local Open Scope R_scope.

Lemma variants_plain (self : IRB) (d : Z) :
  interleaved_gate self = None -> variants self d = [(d, "RB"%string)].
Proof. unfold variants. intros ->. reflexivity. Qed.

Lemma flat_map_plain (self : IRB) (todo : list (nat * Z)) :
  interleaved_gate self = None ->
  flat_map (fun td => variants self td.2) todo = map (fun td => (td.2, "RB"%string)) todo.
Proof.
  intros Hgate. induction todo as [|td todo IH]; [reflexivity|].
  cbn [flat_map map]. rewrite IH, (variants_plain self _ Hgate). reflexivity.
Qed.

Lemma three_rows_above_half : Forall above_half three_rows.
Proof.
  repeat constructor; eexists; (split; [reflexivity|]); split;
    try reflexivity; lra.
Qed.

Lemma three_rows_well_conditioned : well_conditioned (rb_table three_rows) "RB".
Proof.
  unfold well_conditioned, usable.
  rewrite (fitted_rows_above_half (rb_table three_rows) "RB" three_rows_above_half).
  pose proof three_rows_above_half as Hall.
  repeat (apply Forall_cons in Hall as [? Hall]).
  split; [simpl; lia|]. split; [reflexivity|].
  repeat constructor; apply positive_survival_above_half; assumption.
Qed.

(** C6. Without an interleaving gate, every sample the builder returns is a
    plain (RB) sample, one for each trial and depth in order, and for
    strictly positive depths the builder does return; the analysis, from a
    finite fit of slope [s] and standard error [e], reports the average
    gate error [(1 - 2 ^ (- n)) * (1 - exp s)] and its standard deviation
    [(1 - 2 ^ (- n)) * (e * exp s)], for [n] qubits and the decay
    coefficient [exp s] of standard deviation [e * exp s]; the fit is finite
    whenever two or more usable RB rows remain, of positive survival
    probability and not all at one depth. *)
Theorem plain_experiment (self : IRB) :
  interleaved_gate self = None ->
  (forall num_circuits cycle_depths s samples s',
      _build_circuits self num_circuits cycle_depths s = Ok (samples, s') ->
      Forall (fun x => experiment (data x) = "RB"%string) samples
      /\ map (fun x => num_cycles (data x)) samples
         = map snd (product num_circuits cycle_depths)
      /\ length samples = (range_len num_circuits * length cycle_depths)%nat)
  /\ (forall num_circuits cycle_depths s,
        Forall (fun d => (0 < d)%Z) cycle_depths ->
        exists samples s',
          _build_circuits self num_circuits cycle_depths s = Ok (samples, s'))
  /\ (forall s e,
        fit self "RB" = Ok {| slope := Fin s; stderr := Fin e |} ->
        analyze_results self
        = Ok (RB {| RBResults.target := join_targets self;
                    RBResults.total_circuits := length (samples self);
                    RBResults.rb_decay_coefficient := Fin (exp s);
                    RBResults.rb_decay_coefficient_std := Fin (e * exp s);
                    RBResults.average_gate_error :=
                      Fin ((1 - powerRZ 2 (- num_qubits self)) * (1 - exp s));
                    RBResults.average_gate_error_std :=
                      Fin ((1 - powerRZ 2 (- num_qubits self)) * (e * exp s)) |}))
  /\ (well_conditioned self "RB" ->
        exists s e,
          fit self "RB" = Ok {| slope := Fin s; stderr := Fin e |} /\ 0 <= e).
Proof.
  intros Hgate. split; [|split; [|split]].
  - intros n depths s l s' E. unfold _build_circuits in E.
    apply build_loop_tags in E. cbn [map app] in E.
    rewrite (flat_map_plain self _ Hgate) in E.
    assert (Hexp : map (fun x => experiment (data x)) l
                   = map (fun _ => "RB"%string) (product n depths)).
    { apply (f_equal (map snd)) in E. rewrite !map_map in E. exact E. }
    assert (Hdepth : map (fun x => num_cycles (data x)) l = map snd (product n depths)).
    { apply (f_equal (map fst)) in E. rewrite !map_map in E. exact E. }
    split; [|split; [exact Hdepth|]].
    + apply List.Forall_forall. intros x Hx.
      assert (Hin : In (experiment (data x)) (map (fun x => experiment (data x)) l))
        by (apply in_map_iff; eauto).
      rewrite Hexp in Hin. apply in_map_iff in Hin as (td & <- & _). reflexivity.
    + rewrite <- (length_map (fun x => num_cycles (data x))), Hdepth, length_map.
      apply product_length.
  - intros n depths s Hpos. unfold _build_circuits.
    destruct (build_loop_positive self (product n depths) [] s) as (l & s' & E & _).
    + apply product_positive, Hpos.
    + constructor.
    + eauto.
  - intros s e Hfit. apply analyze_results_plain; assumption.
  - apply well_conditioned_fit.
Qed.

(** The theorem on the experiment whose table is [three_rows]. *)
Lemma plain_experiment_witness :
  (exists samples s',
     _build_circuits (rb_table three_rows) 2 [1; 2]%Z (source_of 0 0) = Ok (samples, s')
     /\ Forall (fun x => experiment (data x) = "RB"%string) samples
     /\ length samples = 4%nat)
  /\ exists s e,
       analyze_results (rb_table three_rows)
       = Ok (RB {| RBResults.target := "ss_unconstrained_simulator";
                   RBResults.total_circuits := 0;
                   RBResults.rb_decay_coefficient := Fin (exp s);
                   RBResults.rb_decay_coefficient_std := Fin (e * exp s);
                   RBResults.average_gate_error :=
                     Fin ((1 - powerRZ 2 (- (1))) * (1 - exp s));
                   RBResults.average_gate_error_std :=
                     Fin ((1 - powerRZ 2 (- (1))) * (e * exp s)) |}).
Proof.
  destruct (plain_experiment (rb_table three_rows) eq_refl)
    as (only_rb & builds & reports & fitted).
  split.
  - destruct (builds 2%Z [1; 2]%Z (source_of 0 0)) as (l & s' & E).
    { repeat constructor. }
    exists l, s'. split; [exact E|].
    destruct (only_rb _ _ _ _ _ E) as (Hrb & _ & Hlen). split; assumption.
  - destruct (fitted three_rows_well_conditioned) as (s & e & Es & _).
    exists s, e. apply (reports s e Es).
Defined.

End PlainExperiment.

(** ** The builder on every input *)

Section BuilderExtras.
Import Cirq BaseExperiment Supermarq.

Lemma samples_of_closed (self : IRB) (depth : Z) g gs :
  exists new,
    samples_of self depth (clifford_circuit (g :: gs)) = Ok new
    /\ Forall closed_sample new
    /\ map tag new = variants self depth.
Proof.
  pose proof (samples_of_nonempty self depth g gs) as E. cbv zeta in E.
  eexists. split; [exact E|]. split.
  - constructor.
    + eexists. split; [reflexivity|]. split; [apply closing_product|].
      cbn [data circuit_depth]. rewrite length_app. simpl length. lia.
    + destruct (interleaved_gate self) as [c|]; constructor; [|constructor].
      eexists. split; [reflexivity|]. split; [apply closing_product|].
      cbn [data circuit_depth]. rewrite length_app, interleaved_length.
      simpl length. lia.
  - unfold variants. destruct (interleaved_gate self); reflexivity.
Qed.

Lemma samples_of_empty (self : IRB) (depth : Z) :
  samples_of self depth (clifford_circuit []) = Raise IndexError.
Proof. reflexivity. Qed.

Lemma build_loop_succeeds (self : IRB) (todo : list (nat * Z)) : forall acc s,
  Forall (fun td : nat * Z => 0 < td.2) todo ->
  exists new,
    build_loop self todo acc s = Ok (acc ++ new, advance (2 * gates_drawn todo) s)
    /\ Forall closed_sample new
    /\ map tag new = flat_map (fun td => variants self td.2) todo.
Proof.
  induction todo as [|[t depth] todo IH]; intros acc s Hpos.
  - exists []. rewrite app_nil_r. split; [|split; [constructor|reflexivity]].
    destruct s. reflexivity.
  - apply Forall_cons in Hpos as [Hd Hpos]. cbn [snd] in Hd.
    destruct (random_operations_total (range_len depth) s) as (gs & Hlen & Egs).
    destruct gs as [|g gs].
    { exfalso. unfold range_len in Hlen. simpl in Hlen. lia. }
    destruct (samples_of_closed self depth g gs) as (new & En & Hclosed & Htags).
    destruct (IH (acc ++ new) (advance (2 * range_len depth) s) Hpos)
      as (more & Emore & Hmore & Hmtags).
    exists (new ++ more).
    cbn [build_loop]. rewrite Egs, result_bind_Ok. cbv beta iota.
    rewrite En, result_bind_Ok, Emore, advance_advance, app_assoc.
    split; [|split].
    + f_equal. f_equal. f_equal. unfold gates_drawn. cbn [fold_right snd]. lia.
    + apply Forall_app. split; assumption.
    + rewrite map_app, Htags, Hmtags. reflexivity.
Qed.

Lemma build_loop_fails (self : IRB) (todo : list (nat * Z)) : forall acc s,
  Exists (fun td : nat * Z => td.2 <= 0) todo ->
  build_loop self todo acc s = Raise IndexError.
Proof.
  induction todo as [|[t depth] todo IH]; intros acc s Hex.
  - inversion Hex.
  - destruct (Z_le_gt_dec depth 0) as [Hd|Hd].
    + cbn [build_loop]. unfold range_len.
      replace (Z.to_nat depth) with 0%nat by lia.
      cbn [random_operations]. rewrite result_bind_Ok. cbv beta iota.
      change [] with (clifford_circuit []) at 1.
      rewrite samples_of_empty. reflexivity.
    + apply Exists_cons in Hex as [Hhead|Htail]; [cbn [snd] in Hhead; lia|].
      destruct (random_operations_total (range_len depth) s) as (gs & Hlen & Egs).
      destruct gs as [|g gs].
      { exfalso. unfold range_len in Hlen. simpl in Hlen. lia. }
      destruct (samples_of_closed self depth g gs) as (new & En & _).
      cbn [build_loop]. rewrite Egs, result_bind_Ok. cbv beta iota.
      rewrite En, result_bind_Ok. apply IH, Htail.
Qed.

Lemma product_nil_trials n depths : n <= 0 -> product n depths = [].
Proof.
  intros Hn. unfold product, range_len.
  replace (Z.to_nat n) with 0%nat by lia. reflexivity.
Qed.

Lemma in_product n depths d :
  0 < n -> In d depths -> In (0%nat, d) (product n depths).
Proof.
  intros Hn Hd. unfold product. apply in_prod; [|exact Hd].
  apply in_seq. unfold range_len. lia.
Qed.

Lemma gates_drawn_app l1 l2 :
  gates_drawn (l1 ++ l2) = (gates_drawn l1 + gates_drawn l2)%nat.
Proof.
  unfold gates_drawn. induction l1 as [|td l1 IH]; cbn [app fold_right]; [reflexivity|].
  rewrite IH. lia.
Qed.

Lemma gates_drawn_trial (t : nat) depths :
  gates_drawn (map (fun y => (t, y)) depths) = gates_drawn (map (pair 0%nat) depths).
Proof.
  unfold gates_drawn. induction depths as [|d ds IHd]; [reflexivity|].
  cbn [map fold_right snd]. rewrite IHd. reflexivity.
Qed.

Lemma gates_drawn_product n depths :
  gates_drawn (product n depths)
  = (range_len n * gates_drawn (map (pair 0%nat) depths))%nat.
Proof.
  unfold product. generalize 0%nat at 1.
  induction (range_len n) as [|k IH]; intros start; [reflexivity|].
  cbn [seq list_prod]. rewrite gates_drawn_app, IH, gates_drawn_trial. lia.
Qed.

(** X1. [_build_circuits] returns exactly when there is no trial or every
    depth is strictly positive; with a trial to build and a depth of 0 or
    less it raises [IndexError], whatever the experiment and the random
    source. Without a trial it returns no sample and draws nothing. *)
Theorem build_circuits_outcome (self : IRB) (num_circuits : Z)
    (cycle_depths : list Z) (s : rng) :
  (num_circuits <= 0 ->
     _build_circuits self num_circuits cycle_depths s = Ok ([], s))
  /\ (Forall (fun d => 0 < d) cycle_depths ->
        exists samples s',
          _build_circuits self num_circuits cycle_depths s = Ok (samples, s'))
  /\ (0 < num_circuits -> Exists (fun d => d <= 0) cycle_depths ->
        _build_circuits self num_circuits cycle_depths s = Raise IndexError)
  /\ ((exists out, _build_circuits self num_circuits cycle_depths s = Ok out)
      <-> num_circuits <= 0 \/ Forall (fun d => 0 < d) cycle_depths).
Proof.
  assert (none : num_circuits <= 0 ->
                 _build_circuits self num_circuits cycle_depths s = Ok ([], s)).
  { intros Hn. unfold _build_circuits. rewrite product_nil_trials by exact Hn.
    reflexivity. }
  assert (all : Forall (fun d => 0 < d) cycle_depths ->
                exists samples s',
                  _build_circuits self num_circuits cycle_depths s = Ok (samples, s')).
  { intros Hpos. unfold _build_circuits.
    destruct (build_loop_succeeds self (product num_circuits cycle_depths) [] s)
      as (new & E & _); [apply product_positive, Hpos|].
    eexists _, _. exact E. }
  assert (some : 0 < num_circuits -> Exists (fun d => d <= 0) cycle_depths ->
                 _build_circuits self num_circuits cycle_depths s = Raise IndexError).
  { intros Hn Hex. unfold _build_circuits. apply build_loop_fails.
    apply List.Exists_exists in Hex as (d & Hd & Hle).
    apply List.Exists_exists. exists (0%nat, d). split; [|exact Hle].
    apply in_product; assumption. }
  split; [exact none|]. split; [exact all|]. split; [exact some|].
  split.
  - intros (out & E).
    destruct (Z_le_gt_dec num_circuits 0) as [Hn|Hn]; [left; exact Hn|right].
    apply Forall_forall. intros d Hd.
    destruct (Z_le_gt_dec d 0) as [Hle|Hgt]; [|lia].
    exfalso. rewrite some in E; [discriminate|lia|].
    apply List.Exists_exists. exists d. split; [|exact Hle].
    apply list_elem_of_In, Hd.
  - intros [Hn|Hpos].
    + eexists. apply none, Hn.
    + destruct (all Hpos) as (l & s' & E). eauto.
Qed.

Lemma gates_drawn_depths depths :
  gates_drawn (map (pair 0%nat) depths)
  = fold_right (fun d k => (Z.to_nat d + k)%nat) 0%nat depths.
Proof.
  unfold gates_drawn. induction depths as [|d ds IH]; [reflexivity|].
  cbn [map fold_right snd]. rewrite IH. reflexivity.
Qed.

Lemma advance_zero s : advance 0 s = s.
Proof. destruct s. reflexivity. Qed.

(** X2. A run of [_build_circuits] that returns has read two numbers from
    the random source for every Clifford gate of every base sequence, that
    is [2 * num_circuits * sum of the depths] numbers in all, and leaves the
    source right after them. *)
Theorem build_circuits_draws (self : IRB) (num_circuits : Z)
    (cycle_depths : list Z) (s s' : rng) (samples : list Sample) :
  _build_circuits self num_circuits cycle_depths s = Ok (samples, s') ->
  s' = advance (2 * (range_len num_circuits
                     * fold_right (fun d k => (Z.to_nat d + k)%nat) 0%nat cycle_depths)) s.
Proof.
  intros E. unfold _build_circuits in E.
  rewrite <- gates_drawn_depths, <- gates_drawn_product.
  destruct (Z_le_gt_dec num_circuits 0) as [Hn|Hn].
  - rewrite product_nil_trials in * by exact Hn.
    injection E as _ <-. symmetry. apply advance_zero.
  - assert (Hpos : Forall (fun d => 0 < d) cycle_depths).
    { apply Forall_forall. intros d Hd.
      destruct (Z_le_gt_dec d 0) as [Hle|Hgt]; [|lia].
      exfalso. rewrite build_loop_fails in E; [discriminate|].
      apply List.Exists_exists. exists (0%nat, d). split; [|exact Hle].
      apply in_product; [lia|]. apply list_elem_of_In, Hd. }
    destruct (build_loop_succeeds self (product num_circuits cycle_depths) [] s)
      as (new & E' & _); [apply product_positive, Hpos|].
    rewrite E' in E. injection E as _ <-. reflexivity.
Qed.

(** X3. Every sample that [_build_circuits] returns holds a closed circuit:
    Clifford gates whose product is the identity, as many as the sample's
    [circuit_depth], followed by the measurement. *)
Theorem build_circuits_closed (self : IRB) (num_circuits : Z)
    (cycle_depths : list Z) (s s' : rng) (samples : list Sample) :
  _build_circuits self num_circuits cycle_depths s = Ok (samples, s') ->
  Forall closed_sample samples.
Proof.
  intros E. unfold _build_circuits in E.
  destruct (Z_le_gt_dec num_circuits 0) as [Hn|Hn].
  - rewrite product_nil_trials in E by exact Hn. injection E as <- _. constructor.
  - assert (Hpos : Forall (fun d => 0 < d) cycle_depths).
    { apply Forall_forall. intros d Hd.
      destruct (Z_le_gt_dec d 0) as [Hle|Hgt]; [|lia].
      exfalso. rewrite build_loop_fails in E; [discriminate|].
      apply List.Exists_exists. exists (0%nat, d). split; [|exact Hle].
      apply in_product; [lia|]. apply list_elem_of_In, Hd. }
    destruct (build_loop_succeeds self (product num_circuits cycle_depths) [] s)
      as (new & E' & Hclosed & _); [apply product_positive, Hpos|].
    rewrite E' in E. injection E as <- _. exact Hclosed.
Qed.
End BuilderExtras.

(** ** Every sequence can be drawn *)

Section DrawnSequences.
Import Cirq BaseExperiment Supermarq.

Lemma index_pair_of_composition (g : SingleQubitCliffordGate) :
  composition (index_pair_of g) = Some g
  /\ ((index_pair_of g).1 < 6)%nat /\ ((index_pair_of g).2 < 4)%nat.
Proof. revert g. apply (bool_decide_unpack _). vm_compute. exact Logic.I. Qed.

Lemma random_clifford_at (s : rng) (g : SingleQubitCliffordGate) :
  draws s (pos s) = (index_pair_of g).1 ->
  draws s (S (pos s)) = (index_pair_of g).2 ->
  _random_single_qubit_clifford s = Ok (g, advance 2 s).
Proof.
  intros H1 H2.
  destruct (index_pair_of_composition g) as (Hc & Hi & Hj).
  destruct (random_clifford_draws s) as (g' & Hc' & E).
  rewrite H1, H2, !Nat.mod_small in Hc' by assumption.
  destruct (index_pair_of g) as [i j]. cbn [fst snd] in *.
  rewrite Hc in Hc'. injection Hc' as <-. exact E.
Qed.

Lemma random_operations_from (gs : list SingleQubitCliffordGate) : forall s,
  (forall k, (k < 2 * length gs)%nat ->
             draws s (pos s + k)%nat = nth k (draws_for gs) 0%nat) ->
  random_operations (length gs) s
  = Ok (clifford_circuit gs, advance (2 * length gs) s).
Proof.
  induction gs as [|g gs IH]; intros s Hs.
  - cbn. rewrite advance_zero. reflexivity.
  - cbn [length random_operations].
    rewrite (random_clifford_at s g).
    + rewrite result_bind_Ok. cbv beta iota.
      rewrite (IH (advance 2 s)).
      * rewrite result_bind_Ok. cbv beta iota. rewrite advance_advance.
        cbn [mret result_ret]. do 2 f_equal. f_equal. lia.
      * intros k Hk. cbn [advance draws pos].
        replace (2 + pos s + k)%nat with (pos s + S (S k))%nat by lia.
        rewrite Hs by (cbn [length]; lia). reflexivity.
    + specialize (Hs 0%nat). rewrite Nat.add_0_r in Hs. apply Hs. cbn [length]. lia.
    + specialize (Hs 1%nat). rewrite Nat.add_1_r in Hs. apply Hs. cbn [length]. lia.
Qed.

(** X4. Every sequence of Clifford gates can be the base sequence that the
    builder draws: a random source that starts with the two index draws of
    each gate makes the list comprehension of [_build_circuits] return
    exactly that sequence, having read two numbers per gate. *)
Theorem every_sequence_drawn (gs : list SingleQubitCliffordGate) :
  length (draws_for gs) = (2 * length gs)%nat
  /\ random_operations (length gs) (source_from (draws_for gs))
     = Ok (clifford_circuit gs, advance (2 * length gs) (source_from (draws_for gs))).
Proof.
  split.
  - unfold draws_for. induction gs as [|g gs IH]; cbn [flat_map length app]; lia.
  - apply random_operations_from. intros k _. reflexivity.
Qed.

End DrawnSequences.

(** ** Values that are not finite *)

Section NonFinite.
Import NumPy SciPy.
Local Open Scope R_scope.

Lemma fadd_absorbs (r x e : float) :
  ~ finite e -> absorbs r e -> absorbs (fadd r x) e.
Proof.
  unfold absorbs. destruct e, r, x; simpl; intros Hf H;
    try reflexivity; try discriminate; try (exfalso; apply Hf; exact Logic.I).
Qed.

Lemma fadd_absorbs_new (r e : float) : ~ finite e -> absorbs (fadd r e) e.
Proof.
  unfold absorbs. destruct e, r; simpl; intros Hf;
    try reflexivity; try (exfalso; apply Hf; exact Logic.I).
Qed.

Lemma fold_fadd_absorbs (l : list float) (e : float) : forall acc,
  ~ finite e -> absorbs acc e \/ In e l -> absorbs (fold_left fadd l acc) e.
Proof.
  induction l as [|x l IH]; intros acc Hf [Hacc|Hin]; cbn [fold_left].
  - exact Hacc.
  - destruct Hin.
  - apply IH; [exact Hf|]. left. apply fadd_absorbs; assumption.
  - destruct Hin as [->|Hin].
    + apply IH; [exact Hf|]. left. apply fadd_absorbs_new, Hf.
    + apply IH; [exact Hf|]. right. exact Hin.
Qed.

Lemma mean_absorbs (l : list float) (e : float) :
  ~ finite e -> In e l -> absorbs (mean l) e.
Proof.
  intros Hf Hin. unfold mean.
  pose proof (fold_fadd_absorbs l e (Fin 0) Hf (or_intror Hin)) as H.
  fold (fsum l) in H.
  assert (Hn : 0 < INR (length l)).
  { apply lt_0_INR. destruct l; [destruct Hin|simpl; lia]. }
  revert H. unfold absorbs.
  destruct e, (fsum l) as [a| | |]; simpl; intros H;
    try reflexivity; try discriminate; try (exfalso; apply Hf; exact Logic.I);
    destruct (Rlt_dec (INR (length l)) 0); try lra; try reflexivity.
Qed.

Lemma fold_fadd_NaN (l : list float) : forall acc,
  acc = NaN \/ In NaN l -> fold_left fadd l acc = NaN.
Proof.
  induction l as [|x l IH]; intros acc [Hacc|Hin]; cbn [fold_left].
  - exact Hacc.
  - destruct Hin.
  - apply IH. left. subst. reflexivity.
  - destruct Hin as [->|Hin].
    + apply IH. left. destruct acc; reflexivity.
    + apply IH. right. exact Hin.
Qed.

Lemma mean_NaN_in (l : list float) : In NaN l -> mean l = NaN.
Proof.
  intros Hin. unfold mean, fsum. rewrite fold_fadd_NaN by (right; exact Hin).
  reflexivity.
Qed.

Lemma zip_with_fmul_NaN (u v : list float) :
  length u = length v -> In NaN v -> In NaN (zip_with fmul u v).
Proof.
  revert v. induction u as [|a u IH]; intros [|b v] Hlen Hin;
    try discriminate; try (destruct Hin; fail).
  cbn [zip_with]. destruct Hin as [->|Hin].
  - left. destruct a; reflexivity.
  - right. apply IH; [simpl in Hlen; lia|exact Hin].
Qed.

(** The covariance with a series that holds an infinity or NaN is NaN. *)
Lemma cov_nonfinite (u v : list float) (e : float) :
  length u = length v -> In e v -> ~ finite e -> cov u v = NaN.
Proof.
  intros Hlen Hin Hf. unfold cov. apply mean_NaN_in, zip_with_fmul_NaN.
  - rewrite !length_map. exact Hlen.
  - apply in_map_iff. exists e. split; [|exact Hin].
    apply (mean_absorbs v e Hf Hin).
Qed.

(** A regression over ordinates that hold an infinity or NaN never returns
    a slope: what it returns is NaN. *)
Lemma linregress_nonfinite (x : list Z) (y : list float) (e : float) (res : LinregressResult) :
  length x = length y -> In e y -> ~ finite e ->
  linregress x y = Ok res -> slope res = NaN.
Proof.
  intros Hlen Hin Hf. unfold linregress.
  assert (Hc : cov (map of_int x) y = NaN).
  { apply (cov_nonfinite _ _ e); [rewrite length_map; exact Hlen|exact Hin|exact Hf]. }
  rewrite Hc.
  destruct ((length x =? 0)%nat || (length y =? 0)%nat); [discriminate|].
  destruct (all_identical x && (1 <? length x)%nat); [discriminate|].
  destruct (length x =? 2)%nat; intros [= <-]; reflexivity.
Qed.

End NonFinite.

(** ** A row measured at one half *)

Section Poisoned.
Import NumPy SciPy BaseExperiment Supermarq.
Local Open Scope R_scope.

Lemma fitted_rows_kept (self : IRB) (name : string) :
  Forall (fun r => has_nan (add_columns r) = false) (raw_data self) ->
  fitted_rows self name = query name (map add_columns (raw_data self)).
Proof.
  unfold fitted_rows, prepared, dropna. intros Hall. f_equal.
  induction (raw_data self) as [|r rows IH]; [reflexivity|].
  apply Forall_cons in Hall as [Hr Hall].
  cbn [map List.filter]. rewrite Hr. cbn [negb]. rewrite (IH Hall). reflexivity.
Qed.

Lemma linregress_returns (x : list Z) (y : list float) :
  length x = length y -> all_identical x = false ->
  exists res, linregress x y = Ok res.
Proof.
  intros Hlen Hid. unfold linregress. rewrite <- Hlen, Hid.
  destruct x as [|x0 x]; [discriminate|]. cbn [length Nat.eqb orb andb].
  destruct (length x =? 1)%nat; eexists; reflexivity.
Qed.

Lemma fit_lengths (self : IRB) (name : string) :
  length (map (fun a => clifford_depth (row a)) (fitted_rows self name))
  = length (map (fun a => log (survival_prob a)) (fitted_rows self name)).
Proof. rewrite !length_map. reflexivity. Qed.

Lemma fit_nonfinite (self : IRB) (name : string) (a : ARow) (model : LinregressResult) :
  In a (fitted_rows self name) -> ~ finite (log (survival_prob a)) ->
  fit self name = Ok model -> slope model = NaN.
Proof.
  intros Hin Hf. unfold fit.
  apply (linregress_nonfinite _ _ (log (survival_prob a))).
  - apply fit_lengths.
  - apply in_map_iff. exists a. split; [reflexivity|exact Hin].
  - exact Hf.
Qed.

(** After a fit whose slope is NaN the decay coefficient and the gate error
    are NaN. *)
Lemma analyze_results_nonfinite (self : IRB) (name : string) (a : ARow) (res : Results) :
  required self name ->
  In a (fitted_rows self name) -> ~ finite (log (survival_prob a)) ->
  analyze_results self = Ok res ->
  decay_coefficient res name = Some NaN /\ gate_error res = NaN.
Proof.
  intros Hreq Hin Hf. unfold analyze_results.
  destruct (fit self "RB") as [rb|e] eqn:Erb; [|discriminate].
  rewrite result_bind_Ok.
  destruct (interleaved_gate self) as [c|] eqn:Hgate.
  - destruct (fit self "IRB") as [irb|e] eqn:Eirb; [|discriminate].
    rewrite result_bind_Ok. intros [= <-].
    destruct Hreq as [->|[-> _]].
    + rewrite (fit_nonfinite self "RB" a rb Hin Hf Erb).
      cbn [decay_coefficient gate_error String.eqb Ascii.eqb Bool.eqb
           IRBResults.rb_decay_coefficient IRBResults.average_interleaved_gate_error
           fexp].
      split; [reflexivity|]. rewrite fdiv_NaN_r. reflexivity.
    + rewrite (fit_nonfinite self "IRB" a irb Hin Hf Eirb).
      cbn [decay_coefficient gate_error String.eqb Ascii.eqb Bool.eqb
           IRBResults.irb_decay_coefficient IRBResults.average_interleaved_gate_error
           fexp].
      split; [reflexivity|]. rewrite fdiv_NaN_l. reflexivity.
  - intros [= <-]. destruct Hreq as [->|[_ Hne]]; [|contradiction].
    rewrite (fit_nonfinite self "RB" a rb Hin Hf Erb).
    split; reflexivity.
Qed.

(** X5. A row measured at exactly one half spoils the estimate of its
    variant: its survival probability is 0, the logarithm is minus
    infinity, [dropna] keeps the row, and whenever [analyze_results]
    returns, the decay coefficient of that variant and the reported gate
    error are NaN. *)
Theorem half_row_spoils_estimate (self : IRB) (name : string) (r : Row) (res : Results) :
  required self name ->
  In r (raw_data self) -> row_experiment r = name ->
  P0 r = Fin (1 / 2) -> isnan (P1 r) = false ->
  analyze_results self = Ok res ->
  In (add_columns r) (fitted_rows self name)
  /\ decay_coefficient res name = Some NaN
  /\ gate_error res = NaN.
Proof.
  intros Hreq Hin Hname Hp H1 E.
  assert (Hlog : log (survival_prob (add_columns r)) = NInf).
  { unfold add_columns. cbn [survival_prob]. rewrite Hp.
    cbn [fmul fsub fopp fadd]. apply log_zero. lra. }
  assert (Hfit : In (add_columns r) (fitted_rows self name)).
  { apply fitted_rows_In. exists r. split; [exact Hin|]. split; [reflexivity|].
    split; [|exact Hname].
    unfold has_nan. cbn [add_columns row log_survival_prob survival_prob].
    change (log (fsub (fmul (Fin 2) (P0 r)) (Fin 1)))
      with (log (survival_prob (add_columns r))).
    rewrite Hlog, H1, Hp. reflexivity. }
  split; [exact Hfit|].
  apply (analyze_results_nonfinite self name (add_columns r) res Hreq Hfit).
  - rewrite Hlog. intros [].
  - exact E.
Qed.

Lemma half_rows_returns : exists res, analyze_results (rb_table half_rows) = Ok res.
Proof.
  unfold analyze_results.
  assert (Hkept : Forall (fun r => has_nan (add_columns r) = false)
                         (raw_data (rb_table half_rows))).
  { repeat constructor.
    - apply (has_nan_above_half _ 1); try reflexivity. lra.
    - unfold has_nan, add_columns.
      cbn [row survival_prob log_survival_prob rb_row P0 P1 fmul fsub fopp fadd isnan orb].
      rewrite log_zero by lra. reflexivity. }
  destruct (linregress_returns
              (map (fun a => clifford_depth (row a)) (fitted_rows (rb_table half_rows) "RB"))
              (map (fun a => log (survival_prob a)) (fitted_rows (rb_table half_rows) "RB")))
    as (model & Emodel).
  - apply fit_lengths.
  - rewrite (fitted_rows_kept _ _ Hkept). reflexivity.
  - unfold fit. rewrite Emodel, result_bind_Ok. eexists. reflexivity.
Qed.

Lemma half_row_spoils_estimate_witness :
  exists res,
    analyze_results (rb_table half_rows) = Ok res
    /\ decay_coefficient res "RB" = Some NaN
    /\ gate_error res = NaN.
Proof.
  destruct half_rows_returns as (res & E). exists res. split; [exact E|].
  destruct (half_row_spoils_estimate (rb_table half_rows) "RB"
              (rb_row 2 (1 / 2) (1 / 2)) res) as (_ & Hd & Hg); auto.
  - left. reflexivity.
  - right. left. reflexivity.
Defined.

End Poisoned.

(** ** The two analyses compared *)

Section CrossAnalysis.
Import NumPy SciPy BaseExperiment Supermarq.
Local Open Scope R_scope.

Lemma half_power : powerRZ 2 (- (1)) = / 2.
Proof. simpl. lra. Qed.

(** For one qubit the factor [1 - 2 ** -n] halves. *)
Lemma half_scale (x : float) :
  fmul x (fsub (Fin 1) (pow2neg 1)) = fdiv x (Fin 2).
Proof.
  unfold pow2neg. rewrite half_power. cbn [fsub fopp fadd].
  destruct x as [a| | |]; cbn [fmul]; [|cbn [fdiv]..].
  - rewrite fdiv_Fin by lra. apply Fin_eq. lra.
  - unfold scale_inf. destruct (Req_EM_T (1 + - / 2) 0); [lra|].
    destruct (Rlt_dec 0 (1 + - / 2)); [|lra].
    destruct (Rlt_dec 2 0); [lra|reflexivity].
  - unfold scale_inf. destruct (Req_EM_T (1 + - / 2) 0); [lra|].
    destruct (Rlt_dec 0 (1 + - / 2)); [|lra].
    destruct (Rlt_dec 2 0); [lra|reflexivity].
  - reflexivity.
Qed.

Lemma css_fit (self : IRB) (c : Cirq.SingleQubitCliffordGate) (name : string) :
  Forall (fun r => has_nan (add_columns r) = false) (raw_data self) ->
  CirqSuperstaqIRB.fit (as_cirq_superstaq self c) name = fit self name.
Proof.
  intros Hkept. unfold CirqSuperstaqIRB.fit, fit, CirqSuperstaqIRB.with_fidelity.
  rewrite (fitted_rows_kept self name Hkept). reflexivity.
Qed.

(** X6. On a table from which [dropna] removes nothing, and for one qubit,
    the two experiments agree: both raise the same error, or both return,
    with the same decay coefficients, the same standard deviations of
    these, and the same interleaved-gate error. *)
Theorem analyses_agree (self : IRB) (c : Cirq.SingleQubitCliffordGate) :
  interleaved_gate self = Some c -> num_qubits self = 1%Z ->
  Forall (fun r => has_nan (add_columns r) = false) (raw_data self) ->
  match analyze_results self, CirqSuperstaqIRB.analyse_results (as_cirq_superstaq self c) with
  | Ok (IRBr new), Ok old =>
      IRBResults.rb_decay_coefficient new
        = CirqSuperstaqIRB.IRBResults.rb_layer_fidelity old
      /\ IRBResults.rb_decay_coefficient_std new
         = CirqSuperstaqIRB.IRBResults.rb_layer_fidelity_std old
      /\ IRBResults.irb_decay_coefficient new
         = CirqSuperstaqIRB.IRBResults.irb_layer_fidelity old
      /\ IRBResults.irb_decay_coefficient_std new
         = CirqSuperstaqIRB.IRBResults.irb_layer_fidelity_std old
      /\ IRBResults.average_interleaved_gate_error new
         = CirqSuperstaqIRB.IRBResults.average_interleaved_gate_error old
  | Raise e, Raise e' => e = e'
  | _, _ => False
  end.
Proof.
  intros Hgate Hn Hkept.
  unfold analyze_results, CirqSuperstaqIRB.analyse_results.
  rewrite !(css_fit self c _ Hkept), Hgate, Hn.
  destruct (fit self "RB") as [rb|e]; [|reflexivity].
  rewrite !result_bind_Ok.
  destruct (fit self "IRB") as [irb|e]; [|reflexivity].
  rewrite !result_bind_Ok. cbn [mret result_ret].
  cbn [IRBResults.rb_decay_coefficient IRBResults.rb_decay_coefficient_std
       IRBResults.irb_decay_coefficient IRBResults.irb_decay_coefficient_std
       IRBResults.average_interleaved_gate_error
       CirqSuperstaqIRB.IRBResults.rb_layer_fidelity
       CirqSuperstaqIRB.IRBResults.rb_layer_fidelity_std
       CirqSuperstaqIRB.IRBResults.irb_layer_fidelity
       CirqSuperstaqIRB.IRBResults.irb_layer_fidelity_std
       CirqSuperstaqIRB.IRBResults.average_interleaved_gate_error].
  repeat (split; [reflexivity|]). apply half_scale.
Qed.

End CrossAnalysis.

(** ** The analysis of cirq-superstaq *)

Section CirqSuperstaqAnalysis.
Import NumPy SciPy BaseExperiment Supermarq.
Local Open Scope R_scope.

Lemma six_rows_kept :
  Forall (fun r => has_nan (add_columns r) = false) (raw_data (irb_table six_rows)).
Proof.
  eapply Forall_impl; [exact six_rows_above_half|].
  intros r (p & Hp & Hhalf & H1). apply (has_nan_above_half r p); assumption.
Qed.

Lemma analyses_agree_witness :
  match analyze_results (irb_table six_rows),
        CirqSuperstaqIRB.analyse_results (as_cirq_superstaq (irb_table six_rows) Cirq.Gate.Z) with
  | Ok (IRBr new), Ok old =>
      IRBResults.rb_decay_coefficient new
        = CirqSuperstaqIRB.IRBResults.rb_layer_fidelity old
      /\ IRBResults.rb_decay_coefficient_std new
         = CirqSuperstaqIRB.IRBResults.rb_layer_fidelity_std old
      /\ IRBResults.irb_decay_coefficient new
         = CirqSuperstaqIRB.IRBResults.irb_layer_fidelity old
      /\ IRBResults.irb_decay_coefficient_std new
         = CirqSuperstaqIRB.IRBResults.irb_layer_fidelity_std old
      /\ IRBResults.average_interleaved_gate_error new
         = CirqSuperstaqIRB.IRBResults.average_interleaved_gate_error old
  | Raise e, Raise e' => e = e'
  | _, _ => False
  end.
Proof.
  apply (analyses_agree (irb_table six_rows) Cirq.Gate.Z eq_refl eq_refl).
  exact six_rows_kept.
Defined.

Lemma css_fit_nonfinite (self : CirqSuperstaqIRB.IRB) (name : string) (r : Row)
    (model : LinregressResult) :
  In r (CirqSuperstaqIRB.raw_data self) -> row_experiment r = name ->
  ~ finite (log (survival r)) ->
  CirqSuperstaqIRB.fit self name = Ok model -> slope model = NaN.
Proof.
  intros Hin Hname Hf. unfold CirqSuperstaqIRB.fit.
  apply (linregress_nonfinite _ _ (log (survival r))).
  - rewrite !length_map. reflexivity.
  - apply in_map_iff. exists (add_columns r). split; [reflexivity|].
    unfold query, CirqSuperstaqIRB.with_fidelity. apply filter_In. split.
    + apply in_map, Hin.
    + apply String.eqb_eq. exact Hname.
  - exact Hf.
Qed.

Lemma log_at_most_zero (p : R) : p <= 1 / 2 -> ~ finite (log (Fin (2 * p + - (1)))).
Proof.
  intros Hp. unfold log.
  destruct (Rlt_dec (2 * p + - (1)) 0); [intros []|].
  destruct (Req_EM_T (2 * p + - (1)) 0); [intros []|lra].
Qed.

(** X7. The cirq-superstaq experiment drops no row. A row of either
    variant measured at one half or below spoils its estimates: whenever
    [analyse_results] returns, the layer fidelity of that variant, the gate
    error and its standard deviation are NaN. *)
Theorem css_low_row_spoils (self : CirqSuperstaqIRB.IRB) (name : string) (r : Row)
    (p : R) (res : CirqSuperstaqIRB.IRBResults.t) :
  name = "RB"%string \/ name = "IRB"%string ->
  In r (CirqSuperstaqIRB.raw_data self) -> row_experiment r = name ->
  P0 r = Fin p -> p <= 1 / 2 ->
  CirqSuperstaqIRB.analyse_results self = Ok res ->
  layer_fidelity res name = Some NaN
  /\ CirqSuperstaqIRB.IRBResults.average_interleaved_gate_error res = NaN
  /\ CirqSuperstaqIRB.IRBResults.average_interleaved_gate_error_std res = NaN.
Proof.
  intros Hname Hin Hexp Hp Hlow.
  assert (Hf : ~ finite (log (survival r))).
  { unfold survival. rewrite Hp. cbn [fmul fsub fopp fadd].
    apply log_at_most_zero, Hlow. }
  unfold CirqSuperstaqIRB.analyse_results.
  destruct (CirqSuperstaqIRB.fit self "RB") as [rb|e] eqn:Erb; [|discriminate].
  rewrite result_bind_Ok.
  destruct (CirqSuperstaqIRB.fit self "IRB") as [irb|e] eqn:Eirb; [|discriminate].
  rewrite result_bind_Ok. intros [= <-].
  cbn [CirqSuperstaqIRB.IRBResults.average_interleaved_gate_error
       CirqSuperstaqIRB.IRBResults.average_interleaved_gate_error_std].
  destruct Hname as [-> | ->].
  - rewrite (css_fit_nonfinite self "RB" r rb Hin Hexp Hf Erb).
    cbn [fexp]. rewrite fdiv_NaN_r. split; [reflexivity|]. split; reflexivity.
  - rewrite (css_fit_nonfinite self "IRB" r irb Hin Hexp Hf Eirb).
    cbn [fexp]. rewrite fdiv_NaN_l. split; [reflexivity|]. split; reflexivity.
Qed.

Lemma low_rows_return :
  exists res,
    CirqSuperstaqIRB.analyse_results (as_cirq_superstaq (irb_table low_rows) Cirq.Gate.Z) = Ok res.
Proof.
  unfold CirqSuperstaqIRB.analyse_results, CirqSuperstaqIRB.fit.
  destruct (linregress_returns [1; 2]%Z
              (map (fun a => log (survival_prob a))
                   (query "RB" (CirqSuperstaqIRB.with_fidelity
                                  (as_cirq_superstaq (irb_table low_rows) Cirq.Gate.Z)))))
    as (rb & Erb); [reflexivity|reflexivity|].
  destruct (linregress_returns [1; 2]%Z
              (map (fun a => log (survival_prob a))
                   (query "IRB" (CirqSuperstaqIRB.with_fidelity
                                   (as_cirq_superstaq (irb_table low_rows) Cirq.Gate.Z)))))
    as (irb & Eirb); [reflexivity|reflexivity|].
  change (map (fun a => clifford_depth (row a))
              (query "RB" (CirqSuperstaqIRB.with_fidelity
                             (as_cirq_superstaq (irb_table low_rows) Cirq.Gate.Z))))
    with [1; 2]%Z.
  change (map (fun a => clifford_depth (row a))
              (query "IRB" (CirqSuperstaqIRB.with_fidelity
                              (as_cirq_superstaq (irb_table low_rows) Cirq.Gate.Z))))
    with [1; 2]%Z.
  rewrite Erb, result_bind_Ok, Eirb, result_bind_Ok. eexists. reflexivity.
Qed.

Lemma css_low_row_spoils_witness :
  exists res,
    CirqSuperstaqIRB.analyse_results (as_cirq_superstaq (irb_table low_rows) Cirq.Gate.Z) = Ok res
    /\ layer_fidelity res "RB" = Some NaN
    /\ CirqSuperstaqIRB.IRBResults.average_interleaved_gate_error res = NaN.
Proof.
  destruct low_rows_return as (res & E). exists res. split; [exact E|].
  destruct (css_low_row_spoils (as_cirq_superstaq (irb_table low_rows) Cirq.Gate.Z) "RB"
              (rb_row 2 (1 / 4) (3 / 4)) (1 / 4) res) as (Hl & Hg & _); auto.
  - right. right. left. reflexivity.
  - lra.
Defined.

(** From finite fits, the estimates of the cirq-superstaq experiment. *)
Lemma css_estimate (self : CirqSuperstaqIRB.IRB)
    (slope_rb stderr_rb slope_irb stderr_irb : R) :
  CirqSuperstaqIRB.fit self "RB" = Ok {| slope := Fin slope_rb; stderr := Fin stderr_rb |} ->
  CirqSuperstaqIRB.fit self "IRB" = Ok {| slope := Fin slope_irb; stderr := Fin stderr_irb |} ->
  let r_rb := exp slope_rb in
  let r_irb := exp slope_irb in
  let error := (1 - r_irb / r_rb) / 2 in
  CirqSuperstaqIRB.analyse_results self
  = Ok {| CirqSuperstaqIRB.IRBResults.rb_layer_fidelity := Fin r_rb;
          CirqSuperstaqIRB.IRBResults.rb_layer_fidelity_std := Fin (stderr_rb * r_rb);
          CirqSuperstaqIRB.IRBResults.irb_layer_fidelity := Fin r_irb;
          CirqSuperstaqIRB.IRBResults.irb_layer_fidelity_std := Fin (stderr_irb * r_irb);
          CirqSuperstaqIRB.IRBResults.average_interleaved_gate_error := Fin error;
          CirqSuperstaqIRB.IRBResults.average_interleaved_gate_error_std :=
            Fin (error * sqrt (stderr_rb ^ 2 + stderr_irb ^ 2)) |}.
Proof.
  intros Hrb Hirb r_rb r_irb error.
  assert (Hpos : 0 < r_rb) by apply exp_pos.
  assert (Hpos' : 0 < r_irb) by apply exp_pos.
  unfold CirqSuperstaqIRB.analyse_results.
  rewrite Hrb, result_bind_Ok, Hirb, result_bind_Ok.
  cbn [slope stderr fexp fmul]. fold r_rb r_irb.
  rewrite !fdiv_Fin by lra. cbn [fsub fopp fadd fmul].
  rewrite !fdiv_Fin by lra. cbn [fmul fadd].
  rewrite fsqrt_Fin by nra. cbn [fmul mret result_ret].
  do 2 f_equal.
  apply Fin_eq. unfold error, Rminus.
  replace (stderr_rb * r_rb / r_rb) with stderr_rb by (field; lra).
  replace (stderr_irb * r_irb / r_irb) with stderr_irb by (field; lra).
  do 2 f_equal. ring.
Qed.

(** X8. From finite fits the cirq-superstaq experiment reports the gate error
    [(1 - r_irb / r_rb) / 2] and, as its standard deviation, this error
    times [sqrt (e_rb ^ 2 + e_irb ^ 2)] for the standard errors [e] of the
    two slopes. The reported standard deviation has the sign of the error: it
    is negative as soon as the interleaved slope is the larger one and a
    standard error is not zero. *)
Theorem css_estimate_sign (self : CirqSuperstaqIRB.IRB)
    (slope_rb stderr_rb slope_irb stderr_irb : R) :
  CirqSuperstaqIRB.fit self "RB" = Ok {| slope := Fin slope_rb; stderr := Fin stderr_rb |} ->
  CirqSuperstaqIRB.fit self "IRB" = Ok {| slope := Fin slope_irb; stderr := Fin stderr_irb |} ->
  exists res error deviation,
    CirqSuperstaqIRB.analyse_results self = Ok res
    /\ CirqSuperstaqIRB.IRBResults.average_interleaved_gate_error res = Fin error
    /\ error = (1 - exp slope_irb / exp slope_rb) / 2
    /\ CirqSuperstaqIRB.IRBResults.average_interleaved_gate_error_std res = Fin deviation
    /\ deviation = error * sqrt (stderr_rb ^ 2 + stderr_irb ^ 2)
    /\ (slope_rb < slope_irb -> stderr_rb <> 0 \/ stderr_irb <> 0 -> deviation < 0).
Proof.
  intros Hrb Hirb.
  pose proof (css_estimate self _ _ _ _ Hrb Hirb) as E. cbv zeta in E.
  eexists _, _, _. split; [exact E|].
  split; [reflexivity|]. split; [reflexivity|]. split; [reflexivity|].
  split; [reflexivity|].
  intros Hslopes Herr.
  assert (Hlt : exp slope_rb < exp slope_irb) by (apply exp_increasing, Hslopes).
  assert (Hpos : 0 < exp slope_rb) by apply exp_pos.
  assert (Hneg : (1 - exp slope_irb / exp slope_rb) / 2 < 0).
  { assert (1 < exp slope_irb / exp slope_rb).
    { apply (Rmult_lt_reg_r (exp slope_rb)); [exact Hpos|].
      unfold Rdiv. rewrite Rmult_assoc, Rinv_l by lra. lra. }
    lra. }
  assert (Hsq : 0 < sqrt (stderr_rb ^ 2 + stderr_irb ^ 2)).
  { apply sqrt_lt_R0. destruct Herr; nra. }
  nra.
Qed.

Lemma css_estimate_sign_witness :
  exists res error,
    CirqSuperstaqIRB.analyse_results (as_cirq_superstaq (irb_table six_rows) Cirq.Gate.Z) = Ok res
    /\ CirqSuperstaqIRB.IRBResults.average_interleaved_gate_error res = Fin error.
Proof.
  destruct (well_conditioned_fit (irb_table six_rows) "RB") as (s1 & e1 & E1 & _).
  { apply six_rows_well_conditioned. left. reflexivity. }
  destruct (well_conditioned_fit (irb_table six_rows) "IRB") as (s2 & e2 & E2 & _).
  { apply six_rows_well_conditioned. right. reflexivity. }
  rewrite <- (css_fit _ Cirq.Gate.Z "RB" six_rows_kept) in E1.
  rewrite <- (css_fit _ Cirq.Gate.Z "IRB" six_rows_kept) in E2.
  destruct (css_estimate_sign _ s1 e1 s2 e2 E1 E2)
    as (res & error & deviation & E & Herr & _).
  exists res, error. split; assumption.
Defined.

End CirqSuperstaqAnalysis.

(** ** The builder of cirq-superstaq *)

Section CirqSuperstaqBuilder.
Import Cirq BaseExperiment Supermarq.

Lemma css_random_clifford (s : rng) :
  CirqSuperstaqIRB._random_single_qubit_clifford s = _random_single_qubit_clifford s.
Proof. reflexivity. Qed.

Lemma css_random_operations (n : nat) : forall s,
  CirqSuperstaqIRB.random_operations n s = random_operations n s.
Proof.
  induction n as [|n IH]; intros s; [reflexivity|].
  cbn [CirqSuperstaqIRB.random_operations random_operations].
  rewrite css_random_clifford.
  destruct (_random_single_qubit_clifford s) as [[g s1]|e]; [|reflexivity].
  rewrite !result_bind_Ok. cbv beta iota. rewrite IH. reflexivity.
Qed.

Lemma on_qubits_circuit (c : list SingleQubitCliffordGate) :
  map CirqSuperstaq.on_qubits (map gate (clifford_circuit c)) = clifford_circuit c.
Proof. rewrite gates_of_clifford_circuit. apply on_qubits_gates. Qed.

Lemma css_invert_nonempty g gs :
  CirqSuperstaqIRB._invert_clifford_circuit (clifford_circuit (g :: gs))
  = Ok (clifford_circuit ((g :: gs) ++ [inverse_gate (product_of (g :: gs))])).
Proof.
  unfold CirqSuperstaqIRB._invert_clifford_circuit, all_operations.
  rewrite inverse_gates, result_bind_Ok, reduce_agree, reduce_nonempty.
  - rewrite result_bind_Ok, product_of_inverses. cbn [mret result_ret]. f_equal.
    rewrite map_app, on_qubits_circuit. unfold clifford_circuit. rewrite map_app.
    reflexivity.
  - simpl. intros E. apply app_eq_nil in E as [_ E]. discriminate.
Qed.

Lemma css_invert_empty :
  CirqSuperstaqIRB._invert_clifford_circuit [] = Raise IndexError.
Proof. reflexivity. Qed.

Lemma removelast_measured (c : Circuit) : removelast (c ++ [MeasureOp]) = c.
Proof. apply removelast_last. Qed.

Section AnyInterleaving.
Variable _interleave_gate : Circuit -> SingleQubitCliffordGate -> result Circuit.

Lemma css_samples_of_empty (self : CirqSuperstaqIRB.IRB) (depth : Z) :
  CirqSuperstaqIRB.samples_of _interleave_gate self depth [] = Raise IndexError.
Proof. reflexivity. Qed.

Lemma css_samples_of_tags self depth base l :
  CirqSuperstaqIRB.samples_of _interleave_gate self depth base = Ok l ->
  map css_tag l = [(depth, "RB"%string); (depth, "IRB"%string)].
Proof.
  unfold CirqSuperstaqIRB.samples_of.
  destruct (CirqSuperstaqIRB._invert_clifford_circuit base) as [rb|e]; [|discriminate].
  rewrite result_bind_Ok.
  destruct (_interleave_gate base _) as [il|e]; [|discriminate].
  rewrite result_bind_Ok.
  destruct (CirqSuperstaqIRB._invert_clifford_circuit il) as [irb|e]; [|discriminate].
  rewrite result_bind_Ok. intros [= <-]. reflexivity.
Qed.

Lemma css_build_loop_tags self todo : forall acc s l s',
  CirqSuperstaqIRB.build_loop _interleave_gate self todo acc s = Ok (l, s') ->
  map css_tag l
  = map css_tag acc
    ++ flat_map (fun td : nat * Z => [(td.2, "RB"%string); (td.2, "IRB"%string)]) todo.
Proof.
  induction todo as [|[t depth] todo IH]; intros acc s l s' E.
  - injection E as <- <-. simpl. rewrite app_nil_r. reflexivity.
  - cbn [CirqSuperstaqIRB.build_loop] in E.
    destruct (CirqSuperstaqIRB.random_operations (range_len depth) s) as [[base s1]|e];
      [|discriminate].
    rewrite result_bind_Ok in E. cbv beta iota in E.
    destruct (CirqSuperstaqIRB.samples_of _ self depth base) as [new|e] eqn:En;
      [|discriminate].
    rewrite result_bind_Ok in E.
    apply IH in E. rewrite E, map_app, (css_samples_of_tags _ _ _ _ En).
    cbn [flat_map snd]. rewrite <- app_assoc. reflexivity.
Qed.

Lemma css_build_loop_returns self todo : forall acc s out,
  CirqSuperstaqIRB.build_loop _interleave_gate self todo acc s = Ok out ->
  Forall (fun td : nat * Z => 0 < td.2) todo.
Proof.
  induction todo as [|[t depth] todo IH]; intros acc s out E; [constructor|].
  cbn [CirqSuperstaqIRB.build_loop] in E.
  rewrite css_random_operations in E.
  destruct (random_operations_total (range_len depth) s) as (gs & Hlen & Egs).
  rewrite Egs, result_bind_Ok in E. cbv beta iota in E.
  destruct gs as [|g gs].
  - change (clifford_circuit []) with (@nil Operation) in E.
    rewrite css_samples_of_empty in E. discriminate.
  - destruct (CirqSuperstaqIRB.samples_of _ self depth _) as [new|e]; [|discriminate].
    rewrite result_bind_Ok in E. constructor.
    + cbn [snd]. unfold range_len in Hlen. simpl in Hlen. lia.
    + apply (IH _ _ _ E).
Qed.

Lemma css_build_loop_first self t depth todo acc s :
  depth <= 0 ->
  CirqSuperstaqIRB.build_loop _interleave_gate self ((t, depth) :: todo) acc s
  = Raise IndexError.
Proof.
  intros Hd. cbn [CirqSuperstaqIRB.build_loop]. unfold range_len.
  replace (Z.to_nat depth) with 0%nat by lia.
  cbn [CirqSuperstaqIRB.random_operations]. rewrite result_bind_Ok. cbv beta iota.
  rewrite css_samples_of_empty. reflexivity.
Qed.

Lemma product_first n d rest :
  0 < n -> exists todo, product n (d :: rest) = (0%nat, d) :: todo.
Proof.
  intros Hn. unfold product, range_len.
  destruct (Z.to_nat n) as [|k] eqn:E; [lia|].
  cbn [seq list_prod map app]. eexists. reflexivity.
Qed.

(** X9. The builder of cirq-superstaq, whatever [_interleave_gate] of its
    base class does: a run that returns had no trial to build or only strictly positive
    depths, and it returns for each (trial, depth) pair in order one sample
    tagged RB and one tagged IRB; with a trial to build and a first depth of
    0 or less it raises [IndexError], from the inversion of the empty RB
    circuit, before [_interleave_gate] is called. *)
Theorem css_build_circuits_outcome (self : CirqSuperstaqIRB.IRB) (num_circuits : Z)
    (layers : list Z) (s : rng) :
  (forall samples s',
     CirqSuperstaqIRB.build_circuits _interleave_gate self num_circuits layers s
     = Ok (samples, s') ->
     (num_circuits <= 0 \/ Forall (fun d => 0 < d) layers)
     /\ map css_tag samples
        = flat_map (fun td : nat * Z => [(td.2, "RB"%string); (td.2, "IRB"%string)])
                   (product num_circuits layers))
  /\ (forall d rest,
        0 < num_circuits -> layers = d :: rest -> d <= 0 ->
        CirqSuperstaqIRB.build_circuits _interleave_gate self num_circuits layers s
        = Raise IndexError).
Proof.
  unfold CirqSuperstaqIRB.build_circuits. split.
  - intros samples s' E. split.
    + destruct (Z_le_gt_dec num_circuits 0) as [Hn|Hn]; [left; exact Hn|right].
      apply css_build_loop_returns in E.
      apply Forall_forall. intros d Hd.
      rewrite List.Forall_forall in E.
      apply (E (0%nat, d)). apply in_product; [lia|]. apply list_elem_of_In, Hd.
    + apply css_build_loop_tags in E. exact E.
  - intros d rest Hn -> Hd.
    destruct (product_first num_circuits d rest Hn) as (todo & ->).
    apply css_build_loop_first, Hd.
Qed.

End AnyInterleaving.

Lemma samples_agree (self : IRB) (c : SingleQubitCliffordGate) (depth : Z)
    (gs : list SingleQubitCliffordGate) :
  interleaved_gate self = Some c ->
  match samples_of self depth (clifford_circuit gs),
        CirqSuperstaqIRB.samples_of interleave_as_op (as_cirq_superstaq self c) depth
          (clifford_circuit gs) with
  | Ok new, Ok old => old = map unmeasured new
  | Raise e, Raise e' => e = e'
  | _, _ => False
  end.
Proof.
  intros Hgate. destruct gs as [|g gs]; [reflexivity|].
  pose proof (samples_of_nonempty self depth g gs) as E. cbv zeta in E.
  rewrite E, Hgate. clear E.
  unfold CirqSuperstaqIRB.samples_of, interleave_as_op.
  rewrite css_invert_nonempty, !result_bind_Ok.
  cbn [as_cirq_superstaq CirqSuperstaqIRB.interleaved_gate].
  rewrite interleave_op_gates.
  destruct (interleaved (g :: gs) c) as [|g' gs'] eqn:Ei.
  { apply (f_equal (@length _)) in Ei. rewrite interleaved_length in Ei. discriminate. }
  rewrite css_invert_nonempty, result_bind_Ok. cbn [mret result_ret map].
  unfold unmeasured. cbn [raw_circuit data]. rewrite !removelast_measured.
  assert (Hl : length (g' :: gs') = (2 * length (g :: gs))%nat).
  { rewrite <- Ei. apply interleaved_length. }
  unfold clifford_circuit. rewrite !length_map, !length_app, Hl.
  cbn [length]. repeat f_equal; lia.
Qed.

Lemma build_loops_agree (self : IRB) (c : SingleQubitCliffordGate) todo :
  interleaved_gate self = Some c -> forall acc s,
  match build_loop self todo acc s,
        CirqSuperstaqIRB.build_loop interleave_as_op (as_cirq_superstaq self c) todo
          (map unmeasured acc) s with
  | Ok (new, s1), Ok (old, s2) => old = map unmeasured new /\ s1 = s2
  | Raise e, Raise e' => e = e'
  | _, _ => False
  end.
Proof.
  intros Hgate. induction todo as [|[t depth] todo IH]; intros acc s.
  - cbn. split; reflexivity.
  - cbn [build_loop CirqSuperstaqIRB.build_loop].
    pose proof (css_random_operations (range_len depth) s) as Eo.
    destruct (random_operations_total (range_len depth) s) as (gs & _ & Egs).
    rewrite Egs in Eo. rewrite Eo, Egs, !result_bind_Ok. cbv beta iota.
    pose proof (samples_agree self c depth gs Hgate) as Hs.
    destruct (samples_of self depth (clifford_circuit gs)) as [new|e];
      destruct (CirqSuperstaqIRB.samples_of _ _ depth (clifford_circuit gs)) as [old|e'];
      try contradiction.
    + rewrite !result_bind_Ok. subst old. rewrite <- map_app. apply IH.
    + subst e'. reflexivity.
Qed.

(** X10. With [_interleave_gate] doing what [_interleave_op] does, the two
    builders agree on every input and random source: both raise the same
    error, or both return, having read the same random numbers, and the
    samples of the cirq-superstaq builder are those of the supermarq one
    without the closing measurement, with the same recorded data. *)
Theorem builders_agree (self : IRB) (c : SingleQubitCliffordGate) (num_circuits : Z)
    (cycle_depths : list Z) (s : rng) :
  interleaved_gate self = Some c ->
  match _build_circuits self num_circuits cycle_depths s,
        CirqSuperstaqIRB.build_circuits interleave_as_op (as_cirq_superstaq self c)
          num_circuits cycle_depths s with
  | Ok (new, s1), Ok (old, s2) => old = map unmeasured new /\ s1 = s2
  | Raise e, Raise e' => e = e'
  | _, _ => False
  end.
Proof.
  intros Hgate. unfold _build_circuits, CirqSuperstaqIRB.build_circuits.
  apply (build_loops_agree self c _ Hgate [] s).
Qed.

Lemma builders_agree_witness :
  match _build_circuits irb_Z 2 [1; 3] (source_of 3 2),
        CirqSuperstaqIRB.build_circuits interleave_as_op (as_cirq_superstaq irb_Z Gate.Z)
          2 [1; 3] (source_of 3 2) with
  | Ok (new, s1), Ok (old, s2) => old = map unmeasured new /\ s1 = s2
  | Raise e, Raise e' => e = e'
  | _, _ => False
  end.
Proof. apply (builders_agree irb_Z Gate.Z 2 [1; 3] (source_of 3 2) eq_refl). Defined.

Lemma build_returns (self : IRB) (num_circuits : Z) (cycle_depths : list Z) (s : rng) :
  Forall (fun d => 0 < d) cycle_depths ->
  exists samples s', _build_circuits self num_circuits cycle_depths s = Ok (samples, s').
Proof.
  intros Hpos. unfold _build_circuits.
  destruct (build_loop_succeeds self (product num_circuits cycle_depths) [] s)
    as (new & E & _); [apply product_positive, Hpos|].
  eexists _, _. exact E.
Qed.

Lemma build_circuits_draws_witness :
  exists samples s',
    _build_circuits irb_Z 2 [1; 3] (source_of 3 2) = Ok (samples, s')
    /\ s' = advance 16 (source_of 3 2).
Proof.
  destruct (build_returns irb_Z 2 [1; 3] (source_of 3 2)) as (samples & s' & E).
  { repeat constructor. }
  exists samples, s'. split; [exact E|].
  apply (build_circuits_draws irb_Z 2 [1; 3] (source_of 3 2) s' samples E).
Defined.

Lemma build_circuits_closed_witness :
  exists samples s',
    _build_circuits irb_Z 2 [1; 3] (source_of 3 2) = Ok (samples, s')
    /\ Forall closed_sample samples.
Proof.
  destruct (build_returns irb_Z 2 [1; 3] (source_of 3 2)) as (samples & s' & E).
  { repeat constructor. }
  exists samples, s'. split; [exact E|].
  apply (build_circuits_closed irb_Z 2 [1; 3] (source_of 3 2) s' samples E).
Defined.

End CirqSuperstaqBuilder.

(** ** A constructed experiment *)

Section Constructed.
Import NumPy SciPy BaseExperiment Supermarq.
Local Open Scope R_scope.

Lemma init_returns (gate : option Cirq.SingleQubitCliffordGate) (n : Z) (self : IRB) :
  __init__ gate n = Ok self ->
  n = 1%Z /\ interleaved_gate self = gate /\ num_qubits self = 1%Z.
Proof.
  unfold __init__. destruct (Z.eqb_spec n 1) as [->|Hn]; cbn [negb]; [|discriminate].
  intros [= <-]. repeat split.
Qed.

Lemma scaled_deviation (k a b : R) :
  0 <= k -> sqrt (k * a * (k * a) + k * b * (k * b)) = k * sqrt (a ^ 2 + b ^ 2).
Proof.
  intros Hk. transitivity (sqrt (k * k) * sqrt (a ^ 2 + b ^ 2)).
  - rewrite <- sqrt_mult by nra. f_equal. ring.
  - rewrite sqrt_square by exact Hk. reflexivity.
Qed.

(** With a gate interleaved on one qubit, from finite fits. *)
Lemma analyze_results_one_qubit (self : IRB) (c : Cirq.SingleQubitCliffordGate)
    (slope_rb stderr_rb slope_irb stderr_irb : R) :
  interleaved_gate self = Some c -> num_qubits self = 1%Z ->
  fit self "RB" = Ok {| slope := Fin slope_rb; stderr := Fin stderr_rb |} ->
  fit self "IRB" = Ok {| slope := Fin slope_irb; stderr := Fin stderr_irb |} ->
  exists res,
    analyze_results self = Ok (IRBr res)
    /\ IRBResults.total_circuits res = length (samples self)
    /\ IRBResults.average_interleaved_gate_error res
       = Fin ((1 - exp slope_irb / exp slope_rb) / 2)
    /\ IRBResults.average_interleaved_gate_error_std res
       = Fin (exp slope_irb / (2 * exp slope_rb)
              * sqrt (stderr_irb ^ 2 + stderr_rb ^ 2)).
Proof.
  intros Hgate Hn Hrb Hirb.
  assert (Hpos : 0 < exp slope_rb) by apply exp_pos.
  assert (Hpos' : 0 < exp slope_irb) by apply exp_pos.
  unfold analyze_results.
  rewrite Hrb, result_bind_Ok, Hgate, Hirb, result_bind_Ok, Hn.
  eexists. split; [reflexivity|]. split; [reflexivity|].
  cbn [IRBResults.average_interleaved_gate_error
       IRBResults.average_interleaved_gate_error_std slope stderr fexp].
  split.
  - rewrite half_scale. rewrite fdiv_Fin by lra. cbn [fsub fopp fadd].
    rewrite fdiv_Fin by lra. apply Fin_eq. lra.
  - cbn [fmul]. rewrite !fdiv_Fin by nra. cbn [fmul fadd].
    rewrite fsqrt_Fin by nra. apply Fin_eq.
    rewrite <- scaled_deviation.
    + f_equal. f_equal; f_equal; field; lra.
    + apply Rlt_le, Rdiv_lt_0_compat; lra.
Qed.

(** X11. The constructor accepts one qubit only: for any other number it
    raises [NotImplementedError]. For an experiment it has built, whatever
    the run has filled in, the factor [1 - 2 ** -num_qubits] is one half:
    from finite fits the analysis reports [(1 - r) / 2] as average gate
    error without interleaving and, with a gate interleaved, the error
    [(1 - r_irb / r_rb) / 2] with the standard deviation
    [r_irb / (2 * r_rb) * sqrt (e_irb ^ 2 + e_rb ^ 2)], which is never
    negative. *)
Theorem constructed_experiment (gate : option Cirq.SingleQubitCliffordGate) (n : Z) :
  match __init__ gate n with
  | Raise e =>
      n <> 1%Z
      /\ e = NotImplementedError
               "IRB experiment is currently only implemented for single qubit use"
  | Ok self =>
      n = 1%Z
      /\ forall targets samples rows,
           let run := after_run self targets samples rows in
           (gate = None ->
            forall s e,
              fit run "RB" = Ok {| slope := Fin s; stderr := Fin e |} ->
              exists res,
                analyze_results run = Ok (RB res)
                /\ RBResults.total_circuits res = length samples
                /\ RBResults.average_gate_error res = Fin ((1 - exp s) / 2)
                /\ RBResults.average_gate_error_std res = Fin (e * exp s / 2))
           /\ (gate <> None ->
               forall slope_rb stderr_rb slope_irb stderr_irb,
                 fit run "RB"
                 = Ok {| slope := Fin slope_rb; stderr := Fin stderr_rb |} ->
                 fit run "IRB"
                 = Ok {| slope := Fin slope_irb; stderr := Fin stderr_irb |} ->
                 exists res deviation,
                   analyze_results run = Ok (IRBr res)
                   /\ IRBResults.total_circuits res = length samples
                   /\ IRBResults.average_interleaved_gate_error res
                      = Fin ((1 - exp slope_irb / exp slope_rb) / 2)
                   /\ IRBResults.average_interleaved_gate_error_std res = Fin deviation
                   /\ deviation = exp slope_irb / (2 * exp slope_rb)
                                  * sqrt (stderr_irb ^ 2 + stderr_rb ^ 2)
                   /\ 0 <= deviation)
  end.
Proof.
  destruct (__init__ gate n) as [self|e] eqn:E.
  - destruct (init_returns gate n self E) as (Hn & Hgate & Hq).
    split; [exact Hn|]. intros targets samples rows run. split.
    + intros -> s e Hfit.
      rewrite (analyze_results_plain run s e Hgate Hfit).
      eexists. split; [reflexivity|]. split; [reflexivity|].
      cbn [RBResults.average_gate_error RBResults.average_gate_error_std
           run after_run num_qubits].
      rewrite Hq, half_power. split; apply Fin_eq; lra.
    + intros Hsome slope_rb stderr_rb slope_irb stderr_irb Hrb Hirb.
      destruct gate as [c|]; [|contradiction].
      destruct (analyze_results_one_qubit run c _ _ _ _ Hgate Hq Hrb Hirb)
        as (res & Eres & Htotal & Herr & Hstd).
      exists res. eexists. split; [exact Eres|]. split; [exact Htotal|].
      split; [exact Herr|]. split; [exact Hstd|]. split; [reflexivity|].
      apply Rmult_le_pos; [|apply sqrt_pos].
      apply Rlt_le, Rdiv_lt_0_compat; [apply exp_pos|].
      pose proof (exp_pos slope_rb). lra.
  - unfold __init__ in E. destruct (Z.eqb_spec n 1) as [->|Hn]; cbn [negb] in E;
      [discriminate|].
    injection E as <-. split; [exact Hn|reflexivity].
Qed.

End Constructed.

(** ** A second analysis *)

Section Again.
Import NumPy SciPy BaseExperiment Supermarq.

Lemma filter_idempotent {A : Type} (f : A -> bool) (l : list A) :
  List.filter f (List.filter f l) = List.filter f l.
Proof.
  induction l as [|a l IH]; [reflexivity|].
  cbn [List.filter]. destruct (f a) eqn:E; [|exact IH].
  cbn [List.filter]. rewrite E, IH. reflexivity.
Qed.

Lemma add_columns_rows (rows : list Row) :
  map add_columns (map row (dropna (map add_columns rows)))
  = dropna (map add_columns rows).
Proof.
  unfold dropna. induction rows as [|r rows IH]; [reflexivity|].
  cbn [map List.filter]. destruct (negb (has_nan (add_columns r))); [|exact IH].
  cbn [map]. rewrite IH. reflexivity.
Qed.

Lemma prepared_again (self : IRB) : prepared (after_analysis self) = prepared self.
Proof.
  unfold prepared at 1. cbn [after_analysis raw_data]. unfold prepared.
  rewrite add_columns_rows. unfold dropna. apply filter_idempotent.
Qed.

(** X18. [analyze_results] changes the table in place, and a second call
    sees the table that the first one left. It drops no further row and
    gives what the first call gave: the same results, or the same error. *)
Theorem analyze_results_again (self : IRB) :
  prepared (after_analysis self) = prepared self
  /\ length (raw_data (after_analysis self)) = length (prepared self)
  /\ analyze_results (after_analysis self) = analyze_results self
  /\ after_analysis (after_analysis self) = after_analysis self.
Proof.
  pose proof (prepared_again self) as Hp.
  split; [exact Hp|]. split; [apply length_map|]. split.
  - unfold analyze_results, fit, fitted_rows, join_targets. rewrite Hp. reflexivity.
  - unfold after_analysis at 1. rewrite Hp. reflexivity.
Qed.

End Again.

(** ** Inversion and reduction on every input *)

Section InversionOutcome.
Import Cirq BaseExperiment Supermarq.

Lemma inverse_each_measured (c : Circuit) :
  In MeasureOp c -> inverse_each (map gate c) = Raise TypeError.
Proof.
  induction c as [|op c IH]; intros Hin; [destruct Hin|].
  destruct op as [g|]; [|reflexivity].
  destruct Hin as [Hop|Hin]; [discriminate|].
  cbn [map gate inverse_each]. rewrite (IH Hin). reflexivity.
Qed.

Lemma gates_or_measured (c : Circuit) :
  (exists gates, c = clifford_circuit gates) \/ In MeasureOp c.
Proof.
  induction c as [|op c [(gates & ->)|Hin]].
  - left. exists []. reflexivity.
  - destruct op as [g|]; [left; exists (g :: gates); reflexivity|right; left; reflexivity].
  - right. right. exact Hin.
Qed.

Lemma invert_measured (c : Circuit) :
  In MeasureOp c -> _invert_clifford_circuit c = Raise TypeError.
Proof.
  intros Hin. unfold _invert_clifford_circuit, all_operations, inverse.
  rewrite (inverse_each_measured c Hin). reflexivity.
Qed.

Lemma inverse_gate_I : inverse_gate Gate.I = Gate.I.
Proof. symmetry. apply inverse_gate_unique, merged_with_I_l. Qed.

Lemma invert_closed g gs :
  let closed := (g :: gs) ++ [inverse_gate (product_of (g :: gs))] in
  _invert_clifford_circuit (clifford_circuit closed)
  = Ok (circuit_add (clifford_circuit closed) (GateOp Gate.I)).
Proof.
  intros closed.
  assert (Hp : product_of closed = Gate.I) by apply closing_product.
  unfold closed in *. set (i := inverse_gate (product_of (g :: gs))) in *.
  change ((g :: gs) ++ [i]) with (g :: (gs ++ [i])) in *.
  rewrite (invert_nonempty g (gs ++ [i])), Hp, inverse_gate_I.
  unfold circuit_add, clifford_circuit. rewrite !map_app. reflexivity.
Qed.

(** X12. What [_invert_clifford_circuit] does on every circuit. It returns
    exactly on the non-empty circuits of Clifford gates, with the inverse of
    their product appended, and a second call on the result appends the
    identity gate. On a circuit that holds a measurement, such as the
    circuit of a built sample, it raises [TypeError] from [cirq.inverse];
    on the empty circuit it raises [IndexError]. *)
Theorem invert_clifford_circuit_outcome (c : Circuit) :
  match _invert_clifford_circuit c with
  | Ok c' =>
      exists gates,
        gates <> []
        /\ c = clifford_circuit gates
        /\ c' = clifford_circuit (gates ++ [inverse_gate (product_of gates)])
        /\ _invert_clifford_circuit c' = Ok (circuit_add c' (GateOp Gate.I))
  | Raise e =>
      (e = TypeError /\ In MeasureOp c) \/ (e = IndexError /\ c = [])
  end.
Proof.
  destruct (gates_or_measured c) as [(gates & ->)|Hin].
  - destruct gates as [|g gs].
    + right. split; reflexivity.
    + rewrite invert_nonempty. exists (g :: gs).
      split; [discriminate|]. split; [reflexivity|]. split; [reflexivity|].
      apply invert_closed.
  - rewrite (invert_measured c Hin). left. split; [reflexivity|exact Hin].
Qed.

(** X13. [_reduce_clifford_seq] takes the concatenation of two non-empty
    lists to the merge of their reductions, in both packages; and it raises,
    with [IndexError], on the empty list only. *)
Theorem reduce_clifford_seq_concatenation
    (g1 g2 : SingleQubitCliffordGate) (l1 l2 : list SingleQubitCliffordGate) :
  _reduce_clifford_seq ((g1 :: l1) ++ (g2 :: l2))
  = (a ← _reduce_clifford_seq (g1 :: l1);
     b ← _reduce_clifford_seq (g2 :: l2);
     mret (merged_with a b))
  /\ CirqSuperstaq._reduce_clifford_seq ((g1 :: l1) ++ (g2 :: l2))
     = (a ← CirqSuperstaq._reduce_clifford_seq (g1 :: l1);
        b ← CirqSuperstaq._reduce_clifford_seq (g2 :: l2);
        mret (merged_with a b))
  /\ (forall l e, _reduce_clifford_seq l = Raise e <-> l = [] /\ e = IndexError).
Proof.
  assert (H : _reduce_clifford_seq ((g1 :: l1) ++ (g2 :: l2))
              = (a ← _reduce_clifford_seq (g1 :: l1);
                 b ← _reduce_clifford_seq (g2 :: l2);
                 mret (merged_with a b))).
  { rewrite (reduce_cons g1 l1), (reduce_cons g2 l2), !result_bind_Ok.
    change ((g1 :: l1) ++ g2 :: l2) with (g1 :: (l1 ++ g2 :: l2)).
    rewrite reduce_cons.
    change (g1 :: (l1 ++ g2 :: l2)) with ((g1 :: l1) ++ g2 :: l2).
    rewrite product_of_app. reflexivity. }
  split; [exact H|]. split; [rewrite !reduce_agree; exact H|].
  intros l e. split.
  - destruct l; [|discriminate]. intros [= <-]. split; reflexivity.
  - intros [-> ->]. reflexivity.
Qed.

End InversionOutcome.

(** ** The Hamiltonian and the energy terms *)

Section Hamiltonian.
Import VQE_HWEA_Clifford.

Lemma fold_left_append {A B : Type} (f : A -> B) (l : list A) : forall acc,
  fold_left (fun h i => h ++ [f i]) l acc = acc ++ map f l.
Proof.
  induction l as [|a l IH]; intros acc; cbn [fold_left map].
  - rewrite app_nil_r. reflexivity.
  - rewrite IH, <- app_assoc. reflexivity.
Qed.

Lemma range_nonpositive (n : Z) : n <= 0 -> range n = [].
Proof.
  intros Hn. unfold range, range_len. replace (Z.to_nat n) with 0%nat by lia.
  reflexivity.
Qed.

Lemma range_succ (n : Z) : 0 <= n -> range (n + 1) = range n ++ [n].
Proof.
  intros Hn. unfold range, range_len.
  replace (Z.to_nat (n + 1)) with (S (Z.to_nat n)) by lia.
  rewrite seq_S, map_app. cbn [map Nat.add]. rewrite Z2Nat.id by exact Hn.
  reflexivity.
Qed.

Lemma range_pred (n : Z) : 1 <= n -> range n = range (n - 1) ++ [n - 1].
Proof.
  intros Hn. rewrite <- range_succ by lia. f_equal. lia.
Qed.

Lemma in_range (n i : Z) : In i (range n) <-> 0 <= i < n.
Proof.
  unfold range, range_len. rewrite in_map_iff. split.
  - intros (k & <- & Hk). apply in_seq in Hk. lia.
  - intros Hi. exists (Z.to_nat i). split; [lia|]. apply in_seq. lia.
Qed.

Lemma length_range (n : Z) : length (range n) = Z.to_nat n.
Proof. unfold range, range_len. rewrite length_map, length_seq. reflexivity. Qed.

(** X14. The Hamiltonian that [_gen_tfim_hamiltonian] builds. For one qubit
    or more it is a ring: one X term per qubit, then one ZZ term from each
    qubit to the next one modulo the number of qubits, that is [2 * n] terms
    of weight 1; for one qubit the ZZ term couples qubit 0 with itself. For
    a number of qubits of 0 or less the result is the single wrap-around
    term on the qubit index [n - 1], which is negative. *)
Theorem tfim_hamiltonian_ring (num_qubits : Z) :
  (1 <= num_qubits ->
     _gen_tfim_hamiltonian num_qubits
     = map (fun i => ("X"%string, inl i, 1)) (range num_qubits)
       ++ map (fun i => ("ZZ"%string, inr (i, (i + 1) mod num_qubits), 1))
              (range num_qubits)
     /\ Z.of_nat (length (_gen_tfim_hamiltonian num_qubits)) = 2 * num_qubits)
  /\ (num_qubits <= 0 ->
        _gen_tfim_hamiltonian num_qubits
        = [("ZZ"%string, inr (num_qubits - 1, 0), 1)]).
Proof.
  unfold _gen_tfim_hamiltonian. rewrite !fold_left_append. cbn [app]. split.
  - intros Hn.
    assert (E : map (fun i => ("ZZ"%string, inr (i, (i + 1) mod num_qubits), 1))
                    (range num_qubits)
                = map (fun i => ("ZZ"%string, @inr Z _ (i, i + 1), 1))
                      (range (num_qubits - 1))
                  ++ [("ZZ"%string, inr (num_qubits - 1, 0), 1)]).
    { rewrite (range_pred num_qubits Hn), map_app. cbn [map]. f_equal.
      - apply map_ext_in. intros i Hi. apply in_range in Hi.
        rewrite Z.mod_small by lia. reflexivity.
      - replace (num_qubits - 1 + 1) with num_qubits by lia.
        rewrite Z_mod_same_full. reflexivity. }
    rewrite E, <- app_assoc. split; [reflexivity|].
    rewrite !length_app, !length_map, !length_range. cbn [length]. lia.
  - intros Hn. rewrite !range_nonpositive by lia. reflexivity.
Qed.

End Hamiltonian.

Section Energy.
Import NumPy VQE_HWEA_Clifford.
Local Open Scope R_scope.

Lemma evens_odds (bit_list : list string) :
  (evens bit_list + odds bit_list)%nat = length bit_list.
Proof.
  unfold evens, odds. induction bit_list as [|item l IH]; [reflexivity|].
  cbn [List.filter]. destruct (_parity_ones item =? 0)%Z; cbn [negb length]; lia.
Qed.

Lemma calc_from (bit_list : list string) (p : R) : forall a,
  fold_left
    (fun energy item =>
       if (_parity_ones item =? 0)%Z then fadd energy (Fin p) else fsub energy (Fin p))
    bit_list (Fin a)
  = Fin (a + (INR (evens bit_list) - INR (odds bit_list)) * p).
Proof.
  unfold evens, odds.
  induction bit_list as [|item l IH]; intros a; cbn [fold_left List.filter].
  - cbn [length INR]. apply Fin_eq. lra.
  - destruct (_parity_ones item =? 0)%Z; cbn [negb fadd fsub fopp];
      rewrite IH; apply Fin_eq; cbn [length]; rewrite S_INR; lra.
Qed.

Lemma parity_from (l : list ascii) : forall c : Z,
  fold_left (fun one_count i => if Ascii.eqb i "1" then one_count + 1 else one_count)%Z
            l c
  = (c + fold_left (fun one_count i => if Ascii.eqb i "1" then one_count + 1
                                       else one_count) l 0)%Z.
Proof.
  induction l as [|i l IH]; intros c; cbn [fold_left]; [lia|].
  rewrite IH, (IH (if Ascii.eqb i "1" then 0 + 1 else 0)%Z).
  destruct (Ascii.eqb i "1"); lia.
Qed.

Lemma list_ascii_of_append (a b : string) :
  list_ascii_of_string (String.append a b)
  = (list_ascii_of_string a ++ list_ascii_of_string b)%list.
Proof.
  induction a as [|c a IH]; [reflexivity|].
  change (c :: list_ascii_of_string (String.append a b)
          = c :: (list_ascii_of_string a ++ list_ascii_of_string b)%list).
  f_equal. exact IH.
Qed.

Lemma calc_value (bit_list : list string) (bitstr : string) (probs : Dict) (p : R) :
  get probs bitstr (Fin 0) = Fin p ->
  _calc bit_list bitstr probs = Fin ((INR (evens bit_list) - INR (odds bit_list)) * p).
Proof.
  intros Hp. unfold _calc. rewrite Hp, (calc_from bit_list p). apply Fin_eq. lra.
Qed.

(** X15. [_parity_ones] returns 0 or 1 and adds up modulo 2 over the
    concatenation of two strings. [_calc] adds the probability of [bitstr]
    once for every item of even parity and subtracts it once for every item
    of odd parity: for a finite probability [p] it returns
    [(evens - odds) * p], and 0 when [bitstr] is not a key of the dict. *)
Theorem calc_counts_parities (bit_list : list string) (bitstr : string) (probs : Dict) :
  (forall a b : string,
     _parity_ones (String.append a b) = ((_parity_ones a + _parity_ones b) mod 2)%Z
     /\ (_parity_ones a = 0%Z \/ _parity_ones a = 1%Z))
  /\ (forall p,
        get probs bitstr (Fin 0) = Fin p ->
        _calc bit_list bitstr probs
        = Fin ((INR (evens bit_list) - INR (odds bit_list)) * p))
  /\ (~ In bitstr (keys probs) -> _calc bit_list bitstr probs = Fin 0).
Proof.
  split; [|split; [apply calc_value|]].
  - intros a b. split.
    + unfold _parity_ones. rewrite list_ascii_of_append, fold_left_app, parity_from.
      rewrite Zplus_mod. reflexivity.
    + unfold _parity_ones.
      pose proof (Z.mod_pos_bound
                    (fold_left (fun one_count i =>
                                  if Ascii.eqb i "1" then one_count + 1 else one_count)
                               (list_ascii_of_string a) 0) 2)%Z.
      lia.
  - intros Hout. rewrite (calc_value bit_list bitstr probs 0); [apply Fin_eq; lra|].
    unfold get. destruct (List.find _ probs) as [kv|] eqn:E; [|reflexivity].
    exfalso. apply Hout. apply find_some in E as [Hin Heq].
    apply String.eqb_eq in Heq. subst bitstr. apply in_map, Hin.
Qed.

End Energy.

(** ** The expectation value *)

Section Expectation.
Import NumPy VQE_HWEA_Clifford.
Local Open Scope R_scope.

Lemma string_get_some (s : string) : forall n,
  (n < String.length s)%nat -> exists c, String.get n s = Some c.
Proof.
  induction s as [|c s IH]; intros n Hn; [cbn in Hn; lia|].
  destruct n as [|n]; [exists c; reflexivity|].
  cbn [String.get]. apply IH. cbn [String.length] in Hn. lia.
Qed.

Lemma getitem_in_range (s : string) (i : Z) :
  (0 <= i < Z.of_nat (String.length s))%Z ->
  exists c, getitem s i = Ok (String c EmptyString).
Proof.
  intros Hi. unfold getitem.
  destruct (Z.ltb_spec i 0) as [Hneg|_]; [lia|].
  destruct (Z.leb_spec 0 i) as [_|Hneg]; [|lia].
  destruct (Z.ltb_spec i (Z.of_nat (String.length s))) as [_|Hbig]; [|lia].
  cbn [andb]. destruct (string_get_some s (Z.to_nat i)) as (c & ->); [lia|].
  exists c. reflexivity.
Qed.

Lemma getitem_last (s : string) :
  s <> EmptyString -> exists c, getitem s (- (1)) = Ok (String c EmptyString).
Proof.
  intros Hs. unfold getitem.
  assert (Hlen : (0 < String.length s)%nat).
  { destruct s; [contradiction|cbn; lia]. }
  destruct (Z.ltb_spec (- (1)) 0) as [_|Hneg]; [|lia].
  destruct (Z.leb_spec 0 (- (1) + Z.of_nat (String.length s))) as [_|Hneg]; [|lia].
  destruct (Z.ltb_spec (- (1) + Z.of_nat (String.length s))
                       (Z.of_nat (String.length s))) as [_|Hbig]; [|lia].
  cbn [andb].
  destruct (string_get_some s (Z.to_nat (- (1) + Z.of_nat (String.length s))))
    as (c & ->); [lia|].
  exists c. reflexivity.
Qed.

Lemma comprehension_total {A B : Type} (f : A -> result B) (l : list A) :
  (forall a, In a l -> exists b, f a = Ok b) ->
  exists bs, comprehension f l = Ok bs /\ length bs = length l.
Proof.
  induction l as [|a l IH]; intros Hf.
  - exists []. split; reflexivity.
  - destruct (Hf a) as (b & Eb); [left; reflexivity|].
    destruct IH as (bs & Ebs & Hlen); [intros x Hx; apply Hf; right; exact Hx|].
    exists (b :: bs). cbn [comprehension]. rewrite Eb, result_bind_Ok, Ebs, result_bind_Ok.
    split; [reflexivity|]. cbn [length]. rewrite Hlen. reflexivity.
Qed.

Lemma x_term_returns (probs_x : Dict) (avg_energy : float) (bitstr : string) :
  exists bit_list,
    x_term probs_x avg_energy bitstr
    = Ok (fadd avg_energy (_calc bit_list bitstr probs_x))
    /\ length bit_list = String.length bitstr.
Proof.
  unfold x_term.
  destruct (comprehension_total (getitem bitstr)
              (range (Z.of_nat (String.length bitstr)))) as (bl & E & Hlen).
  { intros i Hi. apply in_range in Hi.
    destruct (getitem_in_range bitstr i Hi) as (c & Ec). eauto. }
  exists bl. rewrite E, result_bind_Ok. split; [reflexivity|].
  rewrite Hlen, length_range. lia.
Qed.

Lemma z_term_empty (probs_z : Dict) (avg_energy : float) :
  z_term probs_z avg_energy EmptyString = Raise IndexError.
Proof. reflexivity. Qed.

Lemma z_term_returns (probs_z : Dict) (avg_energy : float) (bitstr : string) :
  bitstr <> EmptyString ->
  exists bit_list,
    z_term probs_z avg_energy bitstr
    = Ok (fadd avg_energy (_calc bit_list bitstr probs_z))
    /\ length bit_list = String.length bitstr.
Proof.
  intros Hs. unfold z_term.
  assert (Hlen : (0 < String.length bitstr)%nat).
  { destruct bitstr; [contradiction|cbn; lia]. }
  destruct (getitem_in_range bitstr 0) as (c & ->); [lia|].
  destruct (getitem_last bitstr Hs) as (c' & ->).
  rewrite !result_bind_Ok. eexists. split; [reflexivity|].
  rewrite length_app, length_map. unfold range_from, range_len.
  rewrite length_map, length_seq. cbn [length]. lia.
Qed.

Lemma x_loop_returns (probs_x : Dict) (l : list string) : forall avg_energy,
  exists e, for_each (x_term probs_x) l avg_energy = Ok e.
Proof.
  induction l as [|s l IH]; intros avg; [exists avg; reflexivity|].
  destruct (x_term_returns probs_x avg s) as (bl & E & _).
  cbn [for_each]. rewrite E, result_bind_Ok. apply IH.
Qed.

Lemma z_loop_returns (probs_z : Dict) (l : list string) : forall avg_energy,
  ~ In EmptyString l ->
  exists e, for_each (z_term probs_z) l avg_energy = Ok e.
Proof.
  induction l as [|s l IH]; intros avg Hout; [exists avg; reflexivity|].
  destruct (z_term_returns probs_z avg s) as (bl & E & _).
  { intros ->. apply Hout. left. reflexivity. }
  cbn [for_each]. rewrite E, result_bind_Ok. apply IH.
  intros Hin. apply Hout. right. exact Hin.
Qed.

Lemma z_loop_raises (probs_z : Dict) (l : list string) : forall avg_energy,
  In EmptyString l ->
  for_each (z_term probs_z) l avg_energy = Raise IndexError.
Proof.
  induction l as [|s l IH]; intros avg Hin; [destruct Hin|].
  destruct (string_dec s EmptyString) as [->|Hs]; [reflexivity|].
  destruct Hin as [Hhead|Hin]; [contradiction|].
  destruct (z_term_returns probs_z avg s Hs) as (bl & E & _).
  cbn [for_each]. rewrite E, result_bind_Ok. apply IH, Hin.
Qed.

(** X16. [_get_expectation_value_from_probs] raises exactly when the empty
    string is a key of [probs_z], and then [IndexError], from [bitstr[0]] in
    the wrap-around term; an empty key of [probs_x] does no harm. In every
    other case it returns. *)
Theorem expectation_value_outcome (probs_z probs_x : Dict) :
  (In EmptyString (keys probs_z) ->
     _get_expectation_value_from_probs probs_z probs_x = Raise IndexError)
  /\ (~ In EmptyString (keys probs_z) ->
        exists energy, _get_expectation_value_from_probs probs_z probs_x = Ok energy)
  /\ (forall e,
        _get_expectation_value_from_probs probs_z probs_x = Raise e ->
        e = IndexError /\ In EmptyString (keys probs_z)).
Proof.
  unfold _get_expectation_value_from_probs.
  destruct (x_loop_returns probs_x (keys probs_x) (Fin 0)) as (a & ->).
  rewrite result_bind_Ok.
  assert (Hraise : In EmptyString (keys probs_z) ->
                   (avg_energy ← for_each (z_term probs_z) (keys probs_z) a;
                    mret avg_energy) = Raise IndexError).
  { intros Hin. rewrite (z_loop_raises probs_z _ a Hin). reflexivity. }
  assert (Hok : ~ In EmptyString (keys probs_z) ->
                exists energy,
                  (avg_energy ← for_each (z_term probs_z) (keys probs_z) a;
                   mret avg_energy) = Ok energy).
  { intros Hout. destruct (z_loop_returns probs_z _ a Hout) as (e & ->).
    exists e. reflexivity. }
  split; [exact Hraise|]. split; [exact Hok|].
  intros e E.
  destruct (in_dec string_dec EmptyString (keys probs_z)) as [Hin|Hout].
  - rewrite (Hraise Hin) in E. injection E as <-. split; [reflexivity|exact Hin].
  - destruct (Hok Hout) as (energy & E'). rewrite E' in E. discriminate.
Qed.

Lemma get_in (d : Dict) (k : string) (v default : float) :
  NoDup (keys d) -> In (k, v) d -> get d k default = v.
Proof.
  unfold get, keys. induction d as [|[k' v'] d IH]; intros Hnd Hin; [destruct Hin|].
  apply NoDup_cons in Hnd as [Hk' Hnd]. cbn [List.find fst].
  destruct (String.eqb_spec k' k) as [->|Hne].
  - destruct Hin as [[= ->]|Hin]; [reflexivity|].
    exfalso. apply Hk'. apply list_elem_of_In. apply (in_map fst _ _ Hin).
  - destruct Hin as [[= -> ->]|Hin]; [contradiction|].
    apply IH; assumption.
Qed.

Lemma counts_bounded (bit_list : list string) (p : R) :
  0 <= p ->
  Rabs ((INR (evens bit_list) - INR (odds bit_list)) * p) <= INR (length bit_list) * p.
Proof.
  intros Hp. rewrite <- (evens_odds bit_list), plus_INR.
  pose proof (pos_INR (evens bit_list)). pose proof (pos_INR (odds bit_list)).
  apply Rabs_le. split; nra.
Qed.

Lemma loop_bounded (n : nat) (probs : Dict)
    (term : float -> string -> result float) :
  NoDup (keys probs) ->
  (forall avg s,
     String.length s = n ->
     exists bit_list,
       term avg s = Ok (fadd avg (_calc bit_list s probs)) /\ length bit_list = n) ->
  forall (l : Dict) (ps : list R) (a : R),
    Forall (fun kv => In kv probs) l ->
    Forall (fun key => String.length key = n) (keys l) ->
    map snd l = map Fin ps -> Forall (fun p => 0 <= p) ps ->
    exists a',
      for_each term (keys l) (Fin a) = Ok (Fin a')
      /\ Rabs (a' - a) <= INR n * rsum ps.
Proof.
  intros Hnd Hterm. induction l as [|[k v] l IH]; intros ps a Hin Hlen Hps Hpos.
  - exists a. split; [reflexivity|].
    destruct ps; [|discriminate]. cbn [rsum fold_right].
    replace (a - a) with 0 by lra. rewrite Rabs_R0. lra.
  - destruct ps as [|p ps]; [discriminate|].
    cbn [map snd] in Hps. injection Hps as -> Hps.
    apply Forall_cons in Hin as [Hkv Hin]. apply Forall_cons in Hpos as [Hp Hpos].
    cbn [keys map fst] in Hlen. apply Forall_cons in Hlen as [Hk Hlen].
    destruct (Hterm (Fin a) k Hk) as (bl & E & Hbl).
    rewrite (calc_value bl k probs p (get_in probs k (Fin p) (Fin 0) Hnd Hkv)) in E.
    cbn [fadd] in E.
    destruct (IH ps (a + (INR (evens bl) - INR (odds bl)) * p) Hin Hlen Hps Hpos)
      as (a' & E' & Hbound).
    exists a'. cbn [keys map fst for_each]. rewrite E, result_bind_Ok.
    split; [exact E'|].
    pose proof (counts_bounded bl p Hp) as Hc. rewrite Hbl in Hc.
    cbn [rsum fold_right]. fold (rsum ps).
    replace (a' - a)
      with ((a' - (a + (INR (evens bl) - INR (odds bl)) * p))
            + (INR (evens bl) - INR (odds bl)) * p) by lra.
    eapply Rle_trans; [apply Rabs_triang|]. lra.
Qed.

Lemma distribution_nonempty_keys (n : nat) (probs : Dict) :
  (1 <= n)%nat -> distribution n probs -> ~ In EmptyString (keys probs).
Proof.
  intros Hn (_ & Hlen & _) Hin. rewrite List.Forall_forall in Hlen.
  apply Hlen in Hin. cbn in Hin. lia.
Qed.

(** X17. For probability distributions over the bitstrings of [n >= 1]
    characters, [_get_expectation_value_from_probs] returns a finite energy
    between [-2 * n] and [2 * n]: each of the [n] X terms and of the [n] ZZ
    terms of the ring weighs every outcome with +1 or -1. *)
Theorem expectation_value_bounded (n : nat) (probs_z probs_x : Dict) :
  (1 <= n)%nat -> distribution n probs_z -> distribution n probs_x ->
  exists energy,
    _get_expectation_value_from_probs probs_z probs_x = Ok (Fin energy)
    /\ - (2 * INR n) <= energy <= 2 * INR n.
Proof.
  intros Hn Hz Hx.
  pose proof (distribution_nonempty_keys n probs_z Hn Hz) as Hkeys.
  destruct Hz as (Hndz & Hlenz & psz & Hpsz & Hposz & Hsumz).
  destruct Hx as (Hndx & Hlenx & psx & Hpsx & Hposx & Hsumx).
  destruct (loop_bounded n probs_x (x_term probs_x) Hndx) with
    (l := probs_x) (ps := psx) (a := 0) as (a1 & E1 & H1); try assumption.
  { intros avg s Hs. destruct (x_term_returns probs_x avg s) as (bl & E & Hbl).
    exists bl. split; [exact E|]. rewrite Hbl. exact Hs. }
  { apply List.Forall_forall. intros kv Hkv. exact Hkv. }
  destruct (loop_bounded n probs_z (z_term probs_z) Hndz) with
    (l := probs_z) (ps := psz) (a := a1) as (a2 & E2 & H2); try assumption.
  { intros avg s Hs. destruct (z_term_returns probs_z avg s) as (bl & E & Hbl).
    - intros ->. cbn in Hs. lia.
    - exists bl. split; [exact E|]. rewrite Hbl. exact Hs. }
  { apply List.Forall_forall. intros kv Hkv. exact Hkv. }
  exists a2. unfold _get_expectation_value_from_probs.
  rewrite E1, result_bind_Ok, E2, result_bind_Ok. split; [reflexivity|].
  rewrite Hsumx in H1. rewrite Hsumz in H2.
  replace (a1 - 0) with a1 in H1 by lra.
  pose proof (Rle_abs a1). pose proof (Rle_abs (- a1)).
  pose proof (Rle_abs (a2 - a1)). pose proof (Rle_abs (- (a2 - a1))).
  rewrite Rabs_Ropp in *. lra.
Qed.

Lemma two_outcomes_distribution :
  distribution 2 (two_outcomes "00" "11").
Proof.
  split; [|split].
  - cbn [keys two_outcomes map fst]. apply NoDup_cons. split; [|apply NoDup_singleton].
    intros Hin. apply list_elem_of_singleton in Hin. discriminate.
  - repeat constructor.
  - exists [1 / 2; 1 / 2]. split; [reflexivity|]. split.
    + repeat constructor; lra.
    + cbn. lra.
Qed.

Lemma expectation_value_bounded_witness :
  exists energy,
    _get_expectation_value_from_probs (two_outcomes "00" "11") (two_outcomes "00" "11")
    = Ok (Fin energy)
    /\ - (2 * INR 2) <= energy <= 2 * INR 2.
Proof.
  apply (expectation_value_bounded 2 (two_outcomes "00" "11") (two_outcomes "00" "11"));
    [lia|exact two_outcomes_distribution..].
Defined.

End Expectation.

(** ** The expectation value as the energy of the ring *)

Section Ising.
Import NumPy VQE_HWEA_Clifford.
Local Open Scope R_scope.

Lemma parity_single (c : ascii) :
  (_parity_ones (String c EmptyString) =? 0)%Z = negb (Ascii.eqb c "1").
Proof.
  unfold _parity_ones. cbn [list_ascii_of_string fold_left].
  destruct (Ascii.eqb c "1"); reflexivity.
Qed.

Lemma parity_pair (a b : ascii) :
  (_parity_ones (String a (String b EmptyString)) =? 0)%Z
  = negb (xorb (Ascii.eqb a "1") (Ascii.eqb b "1")).
Proof.
  unfold _parity_ones. cbn [list_ascii_of_string fold_left].
  destruct (Ascii.eqb a "1"), (Ascii.eqb b "1"); reflexivity.
Qed.

(** The counts of [_calc] as a sum of eigenvalues. *)
Lemma counts_as_sum (bit_list : list string) :
  INR (evens bit_list) - INR (odds bit_list)
  = rsum (map (fun item => eigenvalue (negb (_parity_ones item =? 0)%Z)) bit_list).
Proof.
  unfold evens, odds. induction bit_list as [|item l IH]; cbn [List.filter map rsum fold_right].
  - cbn. lra.
  - fold (rsum (map (fun item => eigenvalue (negb (_parity_ones item =? 0)%Z)) l)).
    rewrite <- IH.
    destruct (_parity_ones item =? 0)%Z; cbn [negb length eigenvalue];
      rewrite S_INR; lra.
Qed.

Lemma getitem_value (s : string) (i : nat) :
  (i < String.length s)%nat ->
  exists c, String.get i s = Some c
            /\ getitem s (Z.of_nat i) = Ok (String c EmptyString).
Proof.
  intros Hi. destruct (string_get_some s i Hi) as (c & Ec).
  exists c. split; [exact Ec|]. unfold getitem.
  destruct (Z.ltb_spec (Z.of_nat i) 0) as [Hneg|_]; [lia|].
  destruct (Z.leb_spec 0 (Z.of_nat i)) as [_|Hneg]; [|lia].
  destruct (Z.ltb_spec (Z.of_nat i) (Z.of_nat (String.length s))) as [_|Hbig]; [|lia].
  cbn [andb]. rewrite Nat2Z.id, Ec. reflexivity.
Qed.

Lemma getitem_last_value (s : string) :
  (0 < String.length s)%nat ->
  exists c, String.get (String.length s - 1) s = Some c
            /\ getitem s (- (1)) = Ok (String c EmptyString).
Proof.
  intros Hlen. destruct (string_get_some s (String.length s - 1)) as (c & Ec); [lia|].
  exists c. split; [exact Ec|]. unfold getitem.
  destruct (Z.ltb_spec (- (1)) 0) as [_|Hneg]; [|lia].
  destruct (Z.leb_spec 0 (- (1) + Z.of_nat (String.length s))) as [_|Hneg]; [|lia].
  destruct (Z.ltb_spec (- (1) + Z.of_nat (String.length s))
                       (Z.of_nat (String.length s))) as [_|Hbig]; [|lia].
  cbn [andb].
  replace (Z.to_nat (- (1) + Z.of_nat (String.length s)))
    with (String.length s - 1)%nat by lia.
  rewrite Ec. reflexivity.
Qed.

Lemma substring_pair (s : string) : forall n,
  (S n < String.length s)%nat ->
  exists a b,
    String.get n s = Some a /\ String.get (S n) s = Some b
    /\ String.substring n 2 s = String a (String b EmptyString).
Proof.
  induction s as [|c s IH]; intros n Hn; [cbn in Hn; lia|].
  cbn [String.length] in Hn. destruct n as [|n].
  - destruct s as [|d s]; [cbn in Hn; lia|].
    exists c, d. split; [reflexivity|]. split; [reflexivity|].
    cbn [String.substring]. destruct s; reflexivity.
  - destruct (IH n) as (a & b & Ea & Eb & Es); [lia|].
    exists a, b. cbn [String.get String.substring]. repeat split; assumption.
Qed.

Lemma slice_pair (s : string) (i : nat) :
  (S i < String.length s)%nat ->
  exists a b,
    String.get i s = Some a /\ String.get (S i) s = Some b
    /\ slice s (Z.of_nat (S i) - 1) (Z.of_nat (S i) + 1) = String a (String b EmptyString).
Proof.
  intros Hi. destruct (substring_pair s i Hi) as (a & b & Ea & Eb & Es).
  exists a, b. split; [exact Ea|]. split; [exact Eb|].
  unfold slice.
  destruct (Z.ltb_spec (Z.of_nat (S i) - 1) 0) as [Hneg|_]; [lia|].
  destruct (Z.ltb_spec (Z.of_nat (S i) + 1) 0) as [Hneg|_]; [lia|].
  replace (Z.to_nat (Z.min (Z.of_nat (S i) - 1) (Z.of_nat (String.length s))))
    with i by lia.
  replace (Z.to_nat (Z.min (Z.of_nat (S i) + 1) (Z.of_nat (String.length s))
                     - Z.min (Z.of_nat (S i) - 1) (Z.of_nat (String.length s))))
    with 2%nat by lia.
  exact Es.
Qed.

Lemma comprehension_map {A B : Type} (f : A -> result B) (g : A -> B) (l : list A) :
  (forall a, In a l -> f a = Ok (g a)) -> comprehension f l = Ok (map g l).
Proof.
  induction l as [|a l IH]; intros Hf; [reflexivity|].
  cbn [comprehension map]. rewrite (Hf a), result_bind_Ok by (left; reflexivity).
  rewrite IH by (intros x Hx; apply Hf; right; exact Hx).
  reflexivity.
Qed.

Lemma x_term_value (probs_x : Dict) (a p : R) (bitstr : string) :
  get probs_x bitstr (Fin 0) = Fin p ->
  x_term probs_x (Fin a) bitstr = Ok (Fin (a + x_energy bitstr * p)).
Proof.
  intros Hp. unfold x_term.
  set (char := fun i : Z =>
                 match String.get (Z.to_nat i) bitstr with
                 | Some c => String c EmptyString
                 | None => EmptyString
                 end).
  rewrite (comprehension_map (getitem bitstr) char).
  - rewrite result_bind_Ok, (calc_value _ _ _ p Hp), counts_as_sum.
    assert (Hsum : map (fun item => eigenvalue (negb (_parity_ones item =? 0)%Z))
                       (map char (range (Z.of_nat (String.length bitstr))))
                   = map (fun i => eigenvalue (bit bitstr i))
                         (seq 0 (String.length bitstr))).
    { unfold range, range_len. rewrite Nat2Z.id, !map_map.
      apply map_ext_in. intros i Hi. apply in_seq in Hi.
      unfold char, bit. rewrite Nat2Z.id.
      destruct (string_get_some bitstr i) as (c & ->); [lia|].
      rewrite parity_single, negb_involutive. reflexivity. }
    rewrite Hsum. reflexivity.
  - intros i Hi. apply in_range in Hi.
    destruct (getitem_value bitstr (Z.to_nat i)) as (c & Ec & E); [lia|].
    rewrite Z2Nat.id in E by lia. unfold char. rewrite Ec. exact E.
Qed.

Lemma rsum_app (l1 l2 : list R) : rsum (l1 ++ l2) = rsum l1 + rsum l2.
Proof.
  unfold rsum. induction l1 as [|x l1 IH]; cbn [app fold_right]; [lra|].
  rewrite IH. lra.
Qed.

Lemma zz_energy_pairs (s : string) :
  (0 < String.length s)%nat ->
  zz_energy s
  = rsum (map (fun i => eigenvalue (xorb (bit s i) (bit s (S i))))
              (seq 0 (String.length s - 1)))
    + eigenvalue (xorb (bit s 0) (bit s (String.length s - 1))).
Proof.
  intros Hlen. unfold zz_energy.
  set (f := fun i => eigenvalue (xorb (bit s i) (bit s ((i + 1) mod String.length s)))).
  assert (Hseq : seq 0 (String.length s)
                 = seq 0 (String.length s - 1) ++ [(String.length s - 1)%nat]).
  { rewrite <- seq_S. f_equal. lia. }
  rewrite Hseq, map_app, rsum_app. f_equal.
  - f_equal. apply map_ext_in. intros i Hi. apply in_seq in Hi. unfold f.
    replace (i + 1)%nat with (S i) by lia.
    rewrite Nat.mod_small by lia. reflexivity.
  - cbn [map rsum fold_right]. unfold f.
    replace (String.length s - 1 + 1)%nat with (String.length s) by lia.
    rewrite Nat.Div0.mod_same, xorb_comm. lra.
Qed.

Lemma z_term_value (probs_z : Dict) (a p : R) (bitstr : string) :
  bitstr <> EmptyString ->
  get probs_z bitstr (Fin 0) = Fin p ->
  z_term probs_z (Fin a) bitstr = Ok (Fin (a + zz_energy bitstr * p)).
Proof.
  intros Hs Hp.
  assert (Hlen : (0 < String.length bitstr)%nat).
  { destruct bitstr; [contradiction|cbn; lia]. }
  unfold z_term.
  destruct (getitem_value bitstr 0 Hlen) as (c0 & E0 & Eg0).
  destruct (getitem_last_value bitstr Hlen) as (c1 & E1 & Eg1).
  change (Z.of_nat 0) with 0%Z in Eg0. rewrite Eg0, Eg1.
  rewrite !result_bind_Ok, (calc_value _ _ _ p Hp), counts_as_sum.
  assert (Hpairs : map (fun item => eigenvalue (negb (_parity_ones item =? 0)%Z))
                       (map (fun i => slice bitstr (i - 1) (i + 1))
                            (range_from 1 (Z.of_nat (String.length bitstr))))
                   = map (fun i => eigenvalue (xorb (bit bitstr i) (bit bitstr (S i))))
                         (seq 0 (String.length bitstr - 1))).
  { unfold range_from, range_len. rewrite !map_map.
    replace (Z.to_nat (Z.of_nat (String.length bitstr) - 1))
      with (String.length bitstr - 1)%nat by lia.
    apply map_ext_in. intros i Hi. apply in_seq in Hi.
    destruct (slice_pair bitstr i) as (x & y & Ex & Ey & Es); [lia|].
    replace (1 + Z.of_nat i)%Z with (Z.of_nat (S i)) by lia.
    rewrite Es, parity_pair, negb_involutive. unfold bit. rewrite Ex, Ey. reflexivity. }
  rewrite (zz_energy_pairs bitstr Hlen), map_app, rsum_app, Hpairs.
  change (String.append (String c0 EmptyString) (String c1 EmptyString))
    with (String c0 (String c1 EmptyString)).
  cbn [map rsum fold_right]. rewrite parity_pair, negb_involutive.
  unfold bit. rewrite E0, E1. cbn [mret result_ret fadd].
  f_equal. apply Fin_eq. lra.
Qed.

Lemma loop_value (probs : Dict) (f : string -> R)
    (term : float -> string -> result float) :
  NoDup (keys probs) ->
  (forall a p s,
     In s (keys probs) -> get probs s (Fin 0) = Fin p ->
     term (Fin a) s = Ok (Fin (a + f s * p))) ->
  forall (l : Dict) (a : R),
    Forall (fun kv => In kv probs) l ->
    Forall (fun x => finite x) (map snd l) ->
    for_each term (keys l) (Fin a) = Ok (Fin (a + expected f l)).
Proof.
  intros Hnd Hterm. unfold expected.
  induction l as [|[k v] l IH]; intros a Hin Hfin.
  - cbn. f_equal. apply Fin_eq. lra.
  - apply Forall_cons in Hin as [Hkv Hin].
    cbn [map snd] in Hfin. apply Forall_cons in Hfin as [Hv Hfin].
    destruct v as [p| | |]; try contradiction.
    cbn [keys map fst snd for_each].
    rewrite (Hterm a p k).
    + rewrite result_bind_Ok. fold (keys l). rewrite (IH _ Hin Hfin).
      f_equal. apply Fin_eq. cbn [rsum fold_right probability_of].
      fold (rsum (map (fun kv => f (fst kv) * probability_of (snd kv)) l)). lra.
    + apply (in_map fst _ _ Hkv).
    + apply get_in; assumption.
Qed.

(** X19. On dicts of finite probabilities, the empty string not being a
    key of [probs_z], [_get_expectation_value_from_probs] returns the energy
    of the ring: the mean over the X-basis outcomes of the sum of the
    eigenvalues of the [X_i], plus the mean over the Z-basis outcomes of the
    sum of the eigenvalues of the [Z_i Z_(i+1)], the last qubit coupled to
    the first. *)
Theorem expectation_value_ising (probs_z probs_x : Dict) :
  finite_dict probs_z -> finite_dict probs_x ->
  ~ In EmptyString (keys probs_z) ->
  _get_expectation_value_from_probs probs_z probs_x
  = Ok (Fin (expected x_energy probs_x + expected zz_energy probs_z)).
Proof.
  intros (Hndz & Hfz) (Hndx & Hfx) Hkz.
  unfold _get_expectation_value_from_probs.
  rewrite (loop_value probs_x x_energy (x_term probs_x) Hndx).
  - rewrite result_bind_Ok.
    rewrite (loop_value probs_z zz_energy (z_term probs_z) Hndz).
    + rewrite result_bind_Ok. cbn [mret result_ret]. f_equal. apply Fin_eq. lra.
    + intros a p s Hs Hp. apply z_term_value; [|exact Hp].
      intros ->. apply Hkz, Hs.
    + apply List.Forall_forall. intros kv Hkv. exact Hkv.
    + exact Hfz.
  - intros a p s _ Hp. apply x_term_value, Hp.
  - apply List.Forall_forall. intros kv Hkv. exact Hkv.
  - exact Hfx.
Qed.

Lemma two_outcomes_finite : finite_dict (two_outcomes "00" "11").
Proof.
  split.
  - cbn [keys two_outcomes map fst]. apply NoDup_cons. split; [|apply NoDup_singleton].
    intros Hin. apply list_elem_of_singleton in Hin. discriminate.
  - repeat constructor.
Qed.

Lemma expectation_value_ising_witness :
  _get_expectation_value_from_probs (two_outcomes "00" "11") (two_outcomes "00" "11")
  = Ok (Fin (expected x_energy (two_outcomes "00" "11")
             + expected zz_energy (two_outcomes "00" "11"))).
Proof.
  apply (expectation_value_ising _ _ two_outcomes_finite two_outcomes_finite).
  cbn [keys two_outcomes map fst]. intros [H|[H|[]]]; discriminate.
Defined.

End Ising.
